(** * GreptileClone: the job queue, the scheduler pass, the group barrier
      and the retry-fetch primitives

    A shallow embedding of
      - lib (downloadFile, fetchFile, fetchFiles, getFileType),
      - the cron route (GET, getJobs, filterForStaleJobs, processJobs,
        processJob, saveJobWithStatus, handleJobFailure, assembleDocument,
        checkGroupCompletion, finalizeGroup, processFile, ...),
      - the queue route (queueGroupedJobs, queueJob, fetchGitHubCommits,
        storeFileMetadata, getFileMetadata).

    Asynchronous functions are functions of a world (the KV store, the local
    disk, the wall clock, the counters of the network and of the uuid
    generator, and a trace of observable events) that return a value, throw,
    or run out of fuel. Fuel bounds the depth of the recursive repository
    listing; the retry loops carry a counter of the passes that are left,
    which five passes never exhaust. The KV store is taken as reliable; a
    request to the provider and a write to the local disk may fail. The
    executions of a batch run one after the other, in the order in which
    [Promise.all] starts them. *)

From Stdlib Require Import ZArith String Ascii List Lia Bool.
From stdpp Require Import base gmap strings list fin_maps sorting pretty.

Open Scope string_scope.
Open Scope list_scope.
Open Scope Z_scope.

(** ** Data model *)

Inductive Status := Queued | InProgress | Completed | Failed.

Definition statusString (s : Status) : string :=
  match s with
  | Queued => "queued"
  | InProgress => "in-progress"
  | Completed => "completed"
  | Failed => "failed"
  end.

#[global] Instance Status_eq_dec : EqDecision Status.
Proof. solve_decision. Defined.

Record FileInfo := { path : string; download_url : string }.

Record Job := {
  id : string;
  file : FileInfo;
  groupId : string;
  status : Status;
  owner : string;
  repo : string;
  result : option string;          (* undefined until the job has run *)
  createdAt : Z;
  updatedAt : Z
}.

(** A commit descriptor of the repository provider; only [sha] is read. *)
Record Commit := { sha : string }.

#[global] Instance FileInfo_eq_dec : EqDecision FileInfo.
Proof. solve_decision. Defined.
#[global] Instance Job_eq_dec : EqDecision Job.
Proof. solve_decision. Defined.
#[global] Instance Commit_eq_dec : EqDecision Commit.
Proof. solve_decision. Defined.

(** What [kv.get] can hand back: a job record (stored as its JSON text and
    parsed again by the client), a plain string (a membership marker or the
    group status), a file's stored commit descriptor, or the [{}] that the
    code substitutes for a missing key. *)
Inductive Value :=
| VJob (j : Job)
| VStr (s : string)
| VMeta (c : Commit)
| VEmpty.

#[global] Instance Value_eq_dec : EqDecision Value.
Proof. solve_decision. Defined.

(** JavaScript truthiness ([filter(Boolean)], [!storedMetadata]): of the
    values above only the empty string is falsy. *)
Definition truthy (v : Value) : bool :=
  match v with
  | VStr EmptyString => false
  | _ => true
  end.

(** Property reads; [None] is [undefined]. A string has none of the fields. *)
Definition status_of (v : Value) : option Status :=
  match v with VJob j => Some (status j) | _ => None end.
Definition updatedAt_of (v : Value) : option Z :=
  match v with VJob j => Some (updatedAt j) | _ => None end.
Definition owner_of (v : Value) : option string :=
  match v with VJob j => Some (owner j) | _ => None end.
Definition repo_of (v : Value) : option string :=
  match v with VJob j => Some (repo j) | _ => None end.
Definition file_of (v : Value) : option FileInfo :=
  match v with VJob j => Some (file j) | _ => None end.
Definition result_of (v : Value) : option string :=
  match v with VJob j => result j | _ => None end.
Definition sha_of (v : Value) : option string :=
  match v with VMeta c => Some (sha c) | _ => None end.

(** ** The world *)

Inductive Exn :=
| Error (msg : string)
| TypeError (msg : string).

Inductive Outcome (A : Type) :=
| Ok (a : A)
| Throw (e : Exn).
Arguments Ok {A} a.
Arguments Throw {A} e.

(** What a request to the repository provider answers. *)
Inductive Item :=
| ItemFile (p url : string)
| ItemDir (p : string)
| ItemOther.

Inductive Json :=
| JCommits (cs : list Commit)
| JListing (items : list Item)
| JRepo (name description homepage : option string)
| JOther.

Record Response := {
  ok : bool;
  statusText : string;
  text : Outcome string;
  arrayBuffer : Outcome string;
  json : Outcome Json
}.

Inductive Event :=
| EvFetch (url : string)            (* a request is sent *)
| EvSleep (ms : Z)                  (* a setTimeout wait *)
| EvProcessJob (j : Job)            (* logger.info(`processJob`, { job }) *)
| EvUpload (filename : string).     (* the artifact is handed over *)

Record World := {
  kv : gmap string Value;           (* the shared KV store *)
  disk : gmap string string;        (* local files *)
  now : Z;                          (* Date.now() *)
  requests : nat;                   (* requests sent so far *)
  uuids : nat;                      (* uuids drawn so far *)
  lastApiCallTime : Z;
  trace : list Event
}.

(** The collaborators. [fetch url n] is the provider's answer to the [n]-th
    request of the run; [writeFile p n] is what the file system answers to a
    write to the path [p] once [n] requests have been sent (every write of
    the program follows a request of its own, so the writes of a run are told
    apart); [scanOrder] is the order in which the store's SCAN hands out the
    matching keys, each of them once, which the store does not specify. *)
Record Env := {
  fetch : string -> nat -> Outcome Response;
  writeFile : string -> nat -> Outcome unit;
  uuidv4 : nat -> string;
  scanOrder : list string -> list string;
  scanOrder_perm : forall l, scanOrder l ≡ₚ l;
  generateAST : string -> string -> string;
  openaiSummary : string -> string -> Outcome (option string);
  uploadAndPoll : string -> string -> Outcome unit;
  stringifySafe : gmap string (option string) -> string;
  JSON_stringify : string -> string
}.

(** ** The monad of asynchronous code *)

Inductive Res (A : Type) :=
| Ret (a : A) (w : World)
| Raise (e : Exn) (w : World)
| OutOfFuel.
Arguments Ret {A} a w.
Arguments Raise {A} e w.
Arguments OutOfFuel {A}.

Definition M (A : Type) := World -> Res A.

Definition ret {A} (a : A) : M A := fun w => Ret a w.
Definition throw {A} (e : Exn) : M A := fun w => Raise e w.
Definition bind {A B} (m : M A) (k : A -> M B) : M B :=
  fun w => match m w with
           | Ret a w' => k a w'
           | Raise e w' => Raise e w'
           | OutOfFuel => OutOfFuel
           end.
Definition tryCatch {A} (m : M A) (h : Exn -> M A) : M A :=
  fun w => match m w with
           | Ret a w' => Ret a w'
           | Raise e w' => h e w'
           | OutOfFuel => OutOfFuel
           end.

Notation "x <- m ;; k" := (bind m (fun x => k))
  (at level 100, m at next level, right associativity).
Notation "m ;;; k" := (bind m (fun _ => k))
  (at level 100, right associativity).

Definition lift {A} (o : Outcome A) : M A :=
  match o with Ok a => ret a | Throw e => throw e end.

Fixpoint mapM {A B} (f : A -> M B) (l : list A) : M (list B) :=
  match l with
  | [] => ret []
  | x :: l' => y <- f x ;; ys <- mapM f l' ;; ret (y :: ys)
  end.

(** ** Primitives of the platform *)

Definition setKv (f : gmap string Value -> gmap string Value) (w : World) :=
  {| kv := f (kv w); disk := disk w; now := now w; requests := requests w;
     uuids := uuids w; lastApiCallTime := lastApiCallTime w;
     trace := trace w |}.
Definition setDisk (f : gmap string string -> gmap string string) (w : World) :=
  {| kv := kv w; disk := f (disk w); now := now w; requests := requests w;
     uuids := uuids w; lastApiCallTime := lastApiCallTime w;
     trace := trace w |}.
Definition setNow (t : Z) (w : World) :=
  {| kv := kv w; disk := disk w; now := t; requests := requests w;
     uuids := uuids w; lastApiCallTime := lastApiCallTime w;
     trace := trace w |}.
Definition setRequests (n : nat) (w : World) :=
  {| kv := kv w; disk := disk w; now := now w; requests := n;
     uuids := uuids w; lastApiCallTime := lastApiCallTime w;
     trace := trace w |}.
Definition setUuids (n : nat) (w : World) :=
  {| kv := kv w; disk := disk w; now := now w; requests := requests w;
     uuids := n; lastApiCallTime := lastApiCallTime w; trace := trace w |}.
Definition setLast (t : Z) (w : World) :=
  {| kv := kv w; disk := disk w; now := now w; requests := requests w;
     uuids := uuids w; lastApiCallTime := t; trace := trace w |}.
Definition addEvent (e : Event) (w : World) :=
  {| kv := kv w; disk := disk w; now := now w; requests := requests w;
     uuids := uuids w; lastApiCallTime := lastApiCallTime w;
     trace := trace w ++ [e] |}.

Definition emit (e : Event) : M unit := fun w => Ret tt (addEvent e w).

Definition Date_now : M Z := fun w => Ret (now w) w.

(** [await new Promise((resolve) => setTimeout(resolve, ms))] *)
Definition sleep (ms : Z) : M unit :=
  fun w => Ret tt (addEvent (EvSleep ms) (setNow (now w + Z.max 0 ms) w)).

Definition getLastApiCallTime : M Z := fun w => Ret (lastApiCallTime w) w.
Definition setLastApiCallTime (t : Z) : M unit :=
  fun w => Ret tt (setLast t w).

(** [fs.writeFile] and [fs.writeFileSync]: the write is rejected, or the
    file holds the data. *)
Definition fs_writeFile (E : Env) (filePath data : string) : M unit :=
  fun w => match writeFile E filePath (requests w) with
           | Ok _ => Ret tt (setDisk (insert filePath data) w)
           | Throw e => Raise e w
           end.

(** The KV client. The store is taken as reliable: its calls return. *)
Definition kv_set (key : string) (v : Value) : M unit :=
  fun w => Ret tt (setKv (insert key v) w).

Definition kv_get (key : string) : M (option Value) :=
  fun w => Ret (kv w !! key) w.

(** The call of an async function whose promise is not awaited: the caller
    goes on with the pending promise, and neither the value nor the
    rejection of the task ever reaches it. The task works in the background
    on the network only; it does not write the store. *)
Inductive Promise (A : Type) := Pending (task : M A).
Arguments Pending {A} task.

Definition spawn {A} (task : M A) : M (Promise A) := ret (Pending task).

(** [JSON.stringify] of a promise: an object with no enumerable property. *)
Definition JSON_stringify_promise {A} (p : Promise A) : string := "{}".

(** [`${x}`] for an object [x]. *)
Definition objectToString {A} (x : A) : string := "[object Object]".

(** [`${x}`] for a string that may be undefined. *)
Definition template (x : option string) : string :=
  match x with Some s => s | None => "undefined" end.

(** ** lib: file classification *)

Definition isSlash (c : ascii) : bool := Ascii.eqb c "/"%char.
Definition isDot (c : ascii) : bool := Ascii.eqb c "."%char.

(** The scan of Node's [path.extname] (posix), from the last character to
    the first; [-1] is its "not seen yet". *)
Record ExtState := {
  startDot : Z; startPart : Z; endPos : Z;
  matchedSlash : bool; preDotState : Z
}.

Fixpoint extnameScan (revChars : list ascii) (i : Z) (st : ExtState) : ExtState :=
  match revChars with
  | [] => st
  | c :: rest =>
    if isSlash c then
      if negb (matchedSlash st)
      then {| startDot := startDot st; startPart := i + 1; endPos := endPos st;
              matchedSlash := matchedSlash st; preDotState := preDotState st |}
      else extnameScan rest (i - 1) st
    else
      let st1 :=
        if endPos st =? -1
        then {| startDot := startDot st; startPart := startPart st;
                endPos := i + 1; matchedSlash := false;
                preDotState := preDotState st |}
        else st in
      let st2 :=
        if isDot c then
          if startDot st1 =? -1
          then {| startDot := i; startPart := startPart st1;
                  endPos := endPos st1; matchedSlash := matchedSlash st1;
                  preDotState := preDotState st1 |}
          else {| startDot := startDot st1; startPart := startPart st1;
                  endPos := endPos st1; matchedSlash := matchedSlash st1;
                  preDotState := 1 |}
        else if negb (startDot st1 =? -1)
          then {| startDot := startDot st1; startPart := startPart st1;
                  endPos := endPos st1; matchedSlash := matchedSlash st1;
                  preDotState := -1 |}
          else st1 in
      extnameScan rest (i - 1) st2
  end.

Definition extname (p : string) : string :=
  let st := extnameScan (rev (list_ascii_of_string p))
              (Z.of_nat (String.length p) - 1)
              {| startDot := -1; startPart := 0; endPos := -1;
                 matchedSlash := true; preDotState := 0 |} in
  if (startDot st =? -1) || (endPos st =? -1) || (preDotState st =? 0)
     || ((preDotState st =? 1) && (startDot st =? endPos st - 1)
         && (startDot st =? startPart st + 1))
  then ""
  else substring (Z.to_nat (startDot st))
                 (Z.to_nat (endPos st - startDot st)) p.

(** [toLowerCase] on the letters A-Z; the bytes of the other characters stay
    (no extension of the table below is the lower case of one of them). *)
Definition lowerChar (c : ascii) : ascii :=
  let n := nat_of_ascii c in
  if ((65 <=? n) && (n <=? 90))%nat then ascii_of_nat (n + 32) else c.

Fixpoint toLowerCase (s : string) : string :=
  match s with
  | EmptyString => EmptyString
  | String c s' => String (lowerChar c) (toLowerCase s')
  end.

Definition mediaExtensions : list string :=
  [".mp4"; ".avi"; ".mov"; ".wmv"; ".gif"; ".png"; ".jpg"; ".jpeg"; ".tiff";
   ".svg"; ".bmp"; ".webp"; ".ico"; ".webm"; ".mov"; ".ttf"; ".otf"; ".woff";
   ".woff2"].

Definition inList (x : string) (l : list string) : bool :=
  existsb (String.eqb x) l.

Definition getFileType (f : string) : string :=
  let ext := toLowerCase (extname f) in
  if inList ext [".js"; ".jsx"; ".ts"; ".tsx"] then "JavaScript/TypeScript"
  else if String.eqb ext ".json" then "JSON"
  else if String.eqb ext ".html" then "HTML"
  else if String.eqb ext ".css" then "CSS"
  else if String.eqb ext ".md" then "Markdown"
  else if inList ext mediaExtensions then "Media"
  else "Unknown".

(** ** Keys of the store *)

Definition jobPattern : string := "job:".
Definition jobKey (jobId : string) : string := "job:" +:+ jobId.
Definition groupPattern (gid : string) : string := "group:" +:+ gid +:+ ":".
Definition markerKey (gid jobId : string) : string :=
  "group:" +:+ gid +:+ ":" +:+ jobId.
Definition groupStatusKey (gid : string) : string :=
  "group:" +:+ gid +:+ ":status".
Definition metadataKey (repoKey f : string) : string :=
  repoKey +:+ ":" +:+ f +:+ ":metadata".

(** ** Pieces of the cron route that touch no state *)

(** The comparator [(a, b) => a.updatedAt - b.updatedAt]; the difference is
    NaN when a side has no [updatedAt], which [sort] reads as 0. *)
Definition compareUpdatedAt (a b : Value) : Z :=
  match updatedAt_of a, updatedAt_of b with
  | Some x, Some y => x - y
  | _, _ => 0
  end.

(** [Array.prototype.sort] is stable: insertion from the right, an element
    going before the first one it does not compare greater than. This is
    the order of the engine where every element has an [updatedAt]; with an
    element that has none the comparator is inconsistent and the language
    leaves the order open, so the theorems that name the order of a listing
    are stated for listings of job records. *)
Fixpoint sortInsert (cmp : Value -> Value -> Z) (x : Value) (l : list Value)
  : list Value :=
  match l with
  | [] => [x]
  | y :: l' => if cmp x y <=? 0 then x :: y :: l' else y :: sortInsert cmp x l'
  end.

Definition jsSort (cmp : Value -> Value -> Z) (l : list Value) : list Value :=
  foldr (sortInsert cmp) [] l.

(** [jobs.filter((job) => job.status === s)]: of the values of the store
    only a job record has a [status], so what is kept are job records. *)
Definition jobsWithStatus (s : Status) (vals : list Value) : list Job :=
  omap (fun v => match v with
                 | VJob j => if decide (status j = s) then Some j else None
                 | _ => None
                 end) vals.

Definition withStatus (j : Job) (s : Status) (t : Z) : Job :=
  {| id := id j; file := file j; groupId := groupId j; status := s;
     owner := owner j; repo := repo j; result := result j;
     createdAt := createdAt j; updatedAt := t |}.

Definition withResult (j : Job) (r : string) : Job :=
  {| id := id j; file := file j; groupId := groupId j; status := status j;
     owner := owner j; repo := repo j; result := Some r;
     createdAt := createdAt j; updatedAt := updatedAt j |}.

(** [Object.fromEntries]: a later entry overwrites an earlier one of the
    same key. *)
Definition fromEntries (entries : list (string * option string))
  : gmap string (option string) :=
  fold_left (fun m e => <[e.1 := e.2]> m) entries ∅.

(** [s.replaceAll(/_/g, r)] *)
Fixpoint replaceUnderscores (r s : string) : string :=
  match s with
  | EmptyString => EmptyString
  | String c s' =>
    if Ascii.eqb c "_"%char then r +:+ replaceUnderscores r s'
    else String c (replaceUnderscores r s')
  end.

Record Metadata := {
  name : option string; description : option string; demoLink : string
}.

Record AstData := {
  astFile : string; astType : string; ast : string; summary : string;
  sourceCode : string
}.

(** ** A try block around an object that its steps mutate

    [processJob] updates the fields of [job] inside the [try], and its
    [catch] hands the same object on; a step of the block therefore returns
    the object as it left it, also when it throws. *)
Inductive Step (X A : Type) :=
| Done (a : A) (x : X)
| Thrown (e : Exn) (x : X).
Arguments Done {X A} a x.
Arguments Thrown {X A} e x.

Definition Block (X A : Type) := X -> M (Step X A).

Definition blockBind {X A B} (m : Block X A) (k : A -> Block X B) : Block X B :=
  fun x => s <- m x ;;
           match s with
           | Done a x' => k a x'
           | Thrown e x' => ret (Thrown e x')
           end.

(** A call that does not change the object. *)
Definition call {X A} (m : M A) : Block X A :=
  fun x => tryCatch (a <- m ;; ret (Done a x)) (fun e => ret (Thrown e x)).

(** A call that updates the object. *)
Definition update {X} (m : X -> M X) : Block X unit :=
  fun x => tryCatch (x' <- m x ;; ret (Done tt x')) (fun e => ret (Thrown e x)).

Definition readObject {X} : Block X X := fun x => ret (Done x x).

Notation "x <~ m ;; k" := (blockBind m (fun x => k))
  (at level 100, m at next level, right associativity).

Section Program.
Variable E : Env.

Definition js_fetch (url : string) : M Response :=
  fun w => let w' := addEvent (EvFetch url) (setRequests (S (requests w)) w) in
           match fetch E url (requests w) with
           | Ok r => Ret r w'
           | Throw e => Raise e w'
           end.

Definition uuid : M string :=
  fun w => Ret (uuidv4 E (uuids w)) (setUuids (S (uuids w)) w).

(** [kv.scanIterator({ match: pre + "*" })]: the store reads the pattern as a
    glob. The two patterns of the program are a prefix followed by [*]; for
    a prefix without a glob character (a uuid has none) the keys that match
    are the keys that start with the prefix, which is what is modelled. The
    theorems that depend on what the pattern of a group lists are stated for
    group ids without a glob character. *)
Definition kv_scan (pre : string) : M (list string) :=
  fun w => Ret (scanOrder E (filter (fun k => String.prefix pre k = true)
                               (elements (dom (kv w))))) w.

(** ** lib: the retry-fetch primitives *)

(** One pass of the body of [fetchFile]'s [try]. *)
Definition fetchFileAttempt (url : string) : M string :=
  response <- js_fetch url ;;
  if negb (ok response)
  then throw (Error ("Failed to fetch file: " +:+ statusText response))
  else lift (text response).

(** [for (let attempt = 1; attempt <= 5; attempt++)]; [remaining] only makes
    the recursion structural, 5 passes are enough for it. *)
Fixpoint fetchFileLoop (remaining : nat) (attempt : Z) (url : string) : M string :=
  if attempt <=? 5 then
    match remaining with
    | O => fun _ => OutOfFuel
    | S remaining' =>
      tryCatch (fetchFileAttempt url)
        (fun error =>
           if attempt =? 5
           then throw (Error ("Failed to fetch file after 5 attempts: " +:+ url))
           else sleep (1000 * 2 ^ attempt) ;;;
                fetchFileLoop remaining' (attempt + 1) url)
    end
  else ret "".

Definition fetchFile (url : string) : M string :=
  sleep 750 ;;; fetchFileLoop 5 1 url.

Definition downloadFileAttempt (url filePath : string) : M unit :=
  response <- js_fetch url ;;
  if negb (ok response)
  then throw (Error ("Failed to fetch file: " +:+ statusText response))
  else buf <- lift (arrayBuffer response) ;; fs_writeFile E filePath buf.

Fixpoint downloadFileLoop (remaining : nat) (attempt : Z) (url filePath : string)
  : M unit :=
  if attempt <=? 5 then
    match remaining with
    | O => fun _ => OutOfFuel
    | S remaining' =>
      tryCatch (downloadFileAttempt url filePath)
        (fun error =>
           if attempt =? 5
           then throw (Error ("Failed to download file after 5 attempts: " +:+ url))
           else sleep (1000 * 2 ^ attempt) ;;;
                downloadFileLoop remaining' (attempt + 1) url filePath)
    end
  else ret tt.

Definition downloadFile (url filePath : string) : M unit :=
  downloadFileLoop 5 1 url filePath.

(** ** lib: the repository lister *)

(** [for (const item of data)]: an object that is not an array is not
    iterable; the entries of an array of commits have no [type]. *)
Definition iterate (data : Json) : M (list Item) :=
  match data with
  | JListing items => ret items
  | JCommits cs => ret (map (fun _ => ItemOther) cs)
  | _ => throw (TypeError "data is not iterable")
  end.

Fixpoint fetchFiles (fuel : nat) (owner repo p : string) : M (list FileInfo) :=
  match fuel with
  | O => fun _ => OutOfFuel
  | S fuel' =>
    let url := "https://api.github.com/repos/" +:+ owner +:+ "/" +:+ repo
               +:+ "/contents/" +:+ p in
    tryCatch
      (response <- js_fetch url ;;
       if negb (ok response)
       then throw (Error ("Failed to fetch files: " +:+ statusText response))
       else
         data <- lift (json response) ;;
         items <- iterate data ;;
         (fix each (items : list Item) (files : list FileInfo) : M (list FileInfo) :=
            match items with
            | [] => ret files
            | ItemFile ip iurl :: items' =>
                each items' (files ++ [{| path := ip; download_url := iurl |}])
            | ItemDir ip :: items' =>
                moreFiles <- fetchFiles fuel' owner repo ip ;;
                each items' (files ++ moreFiles)
            | ItemOther :: items' => each items' files
            end) items [])
      (fun error => throw error)
  end.

(** ** The cron route *)

Definition getJobs (pre : string) : M (list Value) :=
  jobIds <- kv_scan pre ;;
  jobs <- mapM (fun key => v <- kv_get key ;; ret (default VEmpty v)) jobIds ;;
  ret (jsSort compareUpdatedAt (filter (fun v => truthy v = true) jobs)).

Definition filterForStaleJobs (jobs : list Job) (staleTime : Z) : M (list Job) :=
  keep <- mapM (fun job => t <- Date_now ;;
                           ret (t - updatedAt job >? staleTime)) jobs ;;
  ret (map fst (filter (fun jb => snd jb = true) (zip jobs keep))).

Definition saveJobWithStatus (job : Job) (s : Status) : M Job :=
  t <- Date_now ;;
  let job' := withStatus job s t in
  kv_set (jobKey (id job')) (VJob job') ;;;
  ret job'.

Definition handleJobFailure (job : Job) : M unit :=
  job' <- saveJobWithStatus job Failed ;;
  kv_set (markerKey (groupId job') (id job')) (VStr "failed").

Definition fetchRepoMetadata (owner repo : option string) : M (option Metadata) :=
  let url := "https://api.github.com/repos/" +:+ template owner +:+ "/"
             +:+ template repo in
  tryCatch
    (response <- js_fetch url ;;
     data <- lift (json response) ;;
     match data with
     | JRepo n d h =>
       ret (Some {| name := n; description := d;
                    demoLink := match h with
                                | Some (String c h') => String c h'
                                | _ => "No demo link provided"
                                end |})
     | _ => ret (Some {| name := None; description := None;
                         demoLink := "No demo link provided" |})
     end)
    (fun error => ret None).

(** [job.file.path] throws when [job] has no [file]. *)
Definition entryOf (job : Value) : M (string * option string) :=
  match file_of job with
  | Some f => ret (path f, result_of job)
  | None => throw (TypeError "Cannot read properties of undefined (reading 'path')")
  end.

Definition assembleDocument (jobs : list Value) : M (gmap string (option string)) :=
  match jobs with
  | [] => ret ∅
  | job0 :: _ =>
    entries <- mapM entryOf jobs ;;
    fetched <- fetchRepoMetadata (owner_of job0) (repo_of job0) ;;
    let metadata := default {| name := None; description := None;
                               demoLink := "" |} fetched in
    ret (fromEntries (entries ++ [("metadata", Some (objectToString metadata))]))
  end.

Definition checkGroupCompletion (gid : string) : M bool :=
  jobs <- getJobs (groupPattern gid) ;;
  ret (forallb (fun v => bool_decide (status_of v = Some Completed)) jobs).

(** [owner.replaceAll] throws when [owner] is undefined. *)
Definition getASTFilename (owner repo : option string) : M string :=
  match owner, repo with
  | Some o, Some r =>
    ret (replaceUnderscores "ZzDasHzZ" o +:+ "_"
         +:+ replaceUnderscores "ZzDasHzZ" r +:+ "-asts.json")
  | _, _ =>
    throw (TypeError "Cannot read properties of undefined (reading 'replaceAll')")
  end.

Definition saveASTsToFile (filename : string) (data : gmap string (option string))
  : M unit :=
  fs_writeFile E filename (stringifySafe E data).

Definition uploadDocument (filename : string) : M unit :=
  w <- (fun w => Ret w w) ;;
  emit (EvUpload filename) ;;;
  lift (uploadAndPoll E filename (default "" (disk w !! filename))).

Definition finalizeGroup (gid : string) : M unit :=
  jobs <- getJobs (groupPattern gid) ;;
  match jobs with
  | [] => throw (TypeError "Cannot destructure property 'owner' of 'jobs[0]'")
  | job0 :: _ =>
    filename <- getASTFilename (owner_of job0) (repo_of job0) ;;
    finalDocument <- assembleDocument jobs ;;
    saveASTsToFile filename finalDocument ;;;
    uploadDocument filename ;;;
    kv_set (groupStatusKey gid) (VStr "completed")
  end.

Definition summarizeFileOpenAI (filename fileContent : string) : M (option string) :=
  currentTime <- Date_now ;;
  lastCall <- getLastApiCallTime ;;
  (if currentTime - lastCall <? 1000
   then sleep (1000 - (currentTime - lastCall)) else ret tt) ;;;
  t <- Date_now ;;
  setLastApiCallTime t ;;;
  lift (openaiSummary E filename fileContent).

Definition fileInfoToAstData (f : FileInfo) : M AstData :=
  fileContent <- fetchFile (download_url f) ;;
  let tree := generateAST E (path f) fileContent in
  s <- summarizeFileOpenAI (path f) fileContent ;;
  ret {| astFile := path f; astType := getFileType (path f); ast := tree;
         summary := default "" s;
         sourceCode := JSON_stringify E fileContent |}.

(** [const astData = fileInfoToAstData(file)] has no [await]: [astData] is
    the pending promise, and [JSON.stringify(astData)] is its text. *)
Definition processFile (f : FileInfo) : M string :=
  astData <- spawn (fileInfoToAstData f) ;;
  ret (JSON_stringify_promise astData).

Definition processJobBody : Block Job unit :=
  _ <~ update (fun job => saveJobWithStatus job InProgress) ;;
  job <~ readObject ;;
  r <~ call (processFile (file job)) ;;
  _ <~ update (fun job => ret (withResult job r)) ;;
  _ <~ update (fun job => saveJobWithStatus job Completed) ;;
  job <~ readObject ;;
  _ <~ call (kv_set (markerKey (groupId job) (id job)) (VStr "completed")) ;;
  complete <~ call (checkGroupCompletion (groupId job)) ;;
  if complete : bool then call (finalizeGroup (groupId job)) else call (ret tt).

Definition processJob (job : Job) : M unit :=
  emit (EvProcessJob job) ;;;
  s <- processJobBody job ;;
  match s with
  | Done _ _ => ret tt
  | Thrown error job' => handleJobFailure job'
  end.

(** [Promise.all(jobsToProcess.map(processJob))]: the executions are started
    in the order of the batch; here each one runs to its end before the next
    starts. *)
Definition processJobs (jobs : list Job) (limit : nat) : M unit :=
  let jobsToProcess := take (Nat.min (length jobs) limit) jobs in
  mapM processJob jobsToProcess ;;; ret tt.

(** The handler of the trigger; its answer is the HTTP status. *)
Definition GET (authorized : bool) : M Z :=
  if negb authorized then ret 401
  else
    tryCatch
      (jobs <- getJobs jobPattern ;;
       let inProgressJobs := jobsWithStatus InProgress jobs in
       staleInProgressJobs <- filterForStaleJobs inProgressJobs (60000 * 6) ;;
       if (0 <? length staleInProgressJobs)%nat
       then processJobs staleInProgressJobs 50 ;;; ret 200
       else
         let queuedJobs := jobsWithStatus Queued jobs in
         if (0 <? length queuedJobs)%nat
         then processJobs queuedJobs 50 ;;; ret 200
         else ret 200)
      (fun error => ret 500).

(** ** The queue route *)

Definition queueJob (job : Job) : M unit :=
  kv_set (jobKey (id job)) (VJob job) ;;;
  kv_set (markerKey (groupId job) (id job)) (VStr "queued").

Definition fetchGitHubCommits (repoKey p : string) : M Json :=
  let url := "https://api.github.com/repos/" +:+ repoKey +:+ "/commits?path="
             +:+ p in
  response <- js_fetch url ;;
  lift (json response).

(** [metadata: any = {}]: an undefined third argument is stored as [{}]. *)
Definition storeFileMetadata (repoKey f : string) (metadata : option Commit)
  : M unit :=
  kv_set (metadataKey repoKey f)
         (match metadata with Some c => VMeta c | None => VEmpty end).

Definition getFileMetadata (repoKey f : string) : M Value :=
  r <- kv_get (metadataKey repoKey f) ;;
  ret (default VEmpty r).

(** [latestMetadata[0]]: the commits endpoint answers with an array of
    commits, or with an object, which has no element 0. *)
Definition firstCommit (latestMetadata : Json) : option Commit :=
  match latestMetadata with
  | JCommits (c :: _) => Some c
  | _ => None
  end.

(** [!storedMetadata || storedMetadata.sha !== latestMetadata[0].sha]; the
    right side is only evaluated for a truthy [storedMetadata], and throws
    when there is no first commit. *)
Definition changed (storedMetadata : Value) (latestMetadata : Json) : M bool :=
  if negb (truthy storedMetadata) then ret true
  else match firstCommit latestMetadata with
       | None => throw (TypeError "Cannot read properties of undefined (reading 'sha')")
       | Some c => ret (negb (bool_decide (sha_of storedMetadata = Some (sha c))))
       end.

Definition queueFile (owner repo repoKey gid : string) (f : FileInfo)
  (jobs : list Job) : M (list Job) :=
  latestMetadata <- fetchGitHubCommits repoKey (path f) ;;
  storedMetadata <- getFileMetadata repoKey (path f) ;;
  c <- changed storedMetadata latestMetadata ;;
  if c : bool then
    jobId <- uuid ;;
    created <- Date_now ;;
    updated <- Date_now ;;
    let job := {| id := jobId; file := f; groupId := gid; status := Queued;
                  owner := owner; repo := repo; result := None;
                  createdAt := created; updatedAt := updated |} in
    queueJob job ;;;
    storeFileMetadata repoKey (path f) (firstCommit latestMetadata) ;;;
    ret (jobs ++ [job])
  else ret jobs.

Fixpoint queueFiles (owner repo repoKey gid : string) (files : list FileInfo)
  (jobs : list Job) : M (list Job) :=
  match files with
  | [] => ret jobs
  | f :: files' =>
    jobs' <- queueFile owner repo repoKey gid f jobs ;;
    queueFiles owner repo repoKey gid files' jobs'
  end.

(** The Enqueuer. It answers with the group id; the list of the jobs it has
    pushed, which the source only logs, is returned with it. *)
Definition queueGroupedJobs (fuel : nat) (owner repo : string)
  : M (string * list Job) :=
  let repoKey := owner +:+ "/" +:+ repo in
  listed <- fetchFiles fuel owner repo "" ;;
  let files := filter (fun f => String.eqb (getFileType (path f)) "Media" = false)
                      listed in
  gid <- uuid ;;
  jobs <- queueFiles owner repo repoKey gid files [] ;;
  ret (gid, jobs).

End Program.

(** ** Functions of the store used to state the properties *)

(** What [getJobs] reads, as a function of the store. *)
Definition listJobs (E : Env) (pre : string) (m : gmap string Value) : list Value :=
  jsSort compareUpdatedAt
    (filter (fun v => truthy v = true)
       (map (fun key => default VEmpty (m !! key))
          (scanOrder E (filter (fun k => String.prefix pre k = true)
                          (elements (dom m)))))).


(** What one attempt of [fetchFile] yields when the provider answers its
    request as the [n]-th of the run: the text, or nothing when the request
    fails, the status is not a success, or the body cannot be read. *)
Definition attemptText (E : Env) (url : string) (n : nat) : option string :=
  match fetch E url n with
  | Ok r => if ok r then match text r with Ok t => Some t | Throw _ => None end
            else None
  | Throw _ => None
  end.

(** The same for [downloadFile]: the bytes that it has written to the
    destination, or nothing when the request fails, the status is not a
    success, the body cannot be read, or the write is rejected. *)
Definition attemptBytes (E : Env) (url filePath : string) (n : nat) : option string :=
  match fetch E url n with
  | Ok r => if ok r
            then match arrayBuffer r with
                 | Ok b => match writeFile E filePath (S n) with
                           | Ok _ => Some b
                           | Throw _ => None
                           end
                 | Throw _ => None
                 end
            else None
  | Throw _ => None
  end.

(** The first [k] attempts fail. *)
Definition failsFirst (outcome : nat -> option string) (n k : nat) : Prop :=
  forall i, (i < k)%nat -> outcome (n + i)%nat = None.

(** The events of [k] failed attempts, the first of them numbered [attempt]:
    each request is followed by a wait of 1000ms * 2^attempt. *)
Fixpoint retryTrace (url : string) (attempt : Z) (k : nat) : list Event :=
  match k with
  | O => []
  | S k' => EvFetch url :: EvSleep (1000 * 2 ^ attempt)
            :: retryTrace url (attempt + 1) k'
  end.



Definition sleepsOf (t : list Event) : list Z :=
  omap (fun e => match e with EvSleep ms => Some ms | _ => None end) t.

(** The record that [processJob] leaves for [job] when it runs at time [t]. *)
Definition completedJob (job : Job) (t : Z) : Job :=
  withStatus (withResult (withStatus job InProgress t) "{}") Completed t.

(** The store after [processJob job] at time [t]. *)
Definition storeAfterJob (job : Job) (t : Z) (m : gmap string Value)
  : gmap string Value :=
  <[markerKey (groupId job) (id job) := VStr "completed"]>
    (<[jobKey (id job) := VJob (completedJob job t)]>
       (<[jobKey (id job) := VJob (withStatus job InProgress t)]> m)).

(** Every job record of the store sits under the key of its own id, as
    [queueJob] and [saveJobWithStatus] write it. *)
Definition wfStore (m : gmap string Value) : Prop :=
  map_Forall (fun k v => match v with
                         | VJob j => k = jobKey (id j)
                         | _ => True
                         end) m.

#[global] Instance wfStore_dec m : Decision (wfStore m).
Proof. unfold wfStore. apply map_Forall_dec. intros k [j| | |]; apply _. Defined.

(** The key space [job:*] holds job records only. *)
Definition jobSpace (m : gmap string Value) : Prop :=
  map_Forall (fun k v => match v with
                         | VJob j => True
                         | _ => String.prefix jobPattern k = false
                         end) m.

#[global] Instance jobSpace_dec m : Decision (jobSpace m).
Proof. unfold jobSpace. apply map_Forall_dec. intros k [j| | |]; apply _. Defined.

(** The store after the executions of a batch, one after the other. *)
Definition storeAfterJobs (t : Z) (jobs : list Job) (m : gmap string Value)
  : gmap string Value :=
  fold_left (fun m job => storeAfterJob job t m) jobs m.

(** The jobs that a pass may execute: the in-progress jobs that are stale at
    time [t] if there is one, the queued jobs otherwise, in the order of the
    listing. *)
Definition staleJobs (E : Env) (t : Z) (m : gmap string Value) : list Job :=
  filter (fun j => (t - updatedAt j >? 60000 * 6) = true)
         (jobsWithStatus InProgress (listJobs E jobPattern m)).

Definition queuedJobs (E : Env) (m : gmap string Value) : list Job :=
  jobsWithStatus Queued (listJobs E jobPattern m).

Definition eligibleJobs (E : Env) (t : Z) (m : gmap string Value) : list Job :=
  match staleJobs E t m with
  | [] => queuedJobs E m
  | stale => stale
  end.

(** Ids are uuids, which have no colon; the id of a marker key is then what
    follows its last colon. *)
Fixpoint hasColon (s : string) : bool :=
  match s with
  | EmptyString => false
  | String c s' => Ascii.eqb c ":"%char || hasColon s'
  end.

Fixpoint afterLastColon (s : string) : string :=
  match s with
  | EmptyString => EmptyString
  | String c s' =>
    if hasColon s' then afterLastColon s'
    else if Ascii.eqb c ":"%char then s' else String c s'
  end.

(** The job executions that a piece of the trace records. *)
Definition executed (events : list Event) : list Job :=
  omap (fun e => match e with EvProcessJob j => Some j | _ => None end) events.

(** The order of the listing on values that carry [updatedAt]. *)
Definition olderValue (a b : Value) : Prop :=
  match updatedAt_of a, updatedAt_of b with
  | Some x, Some y => x <= y
  | _, _ => False
  end.

Definition notNewer (a b : Job) : Prop := updatedAt a <= updatedAt b.

Definition isJobValue (v : Value) : Prop :=
  match v with VJob _ => True | _ => False end.

(** The job record under a key, when it has the status [s]. *)
Definition jobAt (m : gmap string Value) (s : Status) (k : string) : option Job :=
  match m !! k with
  | Some (VJob j) => if decide (status j = s) then Some j else None
  | _ => None
  end.

(** The entry [[job.file.path, job.result]] of a job record. *)
Definition jobEntry (j : Job) : string * option string :=
  (path (file j), result j).

(** The operations that follow the Enqueuer on a group: the execution of a
    job, the handling of its failure, the finalization of a group. *)
Inductive Op :=
| OpProcessJob (job : Job)
| OpHandleJobFailure (job : Job)
| OpFinalizeGroup (gid : string).

Definition worldAfter {A} (r : Res A) (w : World) : World :=
  match r with
  | Ret _ w' => w'
  | Raise _ w' => w'
  | OutOfFuel => w
  end.

Definition runOp (E : Env) (w : World) (op : Op) : World :=
  match op with
  | OpProcessJob job => worldAfter (processJob E job w) w
  | OpHandleJobFailure job => worldAfter (handleJobFailure job w) w
  | OpFinalizeGroup gid => worldAfter (finalizeGroup E gid w) w
  end.

Definition runOps (E : Env) (ops : list Op) (w : World) : World :=
  fold_left (runOp E) ops w.

(** The job of the operation has the membership marker that [queueJob]
    registers for it. *)
Definition registered (m : gmap string Value) (op : Op) : Prop :=
  match op with
  | OpProcessJob job | OpHandleJobFailure job =>
      is_Some (m !! markerKey (groupId job) (id job))
  | OpFinalizeGroup _ => True
  end.

(** The keys of the store that the pattern of a group matches. *)
Definition markerKeys (gid : string) (m : gmap string Value) : gset string :=
  filter (fun k => String.prefix (groupPattern gid) k = true) (dom m).

(** The latest commit of a file, as the provider answers the [n]-th request
    of the run, and the fingerprint that the store holds for the file
    ([storedMetadata.sha]). *)
Definition commitsUrl (repoKey p : string) : string :=
  "https://api.github.com/repos/" +:+ repoKey +:+ "/commits?path=" +:+ p.

Definition latestCommit (E : Env) (repoKey p : string) (n : nat) : option Commit :=
  match fetch E (commitsUrl repoKey p) n with
  | Ok r => match json r with Ok j => firstCommit j | Throw _ => None end
  | Throw _ => None
  end.

Definition storedSha (m : gmap string Value) (repoKey p : string) : option string :=
  sha_of (default VEmpty (m !! metadataKey repoKey p)).

(** The fingerprint stored for the file is the latest one, whenever the
    provider is asked. *)
Definition unchangedFile (E : Env) (m : gmap string Value) (repoKey : string)
  (f : FileInfo) : Prop :=
  forall n, exists c, latestCommit E repoKey (path f) n = Some c
                      /\ storedSha m repoKey (path f) = Some (sha c).

(** The job that the Enqueuer creates for a file in a given state. *)
Definition newJob (E : Env) (owner repo gid : string) (f : FileInfo) (w : World)
  : Job :=
  {| id := uuidv4 E (uuids w); file := f; groupId := gid; status := Queued;
     owner := owner; repo := repo; result := None;
     createdAt := now w; updatedAt := now w |}.

(** The store after the Enqueuer has queued [job] with the commit [c]. *)
Definition storeAfterQueue (repoKey : string) (job : Job) (c : Commit)
  (m : gmap string Value) : gmap string Value :=
  <[metadataKey repoKey (path (file job)) := VMeta c]>
    (<[markerKey (groupId job) (id job) := VStr "queued"]>
       (<[jobKey (id job) := VJob job]> m)).

(** A computation that leaves the store as it is. *)
Definition keepsKv {A} (m : M A) : Prop :=
  forall w, match m w with
            | Ret _ w' | Raise _ w' => kv w' = kv w
            | OutOfFuel => True
            end.

(** Every value that the pattern of the group matches is the string [s]. *)
Definition allMarkersRead (s gid : string) (m : gmap string Value) : Prop :=
  map_Forall (fun k v => String.prefix (groupPattern gid) k = true -> v = VStr s) m.

#[global] Instance allMarkersRead_dec s gid m : Decision (allMarkersRead s gid m).
Proof. unfold allMarkersRead. apply map_Forall_dec. intros k v. apply _. Defined.

(** ** Concrete scenarios *)

Definition okResponse (body : string) (j : Json) : Response :=
  {| ok := true; statusText := "OK"; text := Ok body; arrayBuffer := Ok body;
     json := Ok j |}.

(** A provider that serves the repository o/r with the files a.js, b.png and
    dir/c.json, knows one commit per path, and does not serve any content. *)
Definition repoFetch (url : string) (n : nat) : Outcome Response :=
  if String.eqb url "https://api.github.com/repos/o/r/contents/"
  then Ok (okResponse "" (JListing [ItemFile "a.js" "https://raw.example/o/r/a.js";
                                    ItemFile "b.png" "https://raw.example/o/r/b.png";
                                    ItemDir "dir"]))
  else if String.eqb url "https://api.github.com/repos/o/r/contents/dir"
  then Ok (okResponse "" (JListing [ItemFile "dir/c.json"
                                      "https://raw.example/o/r/dir/c.json"]))
  else if String.prefix "https://api.github.com/repos/o/r/commits?path=" url
  then Ok (okResponse "" (JCommits [{| sha := "5f2c1e" |}]))
  else Throw (Error "fetch failed").

Definition demoEnv : Env :=
  {| fetch := repoFetch;
     writeFile := fun _ _ => Ok tt;
     uuidv4 := fun n => "id-" +:+ pretty n;
     scanOrder := fun l => l;
     scanOrder_perm := fun l => Permutation_refl l;
     generateAST := fun _ _ => "{}";
     openaiSummary := fun _ _ => Ok (Some "a summary");
     uploadAndPoll := fun _ _ => Ok tt;
     stringifySafe := fun _ => "{}";
     JSON_stringify := fun s => s |}.

Definition worldOf (m : gmap string Value) : World :=
  {| kv := m; disk := ∅; now := 1000000; requests := 0; uuids := 0;
     lastApiCallTime := 0; trace := [] |}.

Definition demoJob (jobId p : string) (s : Status) (r : option string) (t : Z) : Job :=
  {| id := jobId;
     file := {| path := p; download_url := "https://raw.example/o/r/" +:+ p |};
     groupId := "g1"; status := s; owner := "o"; repo := "r"; result := r;
     createdAt := 500000; updatedAt := t |}.

(** A group of two jobs that have both completed. *)
Definition jobDone1 : Job := demoJob "j1" "a.js" Completed (Some "{}") 900000.
Definition jobDone2 : Job := demoJob "j2" "dir/c.json" Completed (Some "{}") 900001.
Definition completedStore : gmap string Value :=
  <[jobKey "j1" := VJob jobDone1]>
    (<[jobKey "j2" := VJob jobDone2]>
       (<[markerKey "g1" "j1" := VStr "completed"]>
          (<[markerKey "g1" "j2" := VStr "completed"]> ∅))).

(** A job left in progress 7 minutes ago next to a queued job. *)
Definition jobStale : Job := demoJob "j1" "a.js" InProgress None 580000.
Definition jobQueued : Job := demoJob "j2" "dir/c.json" Queued None 900000.
Definition recoveryStore : gmap string Value :=
  <[jobKey "j1" := VJob jobStale]>
    (<[jobKey "j2" := VJob jobQueued]>
       (<[markerKey "g1" "j1" := VStr "queued"]>
          (<[markerKey "g1" "j2" := VStr "queued"]> ∅))).

(** A backlog of 60 queued jobs, the later ones in the table the older. *)
Definition backlogJob (n : nat) : Job :=
  demoJob ("n" +:+ pretty n) ("src/f" +:+ pretty n +:+ ".ts") Queued None
          (900000 - Z.of_nat n).
Definition backlogStore : gmap string Value :=
  foldr (fun n m => <[jobKey (id (backlogJob n)) := VJob (backlogJob n)]>
                      (<[markerKey "g1" (id (backlogJob n)) := VStr "queued"]> m))
        ∅ (seq 0 60).

(** A store that holds the latest fingerprint of the two processable files. *)
Definition fingerprintStore : gmap string Value :=
  <[metadataKey "o/r" "a.js" := VMeta {| sha := "5f2c1e" |}]>
    (<[metadataKey "o/r" "dir/c.json" := VMeta {| sha := "5f2c1e" |}]> ∅).

(** A provider that serves every file, over a file system that rejects
    every write. *)
Definition readOnlyEnv : Env :=
  {| fetch := fun url n => Ok (okResponse "export default 1" JOther);
     writeFile := fun _ _ => Throw (Error "EISDIR: illegal operation on a directory");
     uuidv4 := fun n => "id-" +:+ pretty n;
     scanOrder := fun l => l;
     scanOrder_perm := fun l => Permutation_refl l;
     generateAST := fun _ _ => "{}";
     openaiSummary := fun _ _ => Ok (Some "a summary");
     uploadAndPoll := fun _ _ => Ok tt;
     stringifySafe := fun _ => "{}";
     JSON_stringify := fun s => s |}.

(** A provider whose first two answers are failures. *)
Definition flakyEnv : Env :=
  {| fetch := fun url n => if (n <? 2)%nat then Throw (Error "ECONNRESET")
                           else Ok (okResponse "export default 1" JOther);
     writeFile := fun _ _ => Ok tt;
     uuidv4 := fun n => "id-" +:+ pretty n;
     scanOrder := fun l => l;
     scanOrder_perm := fun l => Permutation_refl l;
     generateAST := fun _ _ => "{}";
     openaiSummary := fun _ _ => Ok (Some "a summary");
     uploadAndPoll := fun _ _ => Ok tt;
     stringifySafe := fun _ => "{}";
     JSON_stringify := fun s => s |}.

(** ** Further functions of the store used to state properties *)

(** Every truthy value that the pattern of the group matches is the record
    of a completed job: what [checkGroupCompletion] asks of its listing. *)
Definition allCompletedRecords (gid : string) (m : gmap string Value) : Prop :=
  map_Forall (fun k v => String.prefix (groupPattern gid) k = true ->
                         truthy v = true -> status_of v = Some Completed) m.

#[global] Instance allCompletedRecords_dec gid m : Decision (allCompletedRecords gid m).
Proof. unfold allCompletedRecords. apply map_Forall_dec. intros k v. apply _. Defined.

(** No key of the store is matched by the pattern of the group. *)
Definition noKeyUnder (gid : string) (m : gmap string Value) : Prop :=
  map_Forall (fun k v => String.prefix (groupPattern gid) k = false) m.

#[global] Instance noKeyUnder_dec gid m : Decision (noKeyUnder gid m).
Proof. unfold noKeyUnder. apply map_Forall_dec. intros k v. apply _. Defined.

(** ** The repository as a tree *)

Definition contentsUrl (owner repo p : string) : string :=
  "https://api.github.com/repos/" +:+ owner +:+ "/" +:+ repo
  +:+ "/contents/" +:+ p.

(** A file with its path and download locator, or a directory with its path
    and what it contains. *)
#[warnings="-register-all"]
Inductive Node :=
| FileNode (p url : string)
| DirNode (p : string) (children : list Node).

Definition itemOf (n : Node) : Item :=
  match n with
  | FileNode p url => ItemFile p url
  | DirNode p _ => ItemDir p
  end.

(** The regular files under a node, depth first, in the order of the
    listings. *)
Fixpoint filesUnder (n : Node) : list FileInfo :=
  match n with
  | FileNode p url => [{| path := p; download_url := url |}]
  | DirNode _ children =>
    (fix all (ns : list Node) : list FileInfo :=
       match ns with
       | [] => []
       | c :: ns' => filesUnder c ++ all ns'
       end) children
  end.

(** The number of nested directory levels of a node. *)
Fixpoint levels (n : Node) : nat :=
  match n with
  | FileNode _ _ => O
  | DirNode _ children =>
    S ((fix most (ns : list Node) : nat :=
          match ns with
          | [] => O
          | c :: ns' => Nat.max (levels c) (most ns')
          end) children)
  end.

(** The number of directories of a node, itself included. *)
Fixpoint directories (n : Node) : nat :=
  match n with
  | FileNode _ _ => O
  | DirNode _ children =>
    S ((fix sum (ns : list Node) : nat :=
          match ns with
          | [] => O
          | c :: ns' => (directories c + sum ns')%nat
          end) children)
  end.

(** The provider answers every request for the contents of a directory of
    the node with the listing of its children. *)
Fixpoint serves (E : Env) (owner repo : string) (n : Node) : Prop :=
  match n with
  | FileNode _ _ => True
  | DirNode p children =>
    (forall k, exists r, fetch E (contentsUrl owner repo p) k = Ok r
                         /\ ok r = true
                         /\ json r = Ok (JListing (map itemOf children)))
    /\ (fix all (ns : list Node) : Prop :=
          match ns with
          | [] => True
          | c :: ns' => serves E owner repo c /\ all ns'
          end) children
  end.

(** The repository that [repoFetch] serves. *)
Definition demoTree : Node :=
  DirNode "" [FileNode "a.js" "https://raw.example/o/r/a.js";
              FileNode "b.png" "https://raw.example/o/r/b.png";
              DirNode "dir" [FileNode "dir/c.json"
                               "https://raw.example/o/r/dir/c.json"]].

(** The characters that the store's MATCH does not read literally, and the
    strings without any of them, as a uuid is. *)
Definition isGlobChar (c : ascii) : bool :=
  Ascii.eqb c "*" || Ascii.eqb c "?" || Ascii.eqb c "[" || Ascii.eqb c "]"
  || Ascii.eqb c "\".

Definition globFree (s : string) : bool :=
  forallb (fun c => negb (isGlobChar c)) (list_ascii_of_string s).

(** The group id of every job record of the store has no glob character. *)
Definition plainGroups (m : gmap string Value) : Prop :=
  map_Forall (fun k v => match v with
                         | VJob j => globFree (groupId j) = true
                         | _ => True
                         end) m.

#[global] Instance plainGroups_dec m : Decision (plainGroups m).
Proof. unfold plainGroups. apply map_Forall_dec. intros k [j| | |]; apply _. Defined.

(** A computation that only reads: it leaves the store, the disk, the clock
    and the uuid generator as they are. *)
Definition readsOnly {A} (m : M A) : Prop :=
  forall w, match m w with
            | Ret _ w' | Raise _ w' =>
                kv w' = kv w /\ disk w' = disk w /\ now w' = now w
                /\ uuids w' = uuids w /\ (requests w <= requests w')%nat
            | OutOfFuel => True
            end.

Definition isDirItem (i : Item) : bool :=
  match i with ItemDir _ => true | _ => false end.

(** A provider that lists the root of o/r but answers 404 for the directory
    it names. *)
Definition brokenFetch (url : string) (n : nat) : Outcome Response :=
  if String.eqb url "https://api.github.com/repos/o/r/contents/"
  then Ok (okResponse "" (JListing [ItemFile "a.js" "https://raw.example/o/r/a.js";
                                    ItemDir "dir";
                                    ItemFile "z.ts" "https://raw.example/o/r/z.ts"]))
  else Ok {| ok := false; statusText := "Not Found"; text := Ok "";
             arrayBuffer := Ok ""; json := Ok JOther |}.

Definition brokenEnv : Env :=
  {| fetch := brokenFetch;
     writeFile := fun _ _ => Ok tt;
     uuidv4 := fun n => "id-" +:+ pretty n;
     scanOrder := fun l => l;
     scanOrder_perm := fun l => Permutation_refl l;
     generateAST := fun _ _ => "{}";
     openaiSummary := fun _ _ => Ok (Some "a summary");
     uploadAndPoll := fun _ _ => Ok tt;
     stringifySafe := fun _ => "{}";
     JSON_stringify := fun s => s |}.

(** The request for the contents of a directory fails: it is rejected, or
    answered with a status that is not a success. *)
Definition listingFails (E : Env) (owner repo p : string) (n : nat) : Prop :=
  match fetch E (contentsUrl owner repo p) n with
  | Throw _ => True
  | Ok r => ok r = false
  end.

(** ** Shapes of file names *)

Definition plainChar (c : ascii) : bool := negb (isSlash c) && negb (isDot c).

(** Neither a slash nor a dot occurs in the string. *)
Fixpoint plainName (s : string) : bool :=
  match s with
  | EmptyString => true
  | String c s' => plainChar c && plainName s'
  end.

(** No dot occurs in the string. *)
Fixpoint noDot (s : string) : bool :=
  match s with
  | EmptyString => true
  | String c s' => negb (isDot c) && noDot s'
  end.

Definition scanStart : ExtState :=
  {| startDot := -1; startPart := 0; endPos := -1; matchedSlash := true;
     preDotState := 0 |}.

(** ** The queue route *)

(** The handler of the enqueue request, for a request whose body has been
    read; [owner] and [repo] are the fields of the body. It answers with the
    HTTP status and, on success, with the group id. *)
Definition POST (E : Env) (fuel : nat) (owner repo : string)
  : M (Z * option string) :=
  tryCatch (r <- queueGroupedJobs E fuel owner repo ;; ret (200, Some (fst r)))
           (fun error => ret (500, None)).

(** The provider answers a request by its target alone, whenever it is
    sent: the repository does not change during the runs. *)
Definition steady (E : Env) : Prop :=
  forall url n m, fetch E url n = fetch E url m.

(** The fingerprint of the latest commit of a path. *)
Definition latestSha (E : Env) (repoKey p : string) : option string :=
  sha <$> latestCommit E repoKey p 0.

(** The file is not media: the filter of the Enqueuer keeps it. *)
Definition processable (f : FileInfo) : Prop :=
  String.eqb (getFileType (path f)) "Media" = false.

(** What a run has returned or thrown, without the state it leaves. *)
Definition answer {A} (r : Res A) : option (A + Exn) :=
  match r with
  | Ret a _ => Some (inl a)
  | Raise e _ => Some (inr e)
  | OutOfFuel => None
  end.

Definition noSlash (s : string) : bool :=
  forallb (fun c => negb (isSlash c)) (list_ascii_of_string s).

(** The answer of a computation does not depend on the state it starts in. *)
Definition sameAnswer {A} (m : M A) : Prop :=
  forall w w2, answer (m w) = answer (m w2).

(** A provider that lists a.js and z.ts, knows the commits of a.js, and
    rejects the request for the commits of z.ts. *)
Definition halfFetch (url : string) (n : nat) : Outcome Response :=
  if String.eqb url "https://api.github.com/repos/o/r/contents/"
  then Ok (okResponse "" (JListing [ItemFile "a.js" "https://raw.example/o/r/a.js";
                                    ItemFile "z.ts" "https://raw.example/o/r/z.ts"]))
  else if String.eqb url "https://api.github.com/repos/o/r/commits?path=a.js"
  then Ok (okResponse "" (JCommits [{| sha := "5f2c1e" |}]))
  else Throw (Error "fetch failed").

Definition halfEnv : Env :=
  {| fetch := halfFetch;
     writeFile := fun _ _ => Ok tt;
     uuidv4 := fun n => "id-" +:+ pretty n;
     scanOrder := fun l => l;
     scanOrder_perm := fun l => Permutation_refl l;
     generateAST := fun _ _ => "{}";
     openaiSummary := fun _ _ => Ok (Some "a summary");
     uploadAndPoll := fun _ _ => Ok tt;
     stringifySafe := fun _ => "{}";
     JSON_stringify := fun s => s |}.

(** ** The chat route's reading of an artifact file name *)

(** [s.replaceAll(/pat/g, rep)] for a pattern of plain characters: the
    matches are taken from the left and do not overlap; [skip] counts the
    characters of the current match that are still to pass. *)
Fixpoint replaceAllFrom (pat rep : string) (skip : nat) (s : string) : string :=
  match s with
  | EmptyString => EmptyString
  | String c s' =>
    match skip with
    | S n => replaceAllFrom pat rep n s'
    | O => if String.prefix pat s
           then rep +:+ replaceAllFrom pat rep (String.length pat - 1) s'
           else String c (replaceAllFrom pat rep 0 s')
    end
  end.

Definition replaceAll (pat rep s : string) : string := replaceAllFrom pat rep 0 s.

(** [s.replace(/suffix$/, "")] for a suffix of plain characters. *)
Fixpoint removeAtEnd (suffix s : string) : string :=
  match s with
  | EmptyString => EmptyString
  | String c s' =>
    if String.eqb s suffix then EmptyString else String c (removeAtEnd suffix s')
  end.

(** The result of [parseReplyProjectURL], from [file?.filename] as [getFile]
    has answered it. *)
Definition parseReplyProjectURL (filename : option string) : string :=
  "https://github.com/"
  +:+ match filename with
      | Some f => replaceAll "ZzDasHzZ" "_"
                    (removeAtEnd "-asts.json" (replaceUnderscores "/" f))
      | None => "vercel/vercel/tree/main/examples/nextjs"
      end.

Definition noCapitalZ (s : string) : bool :=
  forallb (fun c => negb (Ascii.eqb c "Z")) (list_ascii_of_string s).

(** The flaky provider with a model that has nothing to say about a file. *)
Definition silentEnv : Env :=
  {| fetch := fetch flakyEnv;
     writeFile := fun _ _ => Ok tt;
     uuidv4 := uuidv4 flakyEnv;
     scanOrder := fun l => l;
     scanOrder_perm := fun l => Permutation_refl l;
     generateAST := fun _ _ => "{}";
     openaiSummary := fun _ _ => Ok None;
     uploadAndPoll := fun _ _ => Ok tt;
     stringifySafe := fun _ => "{}";
     JSON_stringify := fun s => s |}.

(** ** The tree of a file

    [generateAST] with its parsers: the external parsers are unknown
    functions that may throw; [parseJSON] and [deriveSchema] are the
    program's own. *)
Module Tree.

(** A parsed JSON value; an object holds its fields in the order in which
    [for ... in] visits them. *)
#[warnings="-register-all"]
Inductive JsonValue :=
| JNull
| JBool (b : bool)
| JNumber (n : Z)
| JString (s : string)
| JArray (items : list JsonValue)
| JObject (fields : list (string * JsonValue)).

(** The schema that [deriveSchema] builds: per key the [type], and the
    [properties] when the value is a plain object. *)
#[warnings="-register-all"]
Inductive Schema :=
| SchemaOf (entries : list (string * (string * option Schema))).

Definition getType (value : JsonValue) : string :=
  match value with
  | JArray _ => "array"
  | JNull => "null"
  | JBool _ => "boolean"
  | JNumber _ => "number"
  | JString _ => "string"
  | JObject _ => "object"
  end.

(** [for (const key in jsonObject)]: the keys of an object, the indices of an
    array or of a string, and nothing for the other values. *)
Fixpoint deriveSchema (jsonObject : JsonValue) : Schema :=
  match jsonObject with
  | JObject fields =>
    SchemaOf ((fix each (l : list (string * JsonValue)) :=
                 match l with
                 | [] => []
                 | (key, value) :: l' =>
                   (key, (getType value,
                          match value with
                          | JObject _ => Some (deriveSchema value)
                          | _ => None
                          end)) :: each l'
                 end) fields)
  | JArray items =>
    SchemaOf ((fix each (i : nat) (l : list JsonValue) :=
                 match l with
                 | [] => []
                 | value :: l' =>
                   (pretty i, (getType value,
                               match value with
                               | JObject _ => Some (deriveSchema value)
                               | _ => None
                               end)) :: each (S i) l'
                 end) O items)
  | JString s =>
    SchemaOf (imap (fun i (_ : ascii) => (pretty i, ("string", None)))
                   (list_ascii_of_string s))
  | _ => SchemaOf []
  end.

Inductive Ast :=
| AstExternal (tree : string)        (* what an external parser returned *)
| AstSchema (properties : Schema)    (* { type: "object", properties } *)
| AstEmpty.                          (* {} *)

Record Parsers := {
  JSON_parse : string -> Outcome JsonValue;
  babel_parseAsync : string -> string -> Outcome string;
  htmlparser2_parseDocument : string -> Outcome string;
  postcss_parse : string -> Outcome string;
  marked : string -> Outcome string
}.

(** [parseJSON(file, code = "{}")]; an error of [JSON.parse] is thrown on. *)
Definition parseJSON (P : Parsers) (file : string) (code : option string)
  : Outcome Ast :=
  match JSON_parse P (default "{}" code) with
  | Ok parsed => Ok (AstSchema (deriveSchema parsed))
  | Throw error => Throw error
  end.

Definition external (r : Outcome string) : Outcome Ast :=
  match r with Ok t => Ok (AstExternal t) | Throw e => Throw e end.

(** The [case "JSON"] calls [parseJSON(content)]: the content is the [file]
    argument, and [code] is left to its default. *)
Definition generateAST (P : Parsers) (file content : string) : Ast :=
  let fileType := getFileType file in
  let attempt : Outcome Ast :=
    if String.eqb fileType "JavaScript/TypeScript"
    then external (babel_parseAsync P content file)
    else if String.eqb fileType "JSON" then parseJSON P content None
    else if String.eqb fileType "HTML"
    then external (htmlparser2_parseDocument P content)
    else if String.eqb fileType "CSS" then external (postcss_parse P content)
    else if String.eqb fileType "Markdown"
    then match marked P content with
         | Ok htmlFromMarkdown => external (htmlparser2_parseDocument P htmlFromMarkdown)
         | Throw e => Throw e
         end
    else Ok AstEmpty in
  match attempt with
  | Ok result => result
  | Throw error => AstEmpty
  end.

(** Parsers of which only [JSON.parse] of the text of the empty object is
    known. *)
Definition demoParsers : Parsers :=
  {| JSON_parse := fun s => if String.eqb s "{}" then Ok (JObject [])
                            else Throw (Error "Unexpected token");
     babel_parseAsync := fun _ _ => Throw (Error "no parser");
     htmlparser2_parseDocument := fun _ => Throw (Error "no parser");
     postcss_parse := fun _ => Throw (Error "no parser");
     marked := fun _ => Throw (Error "no parser") |}.

End Tree.
(** * Properties *)

(** ** The monad and the listing of the store *)

Lemma mapM_pure {A B} (f : A -> M B) (g : World -> A -> B) (l : list A) (w : World) :
  (forall x, f x w = Ret (g w x) w) ->
  mapM f l w = Ret (map (g w) l) w.
Proof.
  intros Hf. induction l as [|x l IH]; [reflexivity|].
  cbn [mapM map]. unfold bind. rewrite Hf, IH. reflexivity.
Qed.

Lemma omap_cons {A B} (f : A -> option B) (x : A) (l : list A) :
  omap f (x :: l) = match f x with Some y => y :: omap f l | None => omap f l end.
Proof. reflexivity. Qed.

Lemma prefix_app (p s : string) : String.prefix p (p +:+ s) = true.
Proof.
  induction p as [|c p IH].
  - destruct s; reflexivity.
  - change (String c p +:+ s) with (String c (p +:+ s)). cbn.
    destruct (ascii_dec c c); [exact IH|congruence].
Qed.

Lemma prefix_trans_app (p q k : string) :
  String.prefix (p +:+ q) k = true -> String.prefix p k = true.
Proof.
  revert k. induction p as [|c p IH]; intros k.
  - destruct k; reflexivity.
  - change (String c p +:+ q) with (String c (p +:+ q)).
    destruct k as [|d k]; cbn; [discriminate|].
    destruct (ascii_dec c d); [apply IH|discriminate].
Qed.

Lemma append_assoc (a b c : string) : (a +:+ b) +:+ c = a +:+ b +:+ c.
Proof.
  induction a as [|x a IH]; [reflexivity|].
  change ((String x a +:+ b) +:+ c) with (String x ((a +:+ b) +:+ c)).
  rewrite IH. reflexivity.
Qed.

Lemma sortInsert_perm cmp x l : sortInsert cmp x l ≡ₚ x :: l.
Proof.
  induction l as [|y l IH]; cbn; [reflexivity|].
  destruct (cmp x y <=? 0); [reflexivity|].
  rewrite IH. apply Permutation_swap.
Qed.

Lemma jsSort_perm cmp l : jsSort cmp l ≡ₚ l.
Proof.
  induction l as [|x l IH]; cbn; [reflexivity|].
  fold (jsSort cmp l). rewrite sortInsert_perm, IH. reflexivity.
Qed.

Lemma getJobs_eq E pre w : getJobs E pre w = Ret (listJobs E pre (kv w)) w.
Proof.
  unfold getJobs, bind, kv_scan.
  rewrite (mapM_pure _ (fun w key => default VEmpty (kv w !! key))).
  - reflexivity.
  - intros k. reflexivity.
Qed.

Lemma listJobs_elem E pre m v :
  v ∈ listJobs E pre m <->
  exists k, String.prefix pre k = true /\ m !! k = Some v /\ truthy v = true.
Proof.
  unfold listJobs. rewrite jsSort_perm, list_elem_of_filter, list_elem_of_fmap.
  split.
  - intros [Ht (k & -> & Hk)]. rewrite scanOrder_perm in Hk.
    apply list_elem_of_filter in Hk as [Hp Hd].
    apply elem_of_elements, elem_of_dom in Hd as [v Hv].
    exists k. rewrite Hv in *. auto.
  - intros (k & Hp & Hk & Ht). split; [exact Ht|].
    exists k. rewrite Hk. split; [reflexivity|].
    rewrite scanOrder_perm. apply list_elem_of_filter. split; [exact Hp|].
    apply elem_of_elements, elem_of_dom. eauto.
Qed.

(** ** The retry-fetch primitives *)

Lemma fetchFileAttempt_eq E url w :
  fetchFileAttempt E url w =
  let w' := addEvent (EvFetch url) (setRequests (S (requests w)) w) in
  match attemptText E url (requests w) with
  | Some t => Ret t w'
  | None =>
    Raise (match fetch E url (requests w) with
           | Throw e => e
           | Ok r => if ok r
                     then match text r with Throw e => e | Ok _ => Error "" end
                     else Error ("Failed to fetch file: " +:+ statusText r)
           end) w'
  end.
Proof.
  unfold fetchFileAttempt, attemptText, bind, js_fetch.
  destruct (fetch E url (requests w)) as [r|e]; [|reflexivity].
  destruct (ok r); cbn; [|reflexivity].
  destruct (text r); reflexivity.
Qed.

Lemma downloadFileAttempt_eq E url filePath w :
  downloadFileAttempt E url filePath w =
  let w' := addEvent (EvFetch url) (setRequests (S (requests w)) w) in
  match attemptBytes E url filePath (requests w) with
  | Some b => Ret tt (setDisk (insert filePath b) w')
  | None =>
    Raise (match fetch E url (requests w) with
           | Throw e => e
           | Ok r => if ok r
                     then match arrayBuffer r with
                          | Throw e => e
                          | Ok _ => match writeFile E filePath (S (requests w)) with
                                    | Throw e => e
                                    | Ok _ => Error ""
                                    end
                          end
                     else Error ("Failed to fetch file: " +:+ statusText r)
           end) w'
  end.
Proof.
  unfold downloadFileAttempt, attemptBytes, bind, js_fetch.
  destruct (fetch E url (requests w)) as [r|e]; [|reflexivity].
  destruct (ok r); cbn; [|reflexivity].
  destruct (arrayBuffer r) as [b|e]; [|reflexivity].
  unfold lift, ret, fs_writeFile. cbn [requests addEvent setRequests].
  destruct (writeFile E filePath (S (requests w))); reflexivity.
Qed.


Lemma failsFirst_S outcome n k :
  failsFirst outcome n (S k) ->
  outcome n = None /\ failsFirst outcome (S n) k.
Proof.
  intros H. split.
  - specialize (H O). rewrite Nat.add_0_r in H. apply H. lia.
  - intros i Hi. specialize (H (S i)). rewrite Nat.add_succ_r in H.
    apply H. lia.
Qed.

Lemma fetchFileLoop_success E url : forall k remaining attempt w t,
  (k < remaining)%nat -> attempt + Z.of_nat remaining = 6 ->
  failsFirst (attemptText E url) (requests w) k ->
  attemptText E url (requests w + k)%nat = Some t ->
  exists w', fetchFileLoop E remaining attempt url w = Ret t w'
    /\ kv w' = kv w /\ disk w' = disk w
    /\ requests w' = (requests w + k + 1)%nat
    /\ trace w' = trace w ++ retryTrace url attempt k ++ [EvFetch url].
Proof.
  induction k as [|k IH]; intros remaining attempt w t Hk Ha Hf Hs.
  - destruct remaining as [|r]; [lia|]. cbn [fetchFileLoop].
    replace (attempt <=? 5) with true by lia.
    unfold tryCatch. rewrite fetchFileAttempt_eq.
    rewrite Nat.add_0_r in Hs. rewrite Hs. cbn.
    eexists. split; [reflexivity|]. cbn. repeat split; lia.
  - destruct remaining as [|r]; [lia|]. cbn [fetchFileLoop].
    replace (attempt <=? 5) with true by lia.
    apply failsFirst_S in Hf as [H0 Hf].
    unfold tryCatch. rewrite fetchFileAttempt_eq, H0. cbn zeta.
    replace (attempt =? 5) with false by lia.
    unfold bind at 1. unfold sleep at 1.
    edestruct (IH r (attempt + 1)) as (w' & -> & Hkv & Hd & Hr & Ht);
      [lia|lia| | |].
    + cbn. exact Hf.
    + cbn. rewrite <- Hs. f_equal. lia.
    + exists w'. split; [reflexivity|]. rewrite Hkv, Hd, Hr, Ht. cbn.
      repeat split; [lia|]. rewrite <- !app_assoc. reflexivity.
Qed.

Lemma fetchFileLoop_exhausted E url : forall remaining attempt w,
  (0 < remaining)%nat -> attempt + Z.of_nat remaining = 6 ->
  failsFirst (attemptText E url) (requests w) remaining ->
  exists w', fetchFileLoop E remaining attempt url w
             = Raise (Error ("Failed to fetch file after 5 attempts: " +:+ url)) w'
    /\ kv w' = kv w /\ disk w' = disk w
    /\ requests w' = (requests w + remaining)%nat
    /\ trace w' = trace w ++ retryTrace url attempt (remaining - 1) ++ [EvFetch url].
Proof.
  induction remaining as [|r IH]; intros attempt w Hr Ha Hf; [lia|].
  cbn [fetchFileLoop]. replace (attempt <=? 5) with true by lia.
  apply failsFirst_S in Hf as [H0 Hf].
  unfold tryCatch. rewrite fetchFileAttempt_eq, H0. cbn zeta.
  destruct r as [|r].
  - replace (attempt =? 5) with true by lia. eexists. split; [reflexivity|].
    cbn. repeat split; lia.
  - replace (attempt =? 5) with false by lia.
    unfold bind at 1. unfold sleep at 1.
    edestruct (IH (attempt + 1)) as (w' & -> & Hkv & Hd & Hq & Ht); [lia|lia| |].
    + cbn. exact Hf.
    + exists w'. split; [reflexivity|]. rewrite Hkv, Hd, Hq, Ht. cbn.
      repeat split; [lia|]. rewrite Nat.sub_0_r, <- !app_assoc. reflexivity.
Qed.






(** ** The group barrier *)

Lemma groupPattern_marker gid jobId :
  String.prefix (groupPattern gid) (markerKey gid jobId) = true.
Proof.
  unfold groupPattern, markerKey.
  replace ("group:" +:+ gid +:+ ":" +:+ jobId)
    with (("group:" +:+ gid +:+ ":") +:+ jobId).
  - apply prefix_app.
  - rewrite !append_assoc. reflexivity.
Qed.

Lemma checkGroupCompletion_eq E gid w :
  checkGroupCompletion E gid w
  = Ret (forallb (fun v => bool_decide (status_of v = Some Completed))
           (listJobs E (groupPattern gid) (kv w))) w.
Proof. unfold checkGroupCompletion, bind. rewrite getJobs_eq. reflexivity. Qed.

(** A value of the group's key space that is no completed job record, a
    marker string for one, makes the check answer false. *)
Lemma checkGroupCompletion_false E gid w k v :
  String.prefix (groupPattern gid) k = true ->
  kv w !! k = Some v -> truthy v = true -> status_of v <> Some Completed ->
  checkGroupCompletion E gid w = Ret false w.
Proof.
  intros Hp Hk Ht Hs. rewrite checkGroupCompletion_eq. f_equal.
  apply not_true_is_false. intros Hall.
  rewrite forallb_forall in Hall.
  specialize (Hall v). apply bool_decide_eq_true in Hall; [contradiction|].
  apply list_elem_of_In, listJobs_elem. eauto.
Qed.

Lemma processJob_eq E job w :
  processJob E job w
  = Ret tt (setKv (storeAfterJob job (now w)) (addEvent (EvProcessJob job) w)).
Proof.
  unfold processJob, processJobBody, blockBind, update, call, readObject,
    saveJobWithStatus, processFile, spawn, tryCatch, bind, emit, Date_now,
    kv_set, ret.
  cbn -[checkGroupCompletion finalizeGroup insert].
  erewrite checkGroupCompletion_false with (k := markerKey (groupId job) (id job)).
  - reflexivity.
  - apply groupPattern_marker.
  - cbn. apply lookup_insert_eq.
  - reflexivity.
  - discriminate.
Qed.

(** ** Executing jobs *)

Lemma jobKey_not_group (jobId k : string) :
  String.prefix "group:" k = true -> k <> jobKey jobId.
Proof. intros Hp ->. discriminate Hp. Qed.

Lemma groupPattern_group gid k :
  String.prefix (groupPattern gid) k = true -> String.prefix "group:" k = true.
Proof. unfold groupPattern. apply prefix_trans_app. Qed.

Lemma markerKey_group gid jobId : String.prefix "group:" (markerKey gid jobId) = true.
Proof. apply (groupPattern_group gid), groupPattern_marker. Qed.

Lemma markerKey_not_jobKey gid jobId jobId' : markerKey gid jobId <> jobKey jobId'.
Proof. apply jobKey_not_group, markerKey_group. Qed.

Lemma jobKey_inj a b : jobKey a = jobKey b -> a = b.
Proof. unfold jobKey. apply (inj (String.app "job:")). Qed.

Lemma storeAfterJob_job job t m :
  storeAfterJob job t m !! jobKey (id job) = Some (VJob (completedJob job t)).
Proof.
  unfold storeAfterJob.
  rewrite lookup_insert_ne by apply markerKey_not_jobKey.
  apply lookup_insert_eq.
Qed.

Lemma storeAfterJob_marker job t m :
  storeAfterJob job t m !! markerKey (groupId job) (id job) = Some (VStr "completed").
Proof. unfold storeAfterJob. apply lookup_insert_eq. Qed.

Lemma storeAfterJob_other job t m k :
  k <> jobKey (id job) -> k <> markerKey (groupId job) (id job) ->
  storeAfterJob job t m !! k = m !! k.
Proof.
  intros H1 H2. unfold storeAfterJob.
  rewrite !lookup_insert_ne by congruence. reflexivity.
Qed.

(** C7 (the code departs from the claim). [processFile] starts the content
    generation without awaiting it, so a generation that throws does not
    reach the [catch] of [processJob]: whatever the generation does, and
    also when it throws in every state, the execution returns normally with
    the job record written as completed, its result the text of a pending
    promise, and the membership marker set to completed, not failed. *)
Theorem processJob_generation_failure_recorded_completed
  (E : Env) (job : Job) (w : World) :
  (forall w1, exists e w2, fileInfoToAstData E (file job) w1 = Raise e w2) ->
  exists w',
    processJob E job w = Ret tt w'
    /\ kv w' !! jobKey (id job) = Some (VJob (completedJob job (now w)))
    /\ status (completedJob job (now w)) = Completed
    /\ result (completedJob job (now w)) = Some "{}"
    /\ kv w' !! markerKey (groupId job) (id job) = Some (VStr "completed").
Proof.
  intros _. eexists. split; [apply processJob_eq|]. cbn [kv setKv addEvent].
  split; [apply storeAfterJob_job|].
  split; [reflexivity|]. split; [reflexivity|]. apply storeAfterJob_marker.
Qed.

(** What the [catch] of [processJob] does when it is reached. *)
Lemma handleJobFailure_eq job w :
  handleJobFailure job w
  = Ret tt (setKv (fun m => <[markerKey (groupId job) (id job) := VStr "failed"]>
                              (<[jobKey (id job) := VJob (withStatus job Failed (now w))]> m)) w).
Proof. reflexivity. Qed.

Lemma processJobs_run E : forall jobs w,
  exists w',
    mapM (processJob E) jobs w = Ret (map (fun _ => tt) jobs) w'
    /\ kv w' = storeAfterJobs (now w) jobs (kv w)
    /\ trace w' = trace w ++ map EvProcessJob jobs
    /\ now w' = now w /\ disk w' = disk w /\ requests w' = requests w
    /\ uuids w' = uuids w.
Proof.
  induction jobs as [|job jobs IH]; intros w.
  - exists w. cbn. rewrite app_nil_r. auto 10.
  - cbn [mapM]. unfold bind at 1. rewrite processJob_eq.
    destruct (IH (setKv (storeAfterJob job (now w)) (addEvent (EvProcessJob job) w)))
      as (w' & Hrun & Hkv & Htr & Hnow & Hd & Hr & Hu).
    exists w'. unfold bind. rewrite Hrun. cbn in *.
    rewrite Hkv, Htr, <- app_assoc. auto 10.
Qed.

Lemma storeAfterJobs_other t : forall jobs m k,
  (forall job, job ∈ jobs ->
     k <> jobKey (id job) /\ k <> markerKey (groupId job) (id job)) ->
  storeAfterJobs t jobs m !! k = m !! k.
Proof.
  induction jobs as [|job jobs IH]; intros m k Hk; [reflexivity|].
  cbn. fold (storeAfterJobs t jobs (storeAfterJob job t m)).
  rewrite IH.
  - destruct (Hk job) as [H1 H2]; [left|]. apply storeAfterJob_other; assumption.
  - intros j Hj. apply Hk. right. exact Hj.
Qed.

(** ** The scheduling pass *)

Lemma filterForStaleJobs_eq jobs staleTime w :
  filterForStaleJobs jobs staleTime w
  = Ret (filter (fun j => (now w - updatedAt j >? staleTime) = true) jobs) w.
Proof.
  unfold filterForStaleJobs, bind.
  rewrite (mapM_pure _ (fun w job => now w - updatedAt job >? staleTime))
    by reflexivity.
  unfold ret. f_equal.
  induction jobs as [|j jobs IH]; [reflexivity|].
  cbn [map zip zip_with]. destruct (now w - updatedAt j >? staleTime) eqn:Hc.
  - rewrite filter_cons_True by reflexivity.
    rewrite (filter_cons_True (fun j0 => (now w - updatedAt j0 >? staleTime) = true))
      by exact Hc.
    cbn. f_equal. exact IH.
  - rewrite filter_cons_False by (cbn; discriminate).
    rewrite (filter_cons_False (fun j0 => (now w - updatedAt j0 >? staleTime) = true))
      by congruence.
    exact IH.
Qed.

Lemma take_min_length {A} (l : list A) (n : nat) :
  take (Nat.min (length l) n) l = take n l.
Proof.
  destruct (Nat.le_ge_cases (length l) n) as [H|H].
  - rewrite Nat.min_l by exact H. rewrite !take_ge by lia. reflexivity.
  - rewrite Nat.min_r by exact H. reflexivity.
Qed.

Lemma processJobs_eq E jobs w :
  exists w',
    processJobs E jobs 50 w = Ret tt w'
    /\ kv w' = storeAfterJobs (now w) (take 50 jobs) (kv w)
    /\ trace w' = trace w ++ map EvProcessJob (take 50 jobs)
    /\ now w' = now w.
Proof.
  unfold processJobs. rewrite take_min_length.
  destruct (processJobs_run E (take 50 jobs) w) as (w' & Hrun & Hkv & Htr & Hn & _).
  exists w'. unfold bind. rewrite Hrun. auto.
Qed.

(** One pass, as a whole: it answers 200 after executing the first 50 of
    the eligible jobs. *)
Lemma GET_eq E w :
  exists w',
    GET E true w = Ret 200 w'
    /\ kv w' = storeAfterJobs (now w) (take 50 (eligibleJobs E (now w) (kv w))) (kv w)
    /\ trace w' = trace w ++ map EvProcessJob (take 50 (eligibleJobs E (now w) (kv w)))
    /\ now w' = now w.
Proof.
  unfold GET. cbn [negb]. unfold tryCatch, bind at 1. rewrite getJobs_eq.
  unfold bind at 1. rewrite filterForStaleJobs_eq.
  unfold eligibleJobs, staleJobs, queuedJobs.
  set (stale := filter _ (jobsWithStatus InProgress _)).
  destruct stale as [|s stale'] eqn:Hs.
  - cbn [length Nat.ltb Nat.leb].
    set (queued := jobsWithStatus Queued _).
    destruct queued as [|q queued'] eqn:Hq.
    + cbn. exists w. rewrite app_nil_r. auto.
    + cbn [length Nat.ltb Nat.leb].
      destruct (processJobs_eq E (q :: queued') w) as (w' & Hrun & H).
      exists w'. unfold bind. rewrite Hrun. auto.
  - cbn [length Nat.ltb Nat.leb].
    destruct (processJobs_eq E (s :: stale') w) as (w' & Hrun & H).
    exists w'. unfold bind. rewrite Hrun. auto.
Qed.

Lemma jobsWithStatus_elem s vals j :
  j ∈ jobsWithStatus s vals <-> VJob j ∈ vals /\ status j = s.
Proof.
  unfold jobsWithStatus. rewrite list_elem_of_omap. split.
  - intros (v & Hv & Hf). destruct v as [j'| | |]; try discriminate.
    destruct (decide (status j' = s)); [|discriminate].
    injection Hf as ->. auto.
  - intros [Hv Hs]. exists (VJob j). split; [exact Hv|].
    rewrite decide_True by exact Hs. reflexivity.
Qed.

Lemma listed_job_stored E m s j :
  j ∈ jobsWithStatus s (listJobs E jobPattern m) <->
  status j = s /\ exists k, String.prefix jobPattern k = true /\ m !! k = Some (VJob j).
Proof.
  rewrite jobsWithStatus_elem, listJobs_elem. split.
  - intros [(k & Hp & Hk & _) Hs]. eauto.
  - intros [Hs (k & Hp & Hk)]. split; [|exact Hs]. exists k. auto.
Qed.

Lemma wfStore_key m k j : wfStore m -> m !! k = Some (VJob j) -> k = jobKey (id j).
Proof. intros Hwf Hk. exact (Hwf k (VJob j) Hk). Qed.

Lemma eligible_stored E t m j :
  wfStore m -> j ∈ eligibleJobs E t m -> m !! jobKey (id j) = Some (VJob j).
Proof.
  intros Hwf. unfold eligibleJobs, staleJobs, queuedJobs.
  set (l := jobsWithStatus InProgress _).
  intros Hj.
  assert (exists s, j ∈ jobsWithStatus s (listJobs E jobPattern m)) as [s Hs].
  { destruct (filter _ l) eqn:Hf.
    - eauto.
    - rewrite <- Hf in Hj. apply list_elem_of_filter in Hj as [_ Hj]. eauto. }
  apply listed_job_stored in Hs as (_ & k & _ & Hk).
  rewrite <- (wfStore_key m k j Hwf Hk). exact Hk.
Qed.

Lemma eligible_cases E t m :
  (staleJobs E t m = [] /\ eligibleJobs E t m = queuedJobs E m)
  \/ (staleJobs E t m <> [] /\ eligibleJobs E t m = staleJobs E t m).
Proof.
  unfold eligibleJobs. destruct (staleJobs E t m); [left|right]; auto.
Qed.

Lemma staleJobs_elem E t m j :
  j ∈ staleJobs E t m <->
  status j = InProgress /\ t - updatedAt j > 60000 * 6
  /\ exists k, String.prefix jobPattern k = true /\ m !! k = Some (VJob j).
Proof.
  unfold staleJobs. rewrite list_elem_of_filter, listed_job_stored.
  rewrite Z.gtb_gt. tauto.
Qed.

Lemma take_elem {A} (n : nat) (l : list A) (x : A) : x ∈ take n l -> x ∈ l.
Proof. apply subseteq_take. Qed.

Lemma drop_elem {A} (n : nat) (l : list A) (x : A) : x ∈ drop n l -> x ∈ l.
Proof. apply subseteq_drop. Qed.

Lemma executed_processJobs jobs : executed (map EvProcessJob jobs) = jobs.
Proof.
  induction jobs as [|j jobs IH]; [reflexivity|].
  unfold executed in *. cbn [map]. rewrite omap_cons, IH. reflexivity.
Qed.

(** A stored job record that the batch does not contain is not written. *)
Lemma batch_leaves_record t m batch q :
  wfStore m ->
  (forall j, j ∈ batch -> m !! jobKey (id j) = Some (VJob j)) ->
  m !! jobKey (id q) = Some (VJob q) -> q ∉ batch ->
  storeAfterJobs t batch m !! jobKey (id q) = Some (VJob q).
Proof.
  intros Hwf Hb Hq Hnot. rewrite storeAfterJobs_other; [exact Hq|].
  intros j Hj. split.
  - intros Heq. rewrite Heq in Hq. rewrite (Hb j Hj) in Hq.
    injection Hq as ->. contradiction.
  - intros Heq. symmetry in Heq. exact (markerKey_not_jobKey _ _ _ Heq).
Qed.

Lemma hasColon_app_colon p i : hasColon (p +:+ ":" +:+ i) = true.
Proof.
  induction p as [|c p IH]; [reflexivity|].
  change (String c p +:+ ":" +:+ i) with (String c (p +:+ ":" +:+ i)).
  cbn [hasColon]. rewrite IH. apply orb_true_r.
Qed.

Lemma afterLastColon_app p i :
  hasColon i = false -> afterLastColon (p +:+ ":" +:+ i) = i.
Proof.
  intros Hi. induction p as [|c p IH].
  - change ("" +:+ ":" +:+ i) with (String ":" i). cbn [afterLastColon].
    rewrite Hi. reflexivity.
  - change (String c p +:+ ":" +:+ i) with (String c (p +:+ ":" +:+ i)).
    cbn [afterLastColon]. rewrite hasColon_app_colon. exact IH.
Qed.

Lemma markerKey_id gid jobId :
  hasColon jobId = false -> afterLastColon (markerKey gid jobId) = jobId.
Proof.
  intros H. unfold markerKey. rewrite <- append_assoc. apply afterLastColon_app, H.
Qed.

(** Nor is the marker of a stored job that the batch does not contain. *)
Lemma batch_leaves_marker t m batch q :
  (forall j, j ∈ batch -> m !! jobKey (id j) = Some (VJob j)) ->
  (forall j, j ∈ batch -> hasColon (id j) = false) ->
  m !! jobKey (id q) = Some (VJob q) -> hasColon (id q) = false -> q ∉ batch ->
  storeAfterJobs t batch m !! markerKey (groupId q) (id q)
  = m !! markerKey (groupId q) (id q).
Proof.
  intros Hb Hc Hq Hcq Hnot. apply storeAfterJobs_other.
  intros j Hj. split; [apply markerKey_not_jobKey|].
  intros Heq. apply (f_equal afterLastColon) in Heq.
  rewrite !markerKey_id in Heq by auto.
  rewrite Heq in Hq. rewrite (Hb j Hj) in Hq. injection Hq as ->. contradiction.
Qed.

(** C2. In every pass over a store whose job records sit under their own
    keys: when some in-progress job was last updated more than 6 minutes
    ago, every execution that the pass starts is for such a stale job, at
    least one is started, and every queued job is left out of the batch with
    its record unchanged, and with its marker unchanged when the ids have no
    colon; and a pass that executes a queued job is a pass in which no
    in-progress job is stale. *)
Theorem stale_jobs_preempt_queued (E : Env) (w : World) :
  wfStore (kv w) ->
  exists w' batch,
    GET E true w = Ret 200 w'
    /\ trace w' = trace w ++ map EvProcessJob batch
    /\ ((exists j, kv w !! jobKey (id j) = Some (VJob j)
                   /\ status j = InProgress
                   /\ now w - updatedAt j > 6 * 60 * 1000) ->
        batch <> []
        /\ (forall j, j ∈ batch ->
              kv w !! jobKey (id j) = Some (VJob j)
              /\ status j = InProgress
              /\ now w - updatedAt j > 6 * 60 * 1000)
        /\ (forall k q, kv w !! k = Some (VJob q) -> status q = Queued ->
              (q ∉ batch) /\ kv w' !! k = Some (VJob q)
              /\ ((forall j, j ∈ batch -> hasColon (id j) = false) ->
                  hasColon (id q) = false ->
                  kv w' !! markerKey (groupId q) (id q)
                  = kv w !! markerKey (groupId q) (id q))))
    /\ (forall q, q ∈ batch -> status q = Queued ->
          ~ exists j, kv w !! jobKey (id j) = Some (VJob j)
                      /\ status j = InProgress
                      /\ now w - updatedAt j > 6 * 60 * 1000).
Proof.
  intros Hwf.
  destruct (GET_eq E w) as (w' & Hrun & Hkv & Htr & _).
  exists w', (take 50 (eligibleJobs E (now w) (kv w))).
  split; [exact Hrun|]. split; [exact Htr|].
  assert (Hstale : (exists j, kv w !! jobKey (id j) = Some (VJob j)
                     /\ status j = InProgress
                     /\ now w - updatedAt j > 6 * 60 * 1000) ->
                   staleJobs E (now w) (kv w) <> []
                   /\ eligibleJobs E (now w) (kv w) = staleJobs E (now w) (kv w)).
  { intros (j & Hj & Hs & Ht).
    assert (j ∈ staleJobs E (now w) (kv w)) as Hin.
    { apply staleJobs_elem. split; [exact Hs|]. split; [lia|].
      exists (jobKey (id j)). split; [apply prefix_app|exact Hj]. }
    destruct (eligible_cases E (now w) (kv w)) as [[He _]|[Hne He]].
    - rewrite He in Hin. inversion Hin.
    - auto. }
  assert (Hbatch : (exists j, kv w !! jobKey (id j) = Some (VJob j)
                     /\ status j = InProgress
                     /\ now w - updatedAt j > 6 * 60 * 1000) ->
                   forall j, j ∈ take 50 (eligibleJobs E (now w) (kv w)) ->
                     kv w !! jobKey (id j) = Some (VJob j)
                     /\ status j = InProgress
                     /\ now w - updatedAt j > 6 * 60 * 1000).
  { intros Hex j Hj. destruct (Hstale Hex) as [_ He].
    apply take_elem in Hj. split; [eapply eligible_stored; eauto|].
    rewrite He in Hj. apply staleJobs_elem in Hj as (Hs & Ht & _).
    split; [exact Hs|lia]. }
  split.
  - intros Hex. destruct (Hstale Hex) as [Hne He]. split; [|split].
    + rewrite He. destruct (staleJobs E (now w) (kv w)); [congruence|discriminate].
    + exact (Hbatch Hex).
    + intros k q Hk Hq.
      assert (Hnot : q ∉ take 50 (eligibleJobs E (now w) (kv w))).
      { intros Hin. destruct (Hbatch Hex q Hin) as (_ & Hs & _). congruence. }
      split; [exact Hnot|].
      pose proof (wfStore_key _ _ _ Hwf Hk) as ->. rewrite Hkv.
      split.
      * apply batch_leaves_record; auto.
        intros j Hj. apply (Hbatch Hex j Hj).
      * intros Hc Hcq. apply batch_leaves_marker; auto.
        intros j Hj. apply (Hbatch Hex j Hj).
  - intros q Hq Hs Hex. destruct (Hbatch Hex q Hq) as (_ & Hs' & _). congruence.
Qed.

(** ** The order and the distinctness of the listing *)

Lemma NoDup_omap_inj {A B} (h : A -> option B) (l : list A) :
  NoDup l ->
  (forall x y z, x ∈ l -> y ∈ l -> h x = Some z -> h y = Some z -> x = y) ->
  NoDup (omap h l).
Proof.
  induction 1 as [|x l Hx Hl IH]; intros Hinj; [constructor|].
  rewrite omap_cons.
  assert (NoDup (omap h l)) as Hnd.
  { apply IH. intros a b z Ha Hb. apply Hinj; right; assumption. }
  destruct (h x) as [z|] eqn:Hz; [|exact Hnd].
  constructor; [|exact Hnd].
  intros Hin. apply list_elem_of_omap in Hin as (y & Hy & Hhy).
  assert (x = y) as -> by (eapply Hinj; eauto; [left|right; exact Hy]).
  contradiction.
Qed.

Lemma omap_filter_truthy (f : Value -> option Job) (l : list Value) :
  (forall v, truthy v = false -> f v = None) ->
  omap f (filter (fun v => truthy v = true) l) = omap f l.
Proof.
  intros Hf. induction l as [|v l IH]; [reflexivity|].
  destruct (truthy v) eqn:Ht.
  - rewrite filter_cons_True by exact Ht. rewrite !omap_cons, IH. reflexivity.
  - rewrite filter_cons_False by congruence. rewrite omap_cons, (Hf v Ht).
    exact IH.
Qed.

Lemma omap_map {A B C} (f : B -> option C) (g : A -> B) (l : list A) :
  omap f (map g l) = omap (fun x => f (g x)) l.
Proof.
  induction l as [|x l IH]; [reflexivity|].
  cbn [map]. rewrite !omap_cons, IH. reflexivity.
Qed.

(** The jobs of a status in the listing are, up to the order, the job
    records of that status under the scanned keys. *)
Lemma jobsWithStatus_listing E pre m s :
  jobsWithStatus s (listJobs E pre m)
  ≡ₚ omap (jobAt m s) (filter (fun k => String.prefix pre k = true) (elements (dom m))).
Proof.
  unfold jobsWithStatus, listJobs.
  rewrite jsSort_perm.
  rewrite omap_filter_truthy by (intros [j|[|c s0]| |]; (discriminate || reflexivity)).
  rewrite omap_map. rewrite scanOrder_perm.
  match goal with |- ?a ≡ₚ ?b => replace a with b; [reflexivity|] end.
  apply list_omap_ext, Forall2_same_length_lookup. split; [reflexivity|].
  intros i k k' Hk Hk'. rewrite Hk in Hk'. injection Hk' as <-.
  unfold jobAt. destruct (m !! k) as [[j| | |]|]; reflexivity.
Qed.

Lemma jobsWithStatus_NoDup E pre m s :
  wfStore m -> NoDup (jobsWithStatus s (listJobs E pre m)).
Proof.
  intros Hwf. rewrite jobsWithStatus_listing.
  apply NoDup_omap_inj.
  - apply NoDup_filter, NoDup_elements.
  - intros x y j _ _ Hx Hy. unfold jobAt in *.
    destruct (m !! x) as [[jx| | |]|] eqn:Ex; try discriminate.
    destruct (m !! y) as [[jy| | |]|] eqn:Ey; try discriminate.
    destruct (decide (status jx = s)); [|discriminate].
    destruct (decide (status jy = s)); [|discriminate].
    injection Hx as ->. injection Hy as ->.
    rewrite (wfStore_key _ _ _ Hwf Ex), (wfStore_key _ _ _ Hwf Ey). reflexivity.
Qed.

Lemma eligible_NoDup E t m : wfStore m -> NoDup (eligibleJobs E t m).
Proof.
  intros Hwf. unfold eligibleJobs, queuedJobs.
  destruct (staleJobs E t m) eqn:Hs.
  - apply jobsWithStatus_NoDup, Hwf.
  - rewrite <- Hs. unfold staleJobs. apply NoDup_filter, jobsWithStatus_NoDup, Hwf.
Qed.

Lemma sortInsert_sorted (x : Value) (l : list Value) :
  isJobValue x -> Forall isJobValue l ->
  StronglySorted olderValue l ->
  StronglySorted olderValue (sortInsert compareUpdatedAt x l).
Proof.
  intros Hx Hl Hs. induction Hs as [|y l Hs IH Hy]; cbn.
  - repeat constructor.
  - apply Forall_cons in Hl as [Hjy Hl].
    destruct x as [jx| | |]; try contradiction.
    destruct y as [jy| | |]; try contradiction.
    unfold compareUpdatedAt at 1. cbn [updatedAt_of].
    destruct (updatedAt jx - updatedAt jy <=? 0) eqn:Hc.
    + constructor; [constructor; assumption|].
      constructor; [unfold olderValue; cbn; lia|].
      eapply Forall_impl; [exact Hy|].
      intros [jz| | |]; unfold olderValue; cbn; try tauto. lia.
    + constructor; [apply IH; exact Hl|].
      rewrite sortInsert_perm. constructor; [unfold olderValue; cbn; lia|exact Hy].
Qed.

Lemma jsSort_sorted (l : list Value) :
  Forall isJobValue l -> StronglySorted olderValue (jsSort compareUpdatedAt l).
Proof.
  induction 1 as [|x l Hx Hl IH]; cbn; [constructor|].
  fold (jsSort compareUpdatedAt l). apply sortInsert_sorted; [exact Hx| |exact IH].
  rewrite jsSort_perm. exact Hl.
Qed.

Lemma StronglySorted_omap {A B} (R : relation A) (R' : relation B)
  (f : A -> option B) (l : list A) :
  (forall a b a' b', R a b -> f a = Some a' -> f b = Some b' -> R' a' b') ->
  StronglySorted R l -> StronglySorted R' (omap f l).
Proof.
  intros Hf. induction 1 as [|x l Hs IH Hx]; [constructor|].
  rewrite omap_cons.
  destruct (f x) as [x'|] eqn:Ex; [|exact IH].
  constructor; [exact IH|].
  apply Forall_forall. intros y' Hy. apply list_elem_of_omap in Hy as (y & Hy & Ey).
  rewrite Forall_forall in Hx. eapply Hf; eauto.
Qed.

Lemma StronglySorted_filter_keep {A} (R : relation A) (P : A -> Prop)
  `{forall x, Decision (P x)} (l : list A) :
  StronglySorted R l -> StronglySorted R (filter P l).
Proof.
  induction 1 as [|x l Hs IH Hx]; [constructor|].
  destruct (decide (P x)).
  - rewrite filter_cons_True by assumption. constructor; [exact IH|].
    apply Forall_forall. intros y Hy. apply list_elem_of_filter in Hy as [_ Hy].
    rewrite Forall_forall in Hx. auto.
  - rewrite filter_cons_False by assumption. exact IH.
Qed.

Lemma listJobs_all_jobs E m :
  jobSpace m -> Forall isJobValue (listJobs E jobPattern m).
Proof.
  intros Hjs. apply Forall_forall. intros v Hv.
  apply listJobs_elem in Hv as (k & Hp & Hk & _).
  specialize (Hjs k v Hk). cbn beta in Hjs.
  destruct v; [exact I|congruence..].
Qed.

Lemma listJobs_sorted E m :
  jobSpace m -> StronglySorted olderValue (listJobs E jobPattern m).
Proof.
  intros Hjs. unfold listJobs. apply jsSort_sorted.
  pose proof (listJobs_all_jobs E m Hjs) as H. unfold listJobs in H.
  rewrite jsSort_perm in H. exact H.
Qed.

Lemma eligible_sorted E t m :
  jobSpace m -> StronglySorted notNewer (eligibleJobs E t m).
Proof.
  intros Hjs.
  assert (forall s, StronglySorted notNewer (jobsWithStatus s (listJobs E jobPattern m))) as Hs.
  { intros s. unfold jobsWithStatus.
    eapply StronglySorted_omap; [|apply listJobs_sorted, Hjs].
    intros [a| | |] [b| | |] a' b' Hab Ha Hb; try discriminate.
    destruct (decide (status a = s)); [|discriminate].
    destruct (decide (status b = s)); [|discriminate].
    injection Ha as <-. injection Hb as <-. exact Hab. }
  unfold eligibleJobs, queuedJobs. destruct (staleJobs E t m) eqn:Hst; [apply Hs|].
  rewrite <- Hst. unfold staleJobs. apply StronglySorted_filter_keep, Hs.
Qed.

(** C8. In every pass over a store whose job records sit under their own
    keys and whose job key space holds job records only, the executions
    started are those of the first 50 eligible jobs, so at most 50; the pass
    writes no key other than the record key and the marker key of an
    executed job; and every eligible job after the first 50 is not executed
    and keeps its record as it was, and its marker too when the ids have no
    colon. *)
Theorem pass_executes_at_most_50 (E : Env) (w : World) :
  wfStore (kv w) -> jobSpace (kv w) ->
  exists w' batch,
    GET E true w = Ret 200 w'
    /\ batch = take 50 (eligibleJobs E (now w) (kv w))
    /\ trace w' = trace w ++ map EvProcessJob batch
    /\ (length batch <= 50)%nat
    /\ (forall k, (forall j, j ∈ batch ->
                     k <> jobKey (id j) /\ k <> markerKey (groupId j) (id j)) ->
                  kv w' !! k = kv w !! k)
    /\ (forall j, j ∈ drop 50 (eligibleJobs E (now w) (kv w)) ->
          (j ∉ batch)
          /\ kv w !! jobKey (id j) = Some (VJob j)
          /\ kv w' !! jobKey (id j) = Some (VJob j)
          /\ ((forall j', j' ∈ batch -> hasColon (id j') = false) ->
              hasColon (id j) = false ->
              kv w' !! markerKey (groupId j) (id j)
              = kv w !! markerKey (groupId j) (id j))).
Proof.
  intros Hwf _.
  destruct (GET_eq E w) as (w' & Hrun & Hkv & Htr & _).
  exists w', (take 50 (eligibleJobs E (now w) (kv w))).
  split; [exact Hrun|]. split; [reflexivity|]. split; [exact Htr|].
  split; [rewrite length_take; lia|].
  split.
  - intros k Hk. rewrite Hkv. apply storeAfterJobs_other. exact Hk.
  - intros j Hj.
    assert (Hnot : j ∉ take 50 (eligibleJobs E (now w) (kv w))).
    { pose proof (eligible_NoDup E (now w) (kv w) Hwf) as Hnd.
      rewrite <- (take_drop 50 (eligibleJobs E (now w) (kv w))) in Hnd.
      apply NoDup_app in Hnd as (_ & Hd & _). intros Hin. exact (Hd j Hin Hj). }
    assert (Hst : kv w !! jobKey (id j) = Some (VJob j)).
    { eapply eligible_stored; [exact Hwf|]. eapply drop_elem, Hj. }
    assert (Hb : forall j', j' ∈ take 50 (eligibleJobs E (now w) (kv w)) ->
                   kv w !! jobKey (id j') = Some (VJob j')).
    { intros j' Hj'. eapply eligible_stored; [exact Hwf|]. eapply take_elem, Hj'. }
    split; [exact Hnot|]. split; [exact Hst|]. rewrite Hkv. split.
    + apply batch_leaves_record; auto.
    + intros Hc Hcj. apply batch_leaves_marker; auto.
Qed.

(** C9. In every pass with more than 50 eligible jobs (over a store whose
    job records sit under their own keys and whose job key space holds job
    records only), exactly 50 distinct jobs are executed, and none of them
    was updated later than an eligible job that is left out: the batch is
    the front of the eligible jobs in ascending order of [updatedAt]. *)
Theorem batch_is_oldest_first (E : Env) (w : World) :
  wfStore (kv w) -> jobSpace (kv w) ->
  (50 < length (eligibleJobs E (now w) (kv w)))%nat ->
  exists w' batch rest,
    GET E true w = Ret 200 w'
    /\ trace w' = trace w ++ map EvProcessJob batch
    /\ eligibleJobs E (now w) (kv w) = batch ++ rest
    /\ length batch = 50%nat
    /\ NoDup (batch ++ rest)
    /\ StronglySorted notNewer (batch ++ rest)
    /\ (forall a b, a ∈ batch -> b ∈ rest -> updatedAt a <= updatedAt b).
Proof.
  intros Hwf Hjs Hlen.
  destruct (GET_eq E w) as (w' & Hrun & Hkv & Htr & _).
  exists w', (take 50 (eligibleJobs E (now w) (kv w))),
    (drop 50 (eligibleJobs E (now w) (kv w))).
  pose proof (eligible_sorted E (now w) (kv w) Hjs) as Hs.
  rewrite take_drop.
  split; [exact Hrun|]. split; [exact Htr|]. split; [reflexivity|].
  split; [rewrite length_take; lia|].
  split; [apply eligible_NoDup, Hwf|]. split; [exact Hs|].
  intros a b Ha Hb.
  rewrite <- (take_drop 50 (eligibleJobs E (now w) (kv w))) in Hs.
  exact (StronglySorted_app_1_elem_of _ _ _ _ _ Hs Ha Hb).
Qed.

(** ** The barrier on a group whose markers are what the program writes *)

Lemma finalizeGroup_raises E gid w :
  (forall k v, String.prefix (groupPattern gid) k = true ->
               kv w !! k = Some v -> owner_of v = None) ->
  exists msg, finalizeGroup E gid w = Raise (TypeError msg) w.
Proof.
  intros Hno. unfold finalizeGroup, bind. rewrite getJobs_eq.
  destruct (listJobs E (groupPattern gid) (kv w)) as [|job0 jobs] eqn:Hl.
  - eexists. reflexivity.
  - assert (job0 ∈ listJobs E (groupPattern gid) (kv w)) as Hin
      by (rewrite Hl; left).
    apply listJobs_elem in Hin as (k & Hp & Hk & _).
    unfold getASTFilename. rewrite (Hno k job0 Hp Hk). eexists. reflexivity.
Qed.

(** C1 (the code departs from the claim). [checkGroupCompletion] and
    [finalizeGroup] read the membership markers, which are strings, as job
    records. For a group that has a marker, and whose markers all read
    completed, the check answers false, so [processJob] never finalizes; and
    a finalization, if it is called, throws on the missing [owner] before it
    assembles, writes or uploads anything. *)
Theorem barrier_blocks_group_with_all_markers_completed
  (E : Env) (gid jobId : string) (w : World) :
  allMarkersRead "completed" gid (kv w) ->
  kv w !! markerKey gid jobId = Some (VStr "completed") ->
  checkGroupCompletion E gid w = Ret false w
  /\ exists msg, finalizeGroup E gid w = Raise (TypeError msg) w.
Proof.
  intros Hall Hm. split.
  - eapply checkGroupCompletion_false; [apply groupPattern_marker|exact Hm| |];
      [reflexivity|discriminate].
  - apply finalizeGroup_raises. intros k v Hp Hk.
    rewrite (Hall k v Hk Hp). reflexivity.
Qed.

(** ** The key space of a group after the Enqueuer *)

Lemma wfStore_insert_job m j :
  wfStore m -> wfStore (<[jobKey (id j) := VJob j]> m).
Proof.
  intros Hwf k v Hk. destruct (decide (jobKey (id j) = k)) as [<-|Hne].
  - rewrite lookup_insert_eq in Hk. injection Hk as <-. reflexivity.
  - rewrite lookup_insert_ne in Hk by exact Hne. exact (Hwf k v Hk).
Qed.

Lemma wfStore_insert_str m k s : wfStore m -> wfStore (<[k := VStr s]> m).
Proof.
  intros Hwf k' v Hk. destruct (decide (k = k')) as [<-|Hne].
  - rewrite lookup_insert_eq in Hk. injection Hk as <-. exact I.
  - rewrite lookup_insert_ne in Hk by exact Hne. exact (Hwf k' v Hk).
Qed.

Lemma wfStore_no_owner gid m k v :
  wfStore m -> String.prefix (groupPattern gid) k = true ->
  m !! k = Some v -> owner_of v = None.
Proof.
  intros Hwf Hp Hk. destruct v as [j| | |]; try reflexivity.
  pose proof (wfStore_key _ _ _ Hwf Hk) as ->.
  apply groupPattern_group in Hp. discriminate Hp.
Qed.

Lemma markerKeys_insert_job gid m jobId v :
  markerKeys gid (<[jobKey jobId := v]> m) = markerKeys gid m.
Proof.
  unfold markerKeys. apply set_eq. intros k.
  rewrite !elem_of_filter, dom_insert_L, elem_of_union, elem_of_singleton.
  split; [|tauto]. intros [Hp [->|Hd]]; [|tauto].
  apply groupPattern_group in Hp. discriminate Hp.
Qed.

Lemma markerKeys_insert_present gid m k v :
  is_Some (m !! k) -> markerKeys gid (<[k := v]> m) = markerKeys gid m.
Proof.
  intros Hk. unfold markerKeys. apply set_eq. intros k'.
  rewrite !elem_of_filter, dom_insert_L, elem_of_union, elem_of_singleton.
  split; [|tauto]. intros [Hp [->|Hd]]; [|tauto].
  split; [exact Hp|]. apply elem_of_dom. exact Hk.
Qed.

Lemma runOp_keeps E w op :
  wfStore (kv w) -> registered (kv w) op ->
  wfStore (kv (runOp E w op))
  /\ (forall gid, markerKeys gid (kv (runOp E w op)) = markerKeys gid (kv w))
  /\ (forall op', registered (kv w) op' -> registered (kv (runOp E w op)) op').
Proof.
  intros Hwf Hreg. destruct op as [job|job|gid]; cbn [runOp registered] in *.
  - rewrite processJob_eq. cbn [worldAfter kv setKv addEvent]. unfold storeAfterJob.
    split; [|split].
    + apply wfStore_insert_str. apply (wfStore_insert_job _ (completedJob job (now w))).
      apply (wfStore_insert_job _ (withStatus job InProgress (now w))). exact Hwf.
    + intros gid. rewrite markerKeys_insert_present.
      * change (jobKey (id job)) with (jobKey (id (completedJob job (now w)))).
        rewrite !markerKeys_insert_job. reflexivity.
      * rewrite !lookup_insert_ne by (intros H; symmetry in H;
                                      exact (markerKey_not_jobKey _ _ _ H)).
        exact Hreg.
    + intros [j|j|g] Hr; cbn [registered] in *; try exact I;
        repeat (rewrite lookup_insert; case_decide; [eauto|]); exact Hr.
  - rewrite handleJobFailure_eq. cbn [worldAfter kv setKv].
    split; [|split].
    + apply wfStore_insert_str.
      apply (wfStore_insert_job _ (withStatus job Failed (now w))). exact Hwf.
    + intros gid. rewrite markerKeys_insert_present.
      * apply markerKeys_insert_job.
      * rewrite lookup_insert_ne by (intros H; symmetry in H;
                                      exact (markerKey_not_jobKey _ _ _ H)).
        exact Hreg.
    + intros [j|j|g] Hr; cbn [registered] in *; try exact I;
        repeat (rewrite lookup_insert; case_decide; [eauto|]); exact Hr.
  - destruct (finalizeGroup_raises E gid w) as [msg ->].
    + intros k v. apply wfStore_no_owner, Hwf.
    + cbn. auto.
Qed.

(** C5. After the Enqueuer has registered the jobs of a batch, no sequence
    of job executions, failure handlings and group finalizations changes the
    set of keys that the pattern of any group matches: an execution and a
    failure handling overwrite the marker that the job already has, and a
    finalization throws before its write of the group status, because the
    values it reads under the pattern are not job records. *)
Theorem marker_keys_fixed_after_enqueue (E : Env) (ops : list Op) (w : World) (gid : string) :
  wfStore (kv w) ->
  Forall (registered (kv w)) ops ->
  markerKeys gid (kv (runOps E ops w)) = markerKeys gid (kv w)
  /\ wfStore (kv (runOps E ops w)).
Proof.
  revert w. induction ops as [|op ops IH]; intros w Hwf Hreg; [auto|].
  apply Forall_cons in Hreg as [Hop Hops].
  destruct (runOp_keeps E w op Hwf Hop) as (Hwf' & Hkeys & Hregs).
  cbn [runOps fold_left]. fold (runOps E ops (runOp E w op)).
  destruct (IH (runOp E w op) Hwf') as [Hk Hw].
  - eapply Forall_impl; [exact Hops|]. exact Hregs.
  - split; [|exact Hw]. rewrite Hk. apply Hkeys.
Qed.

(** ** The assembled document *)

Lemma fetchRepoMetadata_returns E o r w :
  exists md w', fetchRepoMetadata E o r w = Ret md w'
    /\ kv w' = kv w /\ disk w' = disk w.
Proof.
  unfold fetchRepoMetadata, tryCatch, bind, js_fetch.
  destruct (fetch E _ (requests w)) as [resp|e]; [|eauto].
  unfold lift. destruct (json resp) as [[cs|items|n d h|]|e]; cbn; eauto.
Qed.

Lemma mapM_entryOf (jobs : list Job) (w : World) :
  mapM entryOf (map VJob jobs) w = Ret (map jobEntry jobs) w.
Proof.
  induction jobs as [|j jobs IH]; [reflexivity|].
  cbn [map mapM]. unfold bind at 1. cbn. unfold bind. rewrite IH. reflexivity.
Qed.

Lemma assembleDocument_jobs E (j : Job) (jobs : list Job) (w : World) :
  exists w',
    assembleDocument E (map VJob (j :: jobs)) w
    = Ret (fromEntries (map jobEntry (j :: jobs)
                        ++ [("metadata", Some "[object Object]")])) w'
    /\ kv w' = kv w /\ disk w' = disk w.
Proof.
  pose proof (mapM_entryOf (j :: jobs) w) as Hm.
  unfold assembleDocument. cbn [map] in *. unfold bind at 1.
  rewrite Hm. unfold bind.
  destruct (fetchRepoMetadata_returns E (owner_of (VJob j)) (repo_of (VJob j)) w)
    as (md & w' & -> & Hkv & Hd).
  exists w'. auto.
Qed.

Lemma fold_insert_lookup_congr (l : list (string * option string)) :
  forall (m1 m2 : gmap string (option string)) (i : string),
  m1 !! i = m2 !! i ->
  fold_left (fun m e => <[e.1 := e.2]> m) l m1 !! i
  = fold_left (fun m e => <[e.1 := e.2]> m) l m2 !! i.
Proof.
  induction l as [|e l IH]; intros m1 m2 i H; [exact H|].
  cbn. apply IH. rewrite !lookup_insert. case_decide; [reflexivity|exact H].
Qed.

Lemma fold_insert_lookup_filter (k : string) (l : list (string * option string)) :
  forall (m : gmap string (option string)) (i : string), i <> k ->
  fold_left (fun m e => <[e.1 := e.2]> m) l m !! i
  = fold_left (fun m e => <[e.1 := e.2]> m) (filter (fun e => e.1 <> k) l) m !! i.
Proof.
  induction l as [|e l IH]; intros m i Hi; [reflexivity|].
  destruct (decide (e.1 = k)) as [He|He].
  - rewrite filter_cons_False by (intros H; exact (H He)).
    cbn [fold_left]. rewrite IH by exact Hi.
    apply fold_insert_lookup_congr. rewrite lookup_insert_ne by congruence.
    reflexivity.
  - rewrite filter_cons_True by exact He. cbn [fold_left]. apply IH, Hi.
Qed.

Lemma fromEntries_snoc l k v : fromEntries (l ++ [(k, v)]) = <[k := v]> (fromEntries l).
Proof. unfold fromEntries. rewrite fold_left_app. reflexivity. Qed.

Lemma fromEntries_size l : (size (fromEntries l) <= length l)%nat.
Proof.
  induction l as [|e l IH] using rev_ind; [reflexivity|].
  destruct e as [k v]. rewrite fromEntries_snoc, length_app. cbn.
  destruct (fromEntries l !! k) eqn:Hk.
  - rewrite map_size_insert_Some by eauto. lia.
  - rewrite map_size_insert_None by exact Hk. lia.
Qed.

Lemma filter_jobEntry (jobs : list Job) :
  filter (fun e : string * option string => e.1 <> "metadata") (map jobEntry jobs)
  = map jobEntry (filter (fun j => path (file j) <> "metadata") jobs).
Proof.
  induction jobs as [|j jobs IH]; [reflexivity|]. cbn [map].
  destruct (decide (path (file j) = "metadata")) as [Hj|Hj].
  - rewrite !filter_cons_False by (cbn; intros H; exact (H Hj)). exact IH.
  - rewrite !filter_cons_True by exact Hj. cbn [map]. rewrite IH. reflexivity.
Qed.

Lemma filter_shorter {A} (P : A -> Prop) `{forall x, Decision (P x)}
  (l : list A) (x : A) :
  x ∈ l -> ~ P x -> (length (filter P l) < length l)%nat.
Proof.
  intros Hx Hn. induction l as [|y l IH]; [inversion Hx|].
  pose proof (length_filter P l) as Hle.
  destruct (decide (P y)).
  - rewrite filter_cons_True by assumption. cbn.
    apply elem_of_cons in Hx as [->|Hx]; [contradiction|].
    specialize (IH Hx). lia.
  - rewrite filter_cons_False by assumption. cbn. lia.
Qed.

(** C10. When a job of the group is for the file whose path is "metadata",
    the document assembled from the job records holds under that key the
    text of the repository metadata, not the job's result: the document is
    the one assembled from the other jobs, with the metadata entry put last,
    and it has fewer entries than there are jobs plus one. *)
Theorem metadata_entry_overwrites_job_entry
  (E : Env) (jobs : list Job) (j : Job) (w : World) :
  j ∈ jobs -> path (file j) = "metadata" ->
  exists doc w',
    assembleDocument E (map VJob jobs) w = Ret doc w'
    /\ doc !! "metadata" = Some (Some "[object Object]")
    /\ doc = <["metadata" := Some "[object Object]"]>
               (fromEntries (map jobEntry
                               (filter (fun j' => path (file j') <> "metadata") jobs)))
    /\ (size doc <= length jobs)%nat.
Proof.
  intros Hj Hp. destruct jobs as [|j0 jobs]; [inversion Hj|].
  destruct (assembleDocument_jobs E j0 jobs w) as (w' & Hrun & _).
  eexists _, w'. split; [exact Hrun|].
  rewrite fromEntries_snoc.
  assert (Heq : <["metadata" := Some "[object Object]"]>
                  (fromEntries (map jobEntry (j0 :: jobs)))
                = <["metadata" := Some "[object Object]"]>
                    (fromEntries (map jobEntry
                       (filter (fun j' => path (file j') <> "metadata") (j0 :: jobs))))).
  { apply map_eq. intros i. rewrite !lookup_insert. case_decide; [reflexivity|].
    rewrite <- filter_jobEntry. unfold fromEntries.
    apply fold_insert_lookup_filter. congruence. }
  split; [apply lookup_insert_eq|]. split; [exact Heq|].
  rewrite Heq.
  set (others := filter (fun j' => path (file j') <> "metadata") (j0 :: jobs)).
  assert (length others < length (j0 :: jobs))%nat as Hlt.
  { apply (filter_shorter _ _ j); [exact Hj|]. intros H. exact (H Hp). }
  pose proof (fromEntries_size (map jobEntry others)) as Hsz.
  rewrite length_map in Hsz.
  destruct (fromEntries (map jobEntry others) !! "metadata") eqn:Hk.
  - rewrite map_size_insert_Some by eauto. lia.
  - rewrite map_size_insert_None by exact Hk. lia.
Qed.

(** ** The Enqueuer *)

Lemma keepsKv_ret {A} (a : A) : keepsKv (ret a).
Proof. intros w. reflexivity. Qed.

Lemma keepsKv_throw {A} (e : Exn) : keepsKv (@throw A e).
Proof. intros w. reflexivity. Qed.

Lemma keepsKv_lift {A} (o : Outcome A) : keepsKv (lift o).
Proof. destruct o; intros w; reflexivity. Qed.

Lemma keepsKv_bind {A B} (m : M A) (k : A -> M B) :
  keepsKv m -> (forall a, keepsKv (k a)) -> keepsKv (bind m k).
Proof.
  intros Hm Hk w. unfold bind. specialize (Hm w).
  destruct (m w) as [a w1|e w1|]; [|exact Hm|exact I].
  specialize (Hk a w1). destruct (k a w1); [congruence..|exact I].
Qed.

Lemma keepsKv_tryCatch {A} (m : M A) (h : Exn -> M A) :
  keepsKv m -> (forall e, keepsKv (h e)) -> keepsKv (tryCatch m h).
Proof.
  intros Hm Hh w. unfold tryCatch. specialize (Hm w).
  destruct (m w) as [a w1|e w1|]; [exact Hm| |exact I].
  specialize (Hh e w1). destruct (h e w1); [congruence..|exact I].
Qed.

Lemma keepsKv_js_fetch E url : keepsKv (js_fetch E url).
Proof. intros w. unfold js_fetch. destruct (fetch E url (requests w)); reflexivity. Qed.

Lemma keepsKv_iterate data : keepsKv (iterate data).
Proof. destruct data; intros w; reflexivity. Qed.

Lemma keepsKv_fetchFiles E owner repo : forall fuel p, keepsKv (fetchFiles E fuel owner repo p).
Proof.
  induction fuel as [|fuel IH]; intros p; [intros w; exact I|].
  cbn [fetchFiles]. apply keepsKv_tryCatch; [|intros e; apply keepsKv_throw].
  apply keepsKv_bind; [apply keepsKv_js_fetch|]. intros response.
  destruct (negb (ok response)); [apply keepsKv_throw|].
  apply keepsKv_bind; [apply keepsKv_lift|]. intros data.
  apply keepsKv_bind; [apply keepsKv_iterate|]. intros items.
  match goal with
  | |- keepsKv (?each items []) =>
    assert (forall its fs, keepsKv (each its fs)) as Heach; [|apply Heach]
  end.
  induction its as [|[ip iurl|ip|] its IHi]; intros files.
  - apply keepsKv_ret.
  - apply IHi.
  - apply keepsKv_bind; [apply IH|]. intros more. apply IHi.
  - apply IHi.
Qed.

Lemma fetchFiles_kv E fuel owner repo p w listed w1 :
  fetchFiles E fuel owner repo p w = Ret listed w1 -> kv w1 = kv w.
Proof.
  intros H. pose proof (keepsKv_fetchFiles E owner repo fuel p w) as Hk.
  rewrite H in Hk. exact Hk.
Qed.

Lemma fetchGitHubCommits_latest E repoKey p w c :
  latestCommit E repoKey p (requests w) = Some c ->
  exists latest,
    fetchGitHubCommits E repoKey p w
    = Ret latest (addEvent (EvFetch (commitsUrl repoKey p))
                    (setRequests (S (requests w)) w))
    /\ firstCommit latest = Some c.
Proof.
  unfold latestCommit, fetchGitHubCommits, bind, js_fetch. fold (commitsUrl repoKey p).
  destruct (fetch E (commitsUrl repoKey p) (requests w)) as [r|e]; [|discriminate].
  destruct (json r) as [j|e]; [|discriminate].
  intros Hc. exists j. auto.
Qed.

(** A file whose stored fingerprint is the latest one: nothing is queued. *)
Lemma queueFile_same E owner repo repoKey gid f jobs w c :
  latestCommit E repoKey (path f) (requests w) = Some c ->
  storedSha (kv w) repoKey (path f) = Some (sha c) ->
  exists w',
    queueFile E owner repo repoKey gid f jobs w = Ret jobs w'
    /\ kv w' = kv w /\ requests w' = S (requests w) /\ uuids w' = uuids w
    /\ now w' = now w.
Proof.
  intros Hl Hs. unfold queueFile. unfold bind at 1.
  destruct (fetchGitHubCommits_latest E repoKey (path f) w c Hl) as (latest & -> & Hc).
  unfold bind at 1. unfold getFileMetadata, bind at 1, kv_get, ret.
  cbn [kv addEvent setRequests]. unfold storedSha in Hs.
  set (stored := default VEmpty (kv w !! metadataKey repoKey (path f))) in *.
  unfold bind, changed. rewrite Hc.
  assert (truthy stored = true) as -> by (destruct stored; (discriminate || reflexivity)).
  cbn [negb]. rewrite bool_decide_eq_true_2 by exact Hs. cbn.
  eexists. split; [reflexivity|]. auto.
Qed.

(** A file with no stored fingerprint, or another one: a job is queued and
    the latest fingerprint stored. *)
Lemma queueFile_new E owner repo repoKey gid f jobs w c :
  latestCommit E repoKey (path f) (requests w) = Some c ->
  storedSha (kv w) repoKey (path f) <> Some (sha c) ->
  exists w',
    queueFile E owner repo repoKey gid f jobs w
    = Ret (jobs ++ [newJob E owner repo gid f w]) w'
    /\ kv w' = storeAfterQueue repoKey (newJob E owner repo gid f w) c (kv w)
    /\ requests w' = S (requests w) /\ uuids w' = S (uuids w)
    /\ now w' = now w.
Proof.
  intros Hl Hs. unfold queueFile. unfold bind at 1.
  destruct (fetchGitHubCommits_latest E repoKey (path f) w c Hl) as (latest & -> & Hc).
  unfold bind at 1. unfold getFileMetadata, bind at 1, kv_get, ret.
  cbn [kv addEvent setRequests]. unfold storedSha in Hs.
  set (stored := default VEmpty (kv w !! metadataKey repoKey (path f))) in *.
  assert (changed stored latest = ret true) as Hch.
  { unfold changed. rewrite Hc. destruct (truthy stored); [|reflexivity].
    cbn [negb]. rewrite bool_decide_eq_false_2 by exact Hs. reflexivity. }
  unfold bind at 1. rewrite Hch. unfold ret at 1.
  rewrite Hc. eexists. split; [reflexivity|]. cbn. auto.
Qed.

Lemma queueFiles_unchanged E owner repo repoKey gid : forall files jobs w,
  (forall f, f ∈ files -> unchangedFile E (kv w) repoKey f) ->
  exists w',
    queueFiles E owner repo repoKey gid files jobs w = Ret jobs w'
    /\ kv w' = kv w /\ uuids w' = uuids w /\ now w' = now w.
Proof.
  induction files as [|f files IH]; intros jobs w Hun.
  - exists w. auto.
  - destruct (Hun f (list_elem_of_here _ _) (requests w)) as (c & Hl & Hs).
    destruct (queueFile_same E owner repo repoKey gid f jobs w c Hl Hs)
      as (w1 & Hrun & Hkv & _ & Hu & Hn).
    destruct (IH jobs w1) as (w' & Hrun' & Hkv' & Hu' & Hn').
    { intros f' Hf'. rewrite Hkv. apply Hun. right. exact Hf'. }
    exists w'. cbn [queueFiles]. unfold bind. rewrite Hrun, Hrun'.
    split; [reflexivity|]. split; [congruence|]. split; congruence.
Qed.

(** C4. When the repository lister returns, and the fingerprint stored for
    every listed file that is not media is the latest one of the provider,
    the Enqueuer returns a group id with no job, and the store is the one it
    started from: no job record and no membership marker is added. *)
Theorem enqueue_unchanged_repository_is_noop
  (E : Env) (fuel : nat) (owner repo : string) (w w1 : World) (listed : list FileInfo) :
  fetchFiles E fuel owner repo "" w = Ret listed w1 ->
  (forall f, f ∈ listed -> getFileType (path f) <> "Media" ->
             unchangedFile E (kv w) (owner +:+ "/" +:+ repo) f) ->
  exists gid w',
    queueGroupedJobs E fuel owner repo w = Ret (gid, []) w'
    /\ kv w' = kv w.
Proof.
  intros Hlist Hun. unfold queueGroupedJobs. unfold bind at 1. rewrite Hlist.
  unfold bind at 1. unfold uuid at 1.
  pose proof (fetchFiles_kv _ _ _ _ _ _ _ _ Hlist) as Hkv1.
  edestruct (queueFiles_unchanged E owner repo (owner +:+ "/" +:+ repo)
               (uuidv4 E (uuids w1))
               (filter (fun f => String.eqb (getFileType (path f)) "Media" = false) listed)
               [] (setUuids (S (uuids w1)) w1)) as (w' & Hrun & Hkv & _).
  - intros f Hf. apply list_elem_of_filter in Hf as [Hm Hf].
    cbn [kv setUuids]. rewrite Hkv1. apply Hun; [exact Hf|].
    apply String.eqb_neq. exact Hm.
  - exists (uuidv4 E (uuids w1)), w'. unfold bind. rewrite Hrun.
    split; [reflexivity|]. rewrite Hkv. cbn. exact Hkv1.
Qed.

Lemma metadataKey_scenario repoKey :
  metadataKey repoKey "a.js" <> metadataKey repoKey "dir/c.json".
Proof.
  unfold metadataKey. intros H. apply (inj (String.app repoKey)) in H.
  discriminate H.
Qed.

Lemma storedSha_after_queue repoKey job c m p :
  metadataKey repoKey (path (file job)) <> metadataKey repoKey p ->
  m !! metadataKey repoKey p = None ->
  storedSha (storeAfterQueue repoKey job c m) repoKey p = None.
Proof.
  intros Hne Hm. unfold storedSha, storeAfterQueue.
  rewrite lookup_insert_ne by exact Hne.
  rewrite lookup_insert. case_decide; [reflexivity|].
  rewrite lookup_insert. case_decide; [reflexivity|].
  rewrite Hm. reflexivity.
Qed.

(** C6. When the repository lister returns the files a.js, b.png and
    dir/c.json, the store holds no fingerprint for them, and the provider
    knows a latest commit of a.js and of dir/c.json, the Enqueuer queues
    exactly two jobs, for a.js and for dir/c.json in this order, both queued
    and of the group it answers with, and writes for each its record, its
    marker and its fingerprint; b.png is classified as media and left out. *)
Theorem enqueue_scenario_skips_media
  (E : Env) (fuel : nat) (owner repo ua ub uc : string) (w w1 : World) :
  let repoKey := owner +:+ "/" +:+ repo in
  let fa := {| path := "a.js"; download_url := ua |} in
  let fb := {| path := "b.png"; download_url := ub |} in
  let fc := {| path := "dir/c.json"; download_url := uc |} in
  fetchFiles E fuel owner repo "" w = Ret [fa; fb; fc] w1 ->
  kv w !! metadataKey repoKey "a.js" = None ->
  kv w !! metadataKey repoKey "dir/c.json" = None ->
  (forall n, is_Some (latestCommit E repoKey "a.js" n)) ->
  (forall n, is_Some (latestCommit E repoKey "dir/c.json" n)) ->
  exists gid j1 j2 c1 c2 w',
    queueGroupedJobs E fuel owner repo w = Ret (gid, [j1; j2]) w'
    /\ file j1 = fa /\ file j2 = fc
    /\ status j1 = Queued /\ status j2 = Queued
    /\ groupId j1 = gid /\ groupId j2 = gid
    /\ kv w' = storeAfterQueue repoKey j2 c2 (storeAfterQueue repoKey j1 c1 (kv w))
    /\ getFileType "b.png" = "Media"
    /\ getFileType "a.js" <> "Media" /\ getFileType "dir/c.json" <> "Media".
Proof.
  intros repoKey fa fb fc Hlist Ha Hc Hla Hlc.
  pose proof (fetchFiles_kv _ _ _ _ _ _ _ _ Hlist) as Hkv1.
  unfold queueGroupedJobs. unfold bind at 1. rewrite Hlist.
  unfold bind at 1. unfold uuid at 1.
  change (filter _ [fa; fb; fc]) with [fa; fc].
  set (gid := uuidv4 E (uuids w1)). set (w2 := setUuids (S (uuids w1)) w1).
  fold repoKey. cbn [queueFiles].
  destruct (Hla (requests w2)) as [c1 Hc1].
  destruct (queueFile_new E owner repo repoKey gid fa [] w2 c1 Hc1)
    as (w3 & Hrun3 & Hkv3 & Hr3 & _).
  { unfold storedSha, fa, w2. cbn [path kv setUuids]. rewrite Hkv1, Ha.
    discriminate. }
  destruct (Hlc (requests w3)) as [c2 Hc2].
  destruct (queueFile_new E owner repo repoKey gid fc
              ([] ++ [newJob E owner repo gid fa w2]) w3 c2 Hc2)
    as (w4 & Hrun4 & Hkv4 & _).
  { rewrite Hkv3. unfold fc, w2. cbn [path].
    rewrite storedSha_after_queue; [discriminate|apply metadataKey_scenario|].
    cbn [kv setUuids]. rewrite Hkv1. exact Hc. }
  exists gid, (newJob E owner repo gid fa w2), (newJob E owner repo gid fc w3), c1, c2, w4.
  unfold bind. rewrite Hrun3. cbv beta iota. rewrite Hrun4.
  split; [reflexivity|].
  repeat (split; [reflexivity|]).
  split; [rewrite Hkv4, Hkv3; unfold w2; cbn [kv setUuids]; rewrite Hkv1;
          reflexivity|].
  split; [reflexivity|].
  split; intros H; vm_compute in H; discriminate H.
Qed.

(** ** The properties at concrete inputs *)

Lemma barrier_blocks_group_with_all_markers_completed_witness :
  allMarkersRead "completed" "g1" completedStore
  /\ completedStore !! markerKey "g1" "j1" = Some (VStr "completed")
  /\ checkGroupCompletion demoEnv "g1" (worldOf completedStore)
     = Ret false (worldOf completedStore)
  /\ exists msg, finalizeGroup demoEnv "g1" (worldOf completedStore)
                 = Raise (TypeError msg) (worldOf completedStore).
Proof.
  assert (H1 : allMarkersRead "completed" "g1" completedStore).
  { apply (bool_decide_unpack (allMarkersRead "completed" "g1" completedStore)). vm_compute. exact I. }
  assert (H2 : completedStore !! markerKey "g1" "j1" = Some (VStr "completed")).
  { vm_compute. reflexivity. }
  split; [exact H1|]. split; [exact H2|].
  exact (barrier_blocks_group_with_all_markers_completed
           demoEnv "g1" "j1" (worldOf completedStore) H1 H2).
Defined.

Lemma stale_jobs_preempt_queued_witness :
  wfStore recoveryStore
  /\ exists w' batch,
    GET demoEnv true (worldOf recoveryStore) = Ret 200 w'
    /\ trace w' = trace (worldOf recoveryStore) ++ map EvProcessJob batch
    /\ ((exists j, recoveryStore !! jobKey (id j) = Some (VJob j)
                   /\ status j = InProgress
                   /\ 1000000 - updatedAt j > 6 * 60 * 1000) ->
        batch <> []
        /\ (forall j, j ∈ batch ->
              recoveryStore !! jobKey (id j) = Some (VJob j)
              /\ status j = InProgress
              /\ 1000000 - updatedAt j > 6 * 60 * 1000)
        /\ (forall k q, recoveryStore !! k = Some (VJob q) -> status q = Queued ->
              (q ∉ batch) /\ kv w' !! k = Some (VJob q)
              /\ ((forall j, j ∈ batch -> hasColon (id j) = false) ->
                  hasColon (id q) = false ->
                  kv w' !! markerKey (groupId q) (id q)
                  = recoveryStore !! markerKey (groupId q) (id q))))
    /\ (forall q, q ∈ batch -> status q = Queued ->
          ~ exists j, recoveryStore !! jobKey (id j) = Some (VJob j)
                      /\ status j = InProgress
                      /\ 1000000 - updatedAt j > 6 * 60 * 1000).
Proof.
  assert (H : wfStore recoveryStore).
  { apply (bool_decide_unpack (wfStore recoveryStore)). vm_compute. exact I. }
  split; [exact H|].
  exact (stale_jobs_preempt_queued demoEnv (worldOf recoveryStore) H).
Defined.

Lemma processJob_generation_failure_recorded_completed_witness :
  (forall w1, exists e w2, fileInfoToAstData demoEnv (file jobQueued) w1 = Raise e w2)
  /\ exists w',
    processJob demoEnv jobQueued (worldOf recoveryStore) = Ret tt w'
    /\ kv w' !! jobKey "j2" = Some (VJob (completedJob jobQueued 1000000))
    /\ status (completedJob jobQueued 1000000) = Completed
    /\ result (completedJob jobQueued 1000000) = Some "{}"
    /\ kv w' !! markerKey "g1" "j2" = Some (VStr "completed").
Proof.
  assert (H : forall w1, exists e w2,
               fileInfoToAstData demoEnv (file jobQueued) w1 = Raise e w2).
  { intros w1. eexists _, _. reflexivity. }
  split; [exact H|].
  exact (processJob_generation_failure_recorded_completed
           demoEnv jobQueued (worldOf recoveryStore) H).
Defined.

Lemma pass_executes_at_most_50_witness :
  wfStore backlogStore /\ jobSpace backlogStore
  /\ exists w' batch,
    GET demoEnv true (worldOf backlogStore) = Ret 200 w'
    /\ batch = take 50 (eligibleJobs demoEnv 1000000 backlogStore)
    /\ trace w' = trace (worldOf backlogStore) ++ map EvProcessJob batch
    /\ (length batch <= 50)%nat
    /\ (forall k, (forall j, j ∈ batch ->
                     k <> jobKey (id j) /\ k <> markerKey (groupId j) (id j)) ->
                  kv w' !! k = backlogStore !! k)
    /\ (forall j, j ∈ drop 50 (eligibleJobs demoEnv 1000000 backlogStore) ->
          (j ∉ batch)
          /\ backlogStore !! jobKey (id j) = Some (VJob j)
          /\ kv w' !! jobKey (id j) = Some (VJob j)
          /\ ((forall j', j' ∈ batch -> hasColon (id j') = false) ->
              hasColon (id j) = false ->
              kv w' !! markerKey (groupId j) (id j)
              = backlogStore !! markerKey (groupId j) (id j))).
Proof.
  assert (H : wfStore backlogStore).
  { apply (bool_decide_unpack (wfStore backlogStore)). vm_compute. exact I. }
  assert (H2 : jobSpace backlogStore).
  { apply (bool_decide_unpack (jobSpace backlogStore)). vm_compute. exact I. }
  split; [exact H|]. split; [exact H2|].
  exact (pass_executes_at_most_50 demoEnv (worldOf backlogStore) H H2).
Defined.

Lemma batch_is_oldest_first_witness :
  (50 < length (eligibleJobs demoEnv 1000000 backlogStore))%nat
  /\ exists w' batch rest,
    GET demoEnv true (worldOf backlogStore) = Ret 200 w'
    /\ trace w' = trace (worldOf backlogStore) ++ map EvProcessJob batch
    /\ eligibleJobs demoEnv 1000000 backlogStore = batch ++ rest
    /\ length batch = 50%nat
    /\ NoDup (batch ++ rest)
    /\ StronglySorted notNewer (batch ++ rest)
    /\ (forall a b, a ∈ batch -> b ∈ rest -> updatedAt a <= updatedAt b).
Proof.
  assert (H1 : wfStore backlogStore).
  { apply (bool_decide_unpack (wfStore backlogStore)). vm_compute. exact I. }
  assert (H2 : jobSpace backlogStore).
  { apply (bool_decide_unpack (jobSpace backlogStore)). vm_compute. exact I. }
  assert (H3 : (50 < length (eligibleJobs demoEnv 1000000 backlogStore))%nat).
  { vm_compute. lia. }
  split; [exact H3|].
  exact (batch_is_oldest_first demoEnv (worldOf backlogStore) H1 H2 H3).
Defined.

Lemma marker_keys_fixed_after_enqueue_witness :
  wfStore recoveryStore
  /\ Forall (registered recoveryStore)
       [OpProcessJob jobQueued; OpHandleJobFailure jobStale; OpFinalizeGroup "g1"]
  /\ markerKeys "g1"
       (kv (runOps demoEnv [OpProcessJob jobQueued; OpHandleJobFailure jobStale;
                            OpFinalizeGroup "g1"] (worldOf recoveryStore)))
     = markerKeys "g1" recoveryStore
  /\ wfStore
       (kv (runOps demoEnv [OpProcessJob jobQueued; OpHandleJobFailure jobStale;
                            OpFinalizeGroup "g1"] (worldOf recoveryStore))).
Proof.
  assert (H1 : wfStore recoveryStore).
  { apply (bool_decide_unpack (wfStore recoveryStore)). vm_compute. exact I. }
  assert (H2 : Forall (registered recoveryStore)
                 [OpProcessJob jobQueued; OpHandleJobFailure jobStale;
                  OpFinalizeGroup "g1"]).
  { repeat constructor; eexists; vm_compute; reflexivity. }
  split; [exact H1|]. split; [exact H2|].
  exact (marker_keys_fixed_after_enqueue demoEnv _ (worldOf recoveryStore) "g1" H1 H2).
Defined.

Lemma metadata_entry_overwrites_job_entry_witness :
  exists doc w',
    assembleDocument demoEnv
      (map VJob [jobDone1; demoJob "j3" "metadata" Completed (Some "{}") 900002])
      (worldOf completedStore) = Ret doc w'
    /\ doc !! "metadata" = Some (Some "[object Object]")
    /\ doc = <["metadata" := Some "[object Object]"]>
               (fromEntries (map jobEntry
                  (filter (fun j' => path (file j') <> "metadata")
                     [jobDone1; demoJob "j3" "metadata" Completed (Some "{}") 900002])))
    /\ (size doc <= 2)%nat.
Proof.
  apply (metadata_entry_overwrites_job_entry demoEnv
           [jobDone1; demoJob "j3" "metadata" Completed (Some "{}") 900002]
           (demoJob "j3" "metadata" Completed (Some "{}") 900002)
           (worldOf completedStore)).
  - right. left.
  - reflexivity.
Defined.

Lemma enqueue_unchanged_repository_is_noop_witness :
  exists gid w',
    queueGroupedJobs demoEnv 3 "o" "r" (worldOf fingerprintStore) = Ret (gid, []) w'
    /\ kv w' = fingerprintStore.
Proof.
  eapply (enqueue_unchanged_repository_is_noop demoEnv 3 "o" "r"
            (worldOf fingerprintStore)).
  - vm_compute. reflexivity.
  - intros f Hf Hm n.
    apply elem_of_cons in Hf as [->|Hf]; [|apply elem_of_cons in Hf as [->|Hf]];
      [| |apply list_elem_of_singleton in Hf as ->].
    + exists {| sha := "5f2c1e" |}. split; vm_compute; reflexivity.
    + exfalso. apply Hm. vm_compute. reflexivity.
    + exists {| sha := "5f2c1e" |}. split; vm_compute; reflexivity.
Defined.

Lemma enqueue_scenario_skips_media_witness :
  exists gid j1 j2 c1 c2 w',
    queueGroupedJobs demoEnv 3 "o" "r" (worldOf ∅) = Ret (gid, [j1; j2]) w'
    /\ file j1 = {| path := "a.js"; download_url := "https://raw.example/o/r/a.js" |}
    /\ file j2 = {| path := "dir/c.json";
                    download_url := "https://raw.example/o/r/dir/c.json" |}
    /\ status j1 = Queued /\ status j2 = Queued
    /\ groupId j1 = gid /\ groupId j2 = gid
    /\ kv w' = storeAfterQueue "o/r" j2 c2 (storeAfterQueue "o/r" j1 c1 ∅)
    /\ getFileType "b.png" = "Media"
    /\ getFileType "a.js" <> "Media" /\ getFileType "dir/c.json" <> "Media".
Proof.
  eapply (enqueue_scenario_skips_media demoEnv 3 "o" "r"
            "https://raw.example/o/r/a.js" "https://raw.example/o/r/b.png"
            "https://raw.example/o/r/dir/c.json" (worldOf ∅)).
  - vm_compute. reflexivity.
  - reflexivity.
  - reflexivity.
  - intros n. eexists. vm_compute. reflexivity.
  - intros n. eexists. vm_compute. reflexivity.
Defined.

(** The scenario of the retry-fetch primitive: a target that fails twice and
    then succeeds is fetched with three requests and the waits of 2000ms and
    4000ms between them, after the initial wait of [fetchFile]. *)
Example fetchFile_fails_twice_then_succeeds :
  exists w', fetchFile flakyEnv "https://raw.example/o/r/a.js" (worldOf ∅)
             = Ret "export default 1" w'
    /\ requests w' = 3%nat
    /\ trace w' = [EvSleep 750;
                   EvFetch "https://raw.example/o/r/a.js"; EvSleep 2000;
                   EvFetch "https://raw.example/o/r/a.js"; EvSleep 4000;
                   EvFetch "https://raw.example/o/r/a.js"].
Proof. eexists. split; [vm_compute; reflexivity|]. split; reflexivity. Qed.

Example downloadFile_always_failing :
  exists w', downloadFile demoEnv "https://raw.example/o/r/b.png" "/tmp/b.png" (worldOf ∅)
             = Raise (Error "Failed to download file after 5 attempts: https://raw.example/o/r/b.png") w'
    /\ requests w' = 5%nat
    /\ sleepsOf (trace w') = [2000; 4000; 8000; 16000]
    /\ disk w' = ∅.
Proof. eexists. split; [vm_compute; reflexivity|]. repeat split; reflexivity. Qed.

(** A destination that cannot be written: every attempt fetches the file
    again, and the primitive throws after five requests. *)
Example downloadFile_unwritable_destination :
  exists w', downloadFile readOnlyEnv "https://raw.example/o/r/a.js" "/tmp" (worldOf ∅)
             = Raise (Error "Failed to download file after 5 attempts: https://raw.example/o/r/a.js") w'
    /\ requests w' = 5%nat
    /\ sleepsOf (trace w') = [2000; 4000; 8000; 16000]
    /\ disk w' = ∅.
Proof. eexists. split; [vm_compute; reflexivity|]. repeat split; reflexivity. Qed.

(** The scenario of the barrier: three jobs of one group have all completed,
    and the check that follows the last completion still answers false. *)
Example three_completed_jobs_not_finalized :
  let m := <[jobKey "j3" := VJob (demoJob "j3" "b.ts" InProgress None 900002)]>
             (<[markerKey "g1" "j3" := VStr "queued"]> completedStore) in
  exists w', processJob demoEnv (demoJob "j3" "b.ts" InProgress None 900002) (worldOf m)
             = Ret tt w'
    /\ allMarkersRead "completed" "g1" (kv w')
    /\ checkGroupCompletion demoEnv "g1" w' = Ret false w'
    /\ disk w' = ∅
    /\ kv w' !! groupStatusKey "g1" = None.
Proof.
  intros m. eexists. split; [apply processJob_eq|].
  split; [apply (bool_decide_unpack (allMarkersRead _ _ _)); vm_compute; exact I|].
  split; [|split; vm_compute; reflexivity].
  eapply checkGroupCompletion_false with (k := markerKey "g1" "j3");
    [vm_compute; reflexivity|vm_compute; reflexivity|reflexivity|discriminate].
Qed.

(** * Further properties of the scheduler and of the barrier *)

Lemma eligible_elem E t m j :
  j ∈ eligibleJobs E t m ->
  (exists k, String.prefix jobPattern k = true /\ m !! k = Some (VJob j))
  /\ (status j = Queued \/ (status j = InProgress /\ t - updatedAt j > 60000 * 6)).
Proof.
  intros Hj. destruct (eligible_cases E t m) as [[_ He]|[_ He]]; rewrite He in Hj.
  - apply listed_job_stored in Hj as [Hs Hk]. auto.
  - apply staleJobs_elem in Hj as (Hs & Ht & Hk). auto.
Qed.


Lemma storeAfterJobs_snoc t l x m :
  storeAfterJobs t (l ++ [x]) m = storeAfterJob x t (storeAfterJobs t l m).
Proof. unfold storeAfterJobs. rewrite fold_left_app. reflexivity. Qed.

Lemma storeAfterJobs_job t m j : forall batch,
  (forall j', j' ∈ batch -> id j' = id j -> j' = j) -> j ∈ batch ->
  storeAfterJobs t batch m !! jobKey (id j) = Some (VJob (completedJob j t)).
Proof.
  induction batch as [|x l IH] using rev_ind; intros Hsame Hj; [inversion Hj|].
  rewrite storeAfterJobs_snoc.
  destruct (decide (id x = id j)) as [Hid|Hid].
  - assert (x = j) as -> by (apply Hsame; [apply elem_of_app; right; left|exact Hid]).
    apply storeAfterJob_job.
  - rewrite storeAfterJob_other.
    + apply IH.
      * intros j' Hj'. apply Hsame. apply elem_of_app. left. exact Hj'.
      * apply elem_of_app in Hj as [Hj|Hj]; [exact Hj|].
        apply list_elem_of_singleton in Hj. congruence.
    + intros Heq. apply jobKey_inj in Heq. congruence.
    + intros Heq. symmetry in Heq. exact (markerKey_not_jobKey _ _ _ Heq).
Qed.

Lemma storeAfterJobs_marker t m j : forall batch,
  j ∈ batch ->
  storeAfterJobs t batch m !! markerKey (groupId j) (id j) = Some (VStr "completed").
Proof.
  induction batch as [|x l IH] using rev_ind; intros Hj; [inversion Hj|].
  rewrite storeAfterJobs_snoc.
  destruct (decide (markerKey (groupId x) (id x) = markerKey (groupId j) (id j)))
    as [Heq|Hne].
  - rewrite <- Heq. apply storeAfterJob_marker.
  - rewrite storeAfterJob_other.
    + apply IH. apply elem_of_app in Hj as [Hj|Hj]; [exact Hj|].
      apply list_elem_of_singleton in Hj. congruence.
    + apply markerKey_not_jobKey.
    + congruence.
Qed.

Lemma wfStore_storeAfterJobs t : forall batch m,
  wfStore m -> wfStore (storeAfterJobs t batch m).
Proof.
  induction batch as [|x l IH] using rev_ind; intros m Hwf; [exact Hwf|].
  rewrite storeAfterJobs_snoc. unfold storeAfterJob.
  apply wfStore_insert_str. apply (wfStore_insert_job _ (completedJob x t)).
  apply (wfStore_insert_job _ (withStatus x InProgress t)). apply IH, Hwf.
Qed.

Lemma plainGroups_storeAfterJobs t : forall batch m,
  plainGroups m ->
  (forall j, j ∈ batch -> globFree (groupId j) = true) ->
  plainGroups (storeAfterJobs t batch m).
Proof.
  induction batch as [|x l IH] using rev_ind; intros m Hpl Hb; [exact Hpl|].
  rewrite storeAfterJobs_snoc. unfold storeAfterJob.
  assert (plainGroups (storeAfterJobs t l m)) as Hl.
  { apply IH; [exact Hpl|]. intros j Hj. apply Hb, elem_of_app. left. exact Hj. }
  assert (globFree (groupId x) = true) as Hx.
  { apply Hb, elem_of_app. right. apply list_elem_of_singleton. reflexivity. }
  unfold plainGroups.
  apply map_Forall_insert_2; [exact I|].
  apply map_Forall_insert_2; [exact Hx|].
  apply map_Forall_insert_2; [exact Hx|]. exact Hl.
Qed.

(** X2. A pass over a store whose job records sit under their own keys and
    carry group ids without a glob character leaves such a store; every job
    it has executed has afterwards the record of a completed job,
    time-stamped with the time of the pass, and a marker that reads
    completed; and no later pass, at whatever time, finds one of these jobs
    eligible again. *)
Theorem pass_completes_its_batch (E : Env) (w : World) :
  wfStore (kv w) -> plainGroups (kv w) ->
  exists w' batch,
    GET E true w = Ret 200 w'
    /\ trace w' = trace w ++ map EvProcessJob batch
    /\ wfStore (kv w') /\ plainGroups (kv w')
    /\ (forall j, j ∈ batch ->
          kv w' !! jobKey (id j) = Some (VJob (completedJob j (now w)))
          /\ status (completedJob j (now w)) = Completed
          /\ updatedAt (completedJob j (now w)) = now w
          /\ kv w' !! markerKey (groupId j) (id j) = Some (VStr "completed"))
    /\ (forall t j j2, j ∈ batch -> j2 ∈ eligibleJobs E t (kv w') -> id j2 <> id j).
Proof.
  intros Hwf Hpl.
  destruct (GET_eq E w) as (w' & Hrun & Hkv & Htr & _).
  set (batch := take 50 (eligibleJobs E (now w) (kv w))) in *.
  assert (Hstored : forall j, j ∈ batch -> kv w !! jobKey (id j) = Some (VJob j)).
  { intros j Hj. eapply eligible_stored; [exact Hwf|]. eapply take_elem, Hj. }
  assert (Hrec : forall j, j ∈ batch ->
            kv w' !! jobKey (id j) = Some (VJob (completedJob j (now w)))).
  { intros j Hj. rewrite Hkv. apply storeAfterJobs_job; [|exact Hj].
    intros j' Hj' Hid. pose proof (Hstored j' Hj') as H1.
    rewrite Hid, (Hstored j Hj) in H1. congruence. }
  assert (Hwf' : wfStore (kv w')) by (rewrite Hkv; apply wfStore_storeAfterJobs, Hwf).
  assert (Hpl' : plainGroups (kv w')).
  { rewrite Hkv. apply plainGroups_storeAfterJobs; [exact Hpl|].
    intros j Hj. exact (Hpl _ _ (Hstored j Hj)). }
  exists w', batch. split; [exact Hrun|]. split; [exact Htr|]. split; [exact Hwf'|].
  split; [exact Hpl'|]. split.
  - intros j Hj. split; [apply Hrec, Hj|]. split; [reflexivity|]. split; [reflexivity|].
    rewrite Hkv. apply storeAfterJobs_marker, Hj.
  - intros t j j2 Hj Hj2 Hid.
    pose proof (eligible_stored E t (kv w') j2 Hwf' Hj2) as H2.
    apply eligible_elem in Hj2 as [_ Hs].
    rewrite Hid, (Hrec j Hj) in H2. injection H2 as <-.
    destruct Hs as [Hs|[Hs _]]; discriminate Hs.
Qed.

Lemma pass_completes_its_batch_witness :
  wfStore recoveryStore /\ plainGroups recoveryStore
  /\ exists w' batch,
    GET demoEnv true (worldOf recoveryStore) = Ret 200 w'
    /\ trace w' = trace (worldOf recoveryStore) ++ map EvProcessJob batch
    /\ wfStore (kv w') /\ plainGroups (kv w')
    /\ (forall j, j ∈ batch ->
          kv w' !! jobKey (id j) = Some (VJob (completedJob j 1000000))
          /\ status (completedJob j 1000000) = Completed
          /\ updatedAt (completedJob j 1000000) = 1000000
          /\ kv w' !! markerKey (groupId j) (id j) = Some (VStr "completed"))
    /\ (forall t j j2, j ∈ batch -> j2 ∈ eligibleJobs demoEnv t (kv w') -> id j2 <> id j).
Proof.
  assert (H : wfStore recoveryStore).
  { apply (bool_decide_unpack (wfStore recoveryStore)). vm_compute. exact I. }
  assert (H2 : plainGroups recoveryStore).
  { apply (bool_decide_unpack (plainGroups recoveryStore)). vm_compute. exact I. }
  split; [exact H|]. split; [exact H2|].
  exact (pass_completes_its_batch demoEnv (worldOf recoveryStore) H H2).
Defined.

(** X3. For a group id without a glob character, the check of the barrier
    answers true exactly when every truthy value under a key that starts
    with the prefix of the group is the record of a completed job, in
    whatever order the store hands out the keys. *)
Theorem checkGroupCompletion_characterized (E : Env) (gid : string) (w : World) :
  globFree gid = true ->
  checkGroupCompletion E gid w
  = Ret (bool_decide (allCompletedRecords gid (kv w))) w.
Proof.
  intros _. rewrite checkGroupCompletion_eq. f_equal.
  destruct (bool_decide (allCompletedRecords gid (kv w))) eqn:Hd.
  - apply bool_decide_eq_true in Hd. apply forallb_forall. intros v Hv.
    apply list_elem_of_In, listJobs_elem in Hv as (k & Hp & Hk & Ht).
    apply bool_decide_eq_true. exact (Hd k v Hk Hp Ht).
  - apply bool_decide_eq_false in Hd. apply not_true_is_false. intros Hall.
    apply Hd. intros k v Hk Hp Ht. rewrite forallb_forall in Hall.
    specialize (Hall v). apply bool_decide_eq_true in Hall; [exact Hall|].
    apply list_elem_of_In, listJobs_elem. eauto.
Qed.

Lemma checkGroupCompletion_characterized_witness :
  checkGroupCompletion demoEnv "g1" (worldOf completedStore)
  = Ret (bool_decide (allCompletedRecords "g1" (kv (worldOf completedStore))))
      (worldOf completedStore).
Proof.
  apply (checkGroupCompletion_characterized demoEnv "g1" (worldOf completedStore)).
  reflexivity.
Defined.

(** X4. A group whose id has no glob character and that has no key under
    its prefix, as an enqueue that found nothing changed leaves it, passes
    the check; its finalization throws on the first element of the empty
    listing and writes nothing. *)
Theorem empty_group_passes_check_but_cannot_finalize
  (E : Env) (gid : string) (w : World) :
  globFree gid = true ->
  noKeyUnder gid (kv w) ->
  checkGroupCompletion E gid w = Ret true w
  /\ exists msg, finalizeGroup E gid w = Raise (TypeError msg) w.
Proof.
  intros _ Hno. split.
  - rewrite checkGroupCompletion_eq. f_equal. apply forallb_forall. intros v Hv.
    apply list_elem_of_In, listJobs_elem in Hv as (k & Hp & Hk & _).
    rewrite (Hno k v Hk) in Hp. discriminate.
  - apply finalizeGroup_raises. intros k v Hp Hk. rewrite (Hno k v Hk) in Hp.
    discriminate.
Qed.

Lemma empty_group_passes_check_but_cannot_finalize_witness :
  noKeyUnder "g2" recoveryStore
  /\ checkGroupCompletion demoEnv "g2" (worldOf recoveryStore)
     = Ret true (worldOf recoveryStore)
  /\ exists msg, finalizeGroup demoEnv "g2" (worldOf recoveryStore)
                 = Raise (TypeError msg) (worldOf recoveryStore).
Proof.
  assert (H : noKeyUnder "g2" recoveryStore).
  { apply (bool_decide_unpack (noKeyUnder "g2" recoveryStore)). vm_compute. exact I. }
  split; [exact H|].
  exact (empty_group_passes_check_but_cannot_finalize demoEnv "g2"
           (worldOf recoveryStore) eq_refl H).
Defined.

(** * Further properties of the assembled document *)

Lemma fetchRepoMetadata_one_request E o r w :
  exists md w', fetchRepoMetadata E o r w = Ret md w'
    /\ kv w' = kv w /\ disk w' = disk w
    /\ requests w' = S (requests w)
    /\ trace w' = trace w ++ [EvFetch ("https://api.github.com/repos/"
                                         +:+ template o +:+ "/" +:+ template r)].
Proof.
  unfold fetchRepoMetadata, tryCatch, bind, js_fetch.
  destruct (fetch E _ (requests w)) as [resp|e]; [|eexists _, _; eauto].
  unfold lift. destruct (json resp) as [[cs|items|n d h|]|e]; cbn;
    eexists _, _; eauto.
Qed.

Lemma fromEntries_jobs_lookup (p : string) : forall jobs : list Job,
  fromEntries (map jobEntry jobs) !! p
  = result <$> last (filter (fun j => path (file j) = p) jobs).
Proof.
  induction jobs as [|x l IH] using rev_ind; [reflexivity|].
  rewrite map_app. cbn [map]. unfold jobEntry at 2. rewrite fromEntries_snoc.
  rewrite filter_app. destruct (decide (path (file x) = p)) as [Hp|Hp].
  - rewrite (filter_cons_True _ x) by exact Hp. rewrite filter_nil.
    rewrite last_snoc, Hp. cbn. apply lookup_insert_eq.
  - rewrite (filter_cons_False _ x) by exact Hp. rewrite filter_nil, app_nil_r.
    rewrite lookup_insert_ne by exact Hp. exact IH.
Qed.

Lemma filter_none {A} (P : A -> Prop) `{forall x, Decision (P x)} (l : list A) :
  (forall x, x ∈ l -> ~ P x) -> filter P l = [].
Proof.
  induction l as [|x l IH]; intros Hn; [reflexivity|].
  rewrite filter_cons_False by (apply Hn; left).
  apply IH. intros y Hy. apply Hn. right. exact Hy.
Qed.

Lemma fromEntries_jobs_size : forall jobs : list Job,
  NoDup (map (fun j => path (file j)) jobs) ->
  size (fromEntries (map jobEntry jobs)) = length jobs.
Proof.
  induction jobs as [|x l IH] using rev_ind; intros Hnd; [reflexivity|].
  rewrite map_app in Hnd. cbn [map] in Hnd.
  apply NoDup_app in Hnd as (Hl & Hx & _).
  rewrite map_app. cbn [map]. unfold jobEntry at 2. rewrite fromEntries_snoc.
  rewrite map_size_insert_None.
  - rewrite IH by exact Hl. rewrite length_app. cbn. lia.
  - rewrite fromEntries_jobs_lookup.
    replace (filter (fun j => path (file j) = path (file x)) l) with (@nil Job);
      [reflexivity|].
    symmetry. apply filter_none. intros j Hj Hp.
    apply (Hx (path (file x))); [|left].
    rewrite <- Hp. apply (list_elem_of_fmap_2 (fun j => path (file j))). exact Hj.
Qed.

(** X5. The document assembled from a non-empty list of job records maps
    every path other than "metadata" to the result of the last job of that
    path, and "metadata" to the text of the metadata object; it is assembled
    with exactly one request to the provider, whose failure is not an error
    of the assembly; and when the paths are pairwise distinct and none is
    "metadata", it has one entry per job plus the metadata entry. *)
Theorem assembleDocument_entries (E : Env) (j0 : Job) (jobs : list Job) (w : World) :
  exists doc w',
    assembleDocument E (map VJob (j0 :: jobs)) w = Ret doc w'
    /\ requests w' = S (requests w)
    /\ kv w' = kv w
    /\ doc !! "metadata" = Some (Some "[object Object]")
    /\ (forall p, p <> "metadata" ->
          doc !! p = result <$> last (filter (fun j => path (file j) = p) (j0 :: jobs)))
    /\ (NoDup (map (fun j => path (file j)) (j0 :: jobs)) ->
        (forall j, j ∈ j0 :: jobs -> path (file j) <> "metadata") ->
        size doc = S (length (j0 :: jobs))).
Proof.
  pose proof (mapM_entryOf (j0 :: jobs) w) as Hm.
  unfold assembleDocument. cbn [map] in *. unfold bind at 1. rewrite Hm.
  unfold bind.
  destruct (fetchRepoMetadata_one_request E (owner_of (VJob j0)) (repo_of (VJob j0)) w)
    as (md & w' & -> & Hkv & _ & Hr & _).
  eexists _, w'. split; [reflexivity|]. split; [exact Hr|]. split; [exact Hkv|].
  rewrite fromEntries_snoc. split; [apply lookup_insert_eq|]. split.
  - intros p Hp. rewrite lookup_insert_ne by congruence.
    apply (fromEntries_jobs_lookup p (j0 :: jobs)).
  - intros Hnd Hno. rewrite map_size_insert_None.
    + f_equal. apply (fromEntries_jobs_size (j0 :: jobs)), Hnd.
    + pose proof (fromEntries_jobs_lookup "metadata" (j0 :: jobs)) as Hl.
      cbn [map] in Hl. rewrite Hl.
      replace (filter (fun j => path (file j) = "metadata") (j0 :: jobs)) with (@nil Job);
        [reflexivity|].
      symmetry. apply filter_none. intros j Hj Hp. exact (Hno j Hj Hp).
Qed.

Lemma mapM_entryOf_raises : forall (vals : list Value) (w : World),
  Exists (fun v => file_of v = None) vals ->
  mapM entryOf vals w
  = Raise (TypeError "Cannot read properties of undefined (reading 'path')") w.
Proof.
  induction vals as [|v vals IH]; intros w Hex; [inversion Hex|].
  cbn [mapM]. unfold bind at 1. unfold entryOf at 1.
  destruct (file_of v) as [f|] eqn:Hf; [|reflexivity].
  apply Exists_cons in Hex as [Hex|Hex]; [congruence|].
  cbn. unfold bind. rewrite (IH w Hex). reflexivity.
Qed.

Lemma assembleDocument_entries_witness :
  exists doc w',
    assembleDocument demoEnv (map VJob [jobDone1; jobDone2]) (worldOf completedStore)
    = Ret doc w'
    /\ doc !! "a.js" = Some (Some "{}")
    /\ size doc = 3%nat.
Proof.
  destruct (assembleDocument_entries demoEnv jobDone1 [jobDone2] (worldOf completedStore))
    as (doc & w' & Hrun & _ & _ & _ & Hp & Hsize).
  exists doc, w'. split; [exact Hrun|]. split.
  - rewrite (Hp "a.js"); [reflexivity|]. intros H. vm_compute in H. discriminate H.
  - apply Hsize.
    + apply (bool_decide_unpack (NoDup (map (fun j => path (file j)) [jobDone1; jobDone2]))).
      vm_compute. exact I.
    + intros j Hj. apply (bool_decide_unpack (path (file j) <> "metadata")).
      revert j Hj. apply Forall_forall.
      apply (bool_decide_unpack
               (Forall (fun j => bool_decide (path (file j) <> "metadata"))
                       [jobDone1; jobDone2])).
      vm_compute. exact I.
Defined.

(** X6. Given an empty listing, the assembly returns the empty document
    without asking the provider and without a metadata entry; given a
    listing with a value that has no [file], as a membership marker is, it
    throws a TypeError before it asks the provider, and changes nothing. *)
Theorem assembleDocument_edge_cases (E : Env) (vals : list Value) (w : World) :
  Exists (fun v => file_of v = None) vals ->
  assembleDocument E [] w = Ret ∅ w
  /\ assembleDocument E vals w
     = Raise (TypeError "Cannot read properties of undefined (reading 'path')") w.
Proof.
  intros Hex. split; [reflexivity|]. unfold assembleDocument.
  destruct vals as [|v vals]; [inversion Hex|].
  unfold bind. rewrite (mapM_entryOf_raises (v :: vals) w Hex). reflexivity.
Qed.

Lemma assembleDocument_edge_cases_witness :
  assembleDocument demoEnv [] (worldOf completedStore) = Ret ∅ (worldOf completedStore)
  /\ assembleDocument demoEnv [VJob jobDone1; VStr "completed"] (worldOf completedStore)
     = Raise (TypeError "Cannot read properties of undefined (reading 'path')")
         (worldOf completedStore).
Proof.
  apply (assembleDocument_edge_cases demoEnv [VJob jobDone1; VStr "completed"]
           (worldOf completedStore)).
  apply Exists_cons_tl, Exists_cons_hd. reflexivity.
Defined.

(** * Further properties of the repository lister *)

Lemma readsOnly_ret {A} (a : A) : readsOnly (ret a).
Proof. intros w. cbn. auto. Qed.

Lemma readsOnly_throw {A} (e : Exn) : readsOnly (@throw A e).
Proof. intros w. cbn. auto. Qed.

Lemma readsOnly_lift {A} (o : Outcome A) : readsOnly (lift o).
Proof. destruct o; intros w; cbn; auto. Qed.

Lemma readsOnly_bind {A B} (m : M A) (k : A -> M B) :
  readsOnly m -> (forall a, readsOnly (k a)) -> readsOnly (bind m k).
Proof.
  intros Hm Hk w. unfold bind. specialize (Hm w).
  destruct (m w) as [a w1|e w1|]; [|exact Hm|exact I].
  specialize (Hk a w1). destruct Hm as (H1 & H2 & H3 & H4 & H5).
  destruct (k a w1); [| |exact I]; destruct Hk as (K1 & K2 & K3 & K4 & K5);
    repeat split; (congruence || lia).
Qed.

Lemma readsOnly_tryCatch {A} (m : M A) (h : Exn -> M A) :
  readsOnly m -> (forall e, readsOnly (h e)) -> readsOnly (tryCatch m h).
Proof.
  intros Hm Hh w. unfold tryCatch. specialize (Hm w).
  destruct (m w) as [a w1|e w1|]; [exact Hm| |exact I].
  specialize (Hh e w1). destruct Hm as (H1 & H2 & H3 & H4 & H5).
  destruct (h e w1); [| |exact I]; destruct Hh as (K1 & K2 & K3 & K4 & K5);
    repeat split; (congruence || lia).
Qed.

Lemma readsOnly_js_fetch E url : readsOnly (js_fetch E url).
Proof.
  intros w. unfold js_fetch.
  destruct (fetch E url (requests w)); cbn; repeat split; lia.
Qed.

Lemma readsOnly_iterate data : readsOnly (iterate data).
Proof. destruct data; intros w; cbn; auto. Qed.

Lemma readsOnly_fetchFiles (E : Env) (owner repo : string) :
  forall (fuel : nat) (p : string), readsOnly (fetchFiles E fuel owner repo p).
Proof.
  induction fuel as [|fuel IH]; intros p; [intros w; exact I|].
  cbn [fetchFiles]. apply readsOnly_tryCatch; [|intros e; apply readsOnly_throw].
  apply readsOnly_bind; [apply readsOnly_js_fetch|]. intros response.
  destruct (negb (ok response)); [apply readsOnly_throw|].
  apply readsOnly_bind; [apply readsOnly_lift|]. intros data.
  apply readsOnly_bind; [apply readsOnly_iterate|]. intros items.
  match goal with
  | |- readsOnly (?each items []) =>
    assert (forall its fs, readsOnly (each its fs)) as Heach; [|apply Heach]
  end.
  induction its as [|[ip iurl|ip|] its IHi]; intros files.
  - apply readsOnly_ret.
  - apply IHi.
  - apply readsOnly_bind; [apply IH|]. intros more. apply IHi.
  - apply IHi.
Qed.

(** X7. The repository lister only reads: whether it returns or throws, at
    any depth, the store, the local disk, the clock and the uuid generator
    are what they were, and the request counter has not gone down. *)
Theorem fetchFiles_reads_only
  (E : Env) (fuel : nat) (owner repo p : string) (w : World) :
  match fetchFiles E fuel owner repo p w with
  | Ret _ w' | Raise _ w' =>
      kv w' = kv w /\ disk w' = disk w /\ now w' = now w
      /\ uuids w' = uuids w /\ (requests w <= requests w')%nat
  | OutOfFuel => True
  end.
Proof. apply readsOnly_fetchFiles. Qed.

Lemma bind_Ret {A B} (m : M A) (k : A -> M B) (w w1 : World) (a : A) :
  m w = Ret a w1 -> bind m k w = k a w1.
Proof. intros H. unfold bind. rewrite H. reflexivity. Qed.

Lemma bind_Raise {A B} (m : M A) (k : A -> M B) (w w1 : World) (e : Exn) :
  m w = Raise e w1 -> bind m k w = Raise e w1.
Proof. intros H. unfold bind. rewrite H. reflexivity. Qed.

Lemma filesUnder_dir p children :
  filesUnder (DirNode p children) = flat_map filesUnder children.
Proof.
  induction children as [|c cs IH]; [reflexivity|].
  cbn in *. rewrite IH. reflexivity.
Qed.

Lemma levels_dir p children fuel :
  (levels (DirNode p children) <= S fuel)%nat ->
  Forall (fun c => (levels c <= fuel)%nat) children.
Proof.
  induction children as [|c cs IH]; intros H; [constructor|].
  cbn in H. constructor; [lia|]. apply IH. cbn. lia.
Qed.

Lemma directories_dir p children :
  directories (DirNode p children) = S (sum_list_with directories children).
Proof.
  reflexivity.
Qed.

Lemma serves_dir E owner repo p children :
  serves E owner repo (DirNode p children) ->
  (forall k, exists r, fetch E (contentsUrl owner repo p) k = Ok r
                       /\ ok r = true
                       /\ json r = Ok (JListing (map itemOf children)))
  /\ Forall (serves E owner repo) children.
Proof.
  intros [Hl Hc]. split; [exact Hl|]. clear Hl.
  induction children as [|c cs IH]; [constructor|].
  destruct Hc as [Hc Hcs]. constructor; [exact Hc|apply IH, Hcs].
Qed.

(** X8. When the provider serves a tree of directories and files, the
    lister, given fuel for the nesting of the tree, returns exactly the
    regular files of the tree, depth first in the order of the listings, a
    directory contributing what is under it and nothing for itself; it
    sends one request per directory. *)
Theorem fetchFiles_flattens_tree (E : Env) (owner repo : string) :
  forall (fuel : nat) (p : string) (children : list Node) (w : World),
  serves E owner repo (DirNode p children) ->
  (levels (DirNode p children) <= fuel)%nat ->
  exists w',
    fetchFiles E fuel owner repo p w = Ret (filesUnder (DirNode p children)) w'
    /\ requests w' = (requests w + directories (DirNode p children))%nat.
Proof.
  induction fuel as [|fuel IH]; intros p children w Hs Hl; [cbn in Hl; lia|].
  apply serves_dir in Hs as [Hlist Hcs]. apply levels_dir in Hl.
  rewrite filesUnder_dir, directories_dir.
  destruct (Hlist (requests w)) as (r & Hr & Hok & Hj).
  cbn [fetchFiles]. fold (contentsUrl owner repo p).
  unfold tryCatch. unfold bind at 1. unfold js_fetch. rewrite Hr, Hok. cbn [negb].
  unfold bind at 1. rewrite Hj. cbn [lift]. unfold ret at 1.
  unfold bind at 1. cbn [iterate]. unfold ret at 1.
  set (w1 := addEvent _ (setRequests (S (requests w)) w)).
  match goal with
  | |- exists w', match ?each (map itemOf children) [] w1 with _ => _ end = _ /\ _ =>
    assert (forall cs files w2,
              Forall (serves E owner repo) cs ->
              Forall (fun c => (levels c <= fuel)%nat) cs ->
              exists w', each (map itemOf cs) files w2
                         = Ret (files ++ flat_map filesUnder cs) w'
                /\ requests w' = (requests w2 + sum_list_with directories cs)%nat)
      as Heach
  end.
  { induction cs as [|c cs IHc]; intros files w2 Hsv Hlv.
    - exists w2. cbn. rewrite app_nil_r. split; [reflexivity|lia].
    - apply Forall_cons in Hsv as [Hc Hsv]. apply Forall_cons in Hlv as [Hlc Hlv].
      destruct c as [fp furl|dp dcs]; cbn [map itemOf flat_map sum_list_with].
      + destruct (IHc (files ++ [{| path := fp; download_url := furl |}]) w2 Hsv Hlv)
          as (w' & Hrun & Hreq).
        exists w'. rewrite Hrun. rewrite <- app_assoc. split; [reflexivity|].
        cbn. exact Hreq.
      + destruct (IH dp dcs w2 Hc Hlc) as (w3 & Hrun3 & Hreq3).
        destruct (IHc (files ++ filesUnder (DirNode dp dcs)) w3 Hsv Hlv)
          as (w' & Hrun & Hreq).
        exists w'. rewrite (bind_Ret _ _ _ _ _ Hrun3), Hrun.
        rewrite <- app_assoc.
        split; [reflexivity|]. rewrite Hreq, Hreq3. lia. }
  destruct (Heach children [] w1 Hcs Hl) as (w' & Hrun & Hreq).
  exists w'. rewrite Hrun. split; [reflexivity|]. rewrite Hreq. cbn. lia.
Qed.

Lemma fetchFiles_flattens_tree_witness :
  serves demoEnv "o" "r" demoTree
  /\ exists w',
    fetchFiles demoEnv 3 "o" "r" "" (worldOf ∅)
    = Ret [{| path := "a.js"; download_url := "https://raw.example/o/r/a.js" |};
           {| path := "b.png"; download_url := "https://raw.example/o/r/b.png" |};
           {| path := "dir/c.json";
              download_url := "https://raw.example/o/r/dir/c.json" |}] w'
    /\ requests w' = 2%nat.
Proof.
  assert (H : serves demoEnv "o" "r" demoTree).
  { cbn. repeat split; intros k; eexists; repeat split; reflexivity. }
  split; [exact H|].
  apply (fetchFiles_flattens_tree demoEnv "o" "r" 3 "" _ (worldOf ∅) H).
  cbn. lia.
Defined.

(** X9. A request for a listing that fails is not retried: the lister sends
    this one request, waits for nothing, and throws; for a status that is
    not a success the error is "Failed to fetch files: " with the status
    text, for a rejected request it is the rejection itself. *)
Theorem fetchFiles_failed_listing_not_retried
  (E : Env) (fuel : nat) (owner repo p : string) (w : World) :
  listingFails E owner repo p (requests w) ->
  exists e w',
    fetchFiles E (S fuel) owner repo p w = Raise e w'
    /\ requests w' = S (requests w)
    /\ trace w' = trace w ++ [EvFetch (contentsUrl owner repo p)]
    /\ now w' = now w
    /\ (forall r, fetch E (contentsUrl owner repo p) (requests w) = Ok r ->
                  e = Error ("Failed to fetch files: " +:+ statusText r))
    /\ (forall e0, fetch E (contentsUrl owner repo p) (requests w) = Throw e0 ->
                   e = e0).
Proof.
  unfold listingFails. intros Hf. cbn [fetchFiles]. fold (contentsUrl owner repo p).
  unfold tryCatch, bind at 1, js_fetch.
  destruct (fetch E (contentsUrl owner repo p) (requests w)) as [r|e0].
  - rewrite Hf. cbn. eexists _, _. split; [reflexivity|]. cbn.
    repeat split; try reflexivity; intros; congruence.
  - cbn. eexists _, _. split; [reflexivity|]. cbn.
    repeat split; try reflexivity; intros; congruence.
Qed.

Lemma fetchFiles_failed_listing_not_retried_witness :
  listingFails demoEnv "nobody" "nothing" "" 0
  /\ exists e w',
    fetchFiles demoEnv 3 "nobody" "nothing" "" (worldOf ∅) = Raise e w'
    /\ requests w' = 1%nat
    /\ trace w' = [] ++ [EvFetch (contentsUrl "nobody" "nothing" "")]
    /\ now w' = 1000000
    /\ (forall r, fetch demoEnv (contentsUrl "nobody" "nothing" "") 0 = Ok r ->
                  e = Error ("Failed to fetch files: " +:+ statusText r))
    /\ (forall e0, fetch demoEnv (contentsUrl "nobody" "nothing" "") 0 = Throw e0 ->
                   e = e0).
Proof.
  assert (H : listingFails demoEnv "nobody" "nothing" "" 0) by (vm_compute; exact I).
  split; [exact H|].
  exact (fetchFiles_failed_listing_not_retried demoEnv 2 "nobody" "nothing" ""
           (worldOf ∅) H).
Defined.

(** X10. A failure in the listing of a subdirectory aborts the whole
    traversal: the files collected before the subdirectory are dropped, the
    entries after it are not visited, and the caller gets the error of the
    subdirectory, not a partial list. *)
Theorem fetchFiles_child_failure_aborts
  (E : Env) (fuel : nat) (owner repo p d : string) (resp : Response)
  (before after : list Item) (e : Exn) (w w2 : World) :
  fetch E (contentsUrl owner repo p) (requests w) = Ok resp ->
  ok resp = true ->
  json resp = Ok (JListing (before ++ ItemDir d :: after)) ->
  forallb (fun i => negb (isDirItem i)) before = true ->
  fetchFiles E fuel owner repo d
    (addEvent (EvFetch (contentsUrl owner repo p)) (setRequests (S (requests w)) w))
  = Raise e w2 ->
  fetchFiles E (S fuel) owner repo p w = Raise e w2.
Proof.
  intros Hr Hok Hj Hb Hchild. cbn [fetchFiles]. fold (contentsUrl owner repo p).
  unfold tryCatch. unfold bind at 1. unfold js_fetch. rewrite Hr, Hok. cbn [negb].
  unfold bind at 1. rewrite Hj. cbn [lift]. unfold ret at 1.
  unfold bind at 1. cbn [iterate]. unfold ret at 1.
  set (w1 := addEvent _ (setRequests (S (requests w)) w)) in *.
  match goal with
  | |- match ?each (before ++ ItemDir d :: after) [] w1 with _ => _ end = _ =>
    assert (forall pre files,
              forallb (fun i => negb (isDirItem i)) pre = true ->
              each (pre ++ ItemDir d :: after) files w1 = Raise e w2)
      as Heach
  end.
  { induction pre as [|[ip iurl|ip|] pre IHb]; intros files Hpre.
    - cbn [app]. apply (bind_Raise _ _ _ _ _ Hchild).
    - apply andb_true_iff in Hpre as [_ Hpre]. apply (IHb _ Hpre).
    - discriminate Hpre.
    - apply andb_true_iff in Hpre as [_ Hpre]. apply (IHb _ Hpre). }
  rewrite (Heach before [] Hb). reflexivity.
Qed.

Lemma fetchFiles_child_failure_aborts_witness :
  fetchFiles brokenEnv 2 "o" "r" "" (worldOf ∅)
  = Raise (Error "Failed to fetch files: Not Found")
      (addEvent (EvFetch (contentsUrl "o" "r" "dir"))
         (setRequests 2
            (addEvent (EvFetch (contentsUrl "o" "r" "")) (setRequests 1 (worldOf ∅))))).
Proof.
  apply (fetchFiles_child_failure_aborts brokenEnv 1 "o" "r" "" "dir"
           (okResponse "" (JListing [ItemFile "a.js" "https://raw.example/o/r/a.js";
                                     ItemDir "dir";
                                     ItemFile "z.ts" "https://raw.example/o/r/z.ts"]))
           [ItemFile "a.js" "https://raw.example/o/r/a.js"]
           [ItemFile "z.ts" "https://raw.example/o/r/z.ts"]);
    reflexivity.
Defined.

(** * Further properties of the file classification *)

Lemma chars_app (a b : string) :
  list_ascii_of_string (a +:+ b) = list_ascii_of_string a ++ list_ascii_of_string b.
Proof.
  induction a as [|c a IH]; [reflexivity|].
  change (String c a +:+ b) with (String c (a +:+ b)). cbn. rewrite IH. reflexivity.
Qed.

Lemma chars_length (s : string) : length (list_ascii_of_string s) = String.length s.
Proof. induction s as [|c s IH]; [reflexivity|]. cbn. rewrite IH. reflexivity. Qed.

Lemma strlen_app (a b : string) :
  String.length (a +:+ b) = (String.length a + String.length b)%nat.
Proof.
  induction a as [|c a IH]; [reflexivity|].
  change (String c a +:+ b) with (String c (a +:+ b)). cbn. rewrite IH. reflexivity.
Qed.

Lemma substring_all (s : string) : substring 0 (String.length s) s = s.
Proof. induction s as [|c s IH]; [reflexivity|]. cbn. rewrite IH. reflexivity. Qed.

Lemma substring_skip (a b : string) :
  substring (String.length a) (String.length b) (a +:+ b) = b.
Proof.
  induction a as [|c a IH]; [apply substring_all|].
  change (String c a +:+ b) with (String c (a +:+ b)). cbn. exact IH.
Qed.

Lemma scan_keeps_no_dot : forall (chars : list ascii) (i : Z) (st : ExtState),
  Forall (fun c => isDot c = false) chars -> startDot st = -1 ->
  startDot (extnameScan chars i st) = -1.
Proof.
  induction chars as [|c chars IH]; intros i st Hc Hs; [exact Hs|].
  apply Forall_cons in Hc as [Hd Hc]. cbn [extnameScan].
  destruct (isSlash c).
  - destruct (negb (matchedSlash st)); [exact Hs|apply IH; assumption].
  - rewrite Hd. apply IH; [exact Hc|].
    destruct (endPos st =? -1); cbn [startDot]; rewrite Hs; cbn; auto.
Qed.

Lemma noDot_chars (s : string) :
  noDot s = true -> Forall (fun c => isDot c = false) (rev (list_ascii_of_string s)).
Proof.
  intros H. apply Forall_rev. induction s as [|c s IH]; [constructor|].
  cbn in H. apply andb_true_iff in H as [Hc Hs].
  constructor; [apply negb_true_iff, Hc|apply IH, Hs].
Qed.

Lemma plainName_chars (s : string) :
  plainName s = true -> Forall (fun c => plainChar c = true) (rev (list_ascii_of_string s)).
Proof.
  intros H. apply Forall_rev. induction s as [|c s IH]; [constructor|].
  cbn in H. apply andb_true_iff in H as [Hc Hs].
  constructor; [exact Hc|apply IH, Hs].
Qed.

(** The scan over characters that are neither slashes nor dots, before any
    dot has been seen and after the end of the name has been marked. *)
Lemma scan_plain_marked : forall (chars rest : list ascii) (i e : Z),
  e <> -1 -> Forall (fun c => plainChar c = true) chars ->
  extnameScan (chars ++ rest) i
    {| startDot := -1; startPart := 0; endPos := e; matchedSlash := false;
       preDotState := 0 |}
  = extnameScan rest (i - Z.of_nat (length chars))
      {| startDot := -1; startPart := 0; endPos := e; matchedSlash := false;
         preDotState := 0 |}.
Proof.
  induction chars as [|c chars IH]; intros rest i e He Hc.
  - cbn. f_equal. lia.
  - apply Forall_cons in Hc as [Hp Hc]. unfold plainChar in Hp.
    apply andb_true_iff in Hp as [Hs Hd].
    apply negb_true_iff in Hs. apply negb_true_iff in Hd.
    cbn [app extnameScan endPos startDot]. rewrite Hs, Hd.
    replace (e =? -1) with false by (symmetry; apply Z.eqb_neq; exact He).
    cbn [endPos startDot startPart matchedSlash preDotState Z.eqb Pos.eqb negb].
    rewrite (IH rest (i - 1) e He Hc). f_equal.
    cbn [length]. lia.
Qed.

Lemma scan_plain : forall (chars rest : list ascii) (i : Z),
  0 <= i -> chars <> [] -> Forall (fun c => plainChar c = true) chars ->
  extnameScan (chars ++ rest) i scanStart
  = extnameScan rest (i - Z.of_nat (length chars))
      {| startDot := -1; startPart := 0; endPos := i + 1; matchedSlash := false;
         preDotState := 0 |}.
Proof.
  intros [|c chars] rest i Hi Hne Hc; [congruence|].
  apply Forall_cons in Hc as [Hp Hc]. unfold plainChar in Hp.
  apply andb_true_iff in Hp as [Hs Hd].
  apply negb_true_iff in Hs. apply negb_true_iff in Hd.
  cbn [app extnameScan]. rewrite Hs, Hd. unfold scanStart.
  cbn [endPos startDot startPart matchedSlash preDotState Z.eqb Pos.eqb negb].
  rewrite (scan_plain_marked chars rest (i - 1) (i + 1)) by (auto; lia).
  f_equal. cbn [length]. lia.
Qed.

(** Once a dot and a character before it have been seen, the rest of the
    path changes neither the extension nor the verdict. *)
Lemma scan_tail : forall (chars : list ascii) (i : Z) (st : ExtState),
  startDot st <> -1 -> endPos st <> -1 -> matchedSlash st = false ->
  preDotState st <> 0 ->
  startDot (extnameScan chars i st) = startDot st
  /\ endPos (extnameScan chars i st) = endPos st
  /\ preDotState (extnameScan chars i st) <> 0.
Proof.
  induction chars as [|c chars IH]; intros i st Hs He Hm Hp; [auto|].
  cbn [extnameScan]. rewrite Hm. cbn [negb].
  destruct (isSlash c); [cbn; auto|].
  replace (endPos st =? -1) with false by (symmetry; apply Z.eqb_neq; exact He).
  replace (startDot st =? -1) with false by (symmetry; apply Z.eqb_neq; exact Hs).
  cbn [negb].
  destruct (isDot c).
  - destruct (IH (i - 1) {| startDot := startDot st; startPart := startPart st;
                            endPos := endPos st; matchedSlash := matchedSlash st;
                            preDotState := 1 |}) as (H1 & H2 & H3);
      cbn; auto; lia.
  - destruct (IH (i - 1) {| startDot := startDot st; startPart := startPart st;
                            endPos := endPos st; matchedSlash := matchedSlash st;
                            preDotState := -1 |}) as (H1 & H2 & H3);
      cbn; auto; lia.
Qed.

Lemma scan_step_first_dot (rest : list ascii) (i e sp : Z) :
  e <> -1 ->
  extnameScan ("."%char :: rest) i
    {| startDot := -1; startPart := sp; endPos := e; matchedSlash := false;
       preDotState := 0 |}
  = extnameScan rest (i - 1)
      {| startDot := i; startPart := sp; endPos := e; matchedSlash := false;
         preDotState := 0 |}.
Proof.
  intros He. cbn [extnameScan]. change (isSlash ".") with false.
  change (isDot ".") with true.
  cbn [endPos startDot startPart matchedSlash preDotState].
  replace (e =? -1) with false by (symmetry; apply Z.eqb_neq; exact He).
  cbn [endPos startDot startPart matchedSlash preDotState Z.eqb Pos.eqb negb].
  reflexivity.
Qed.

Lemma scan_step_before_dot (c : ascii) (rest : list ascii) (i sd e sp : Z) :
  isSlash c = false -> sd <> -1 -> e <> -1 ->
  exists pd, pd <> 0
    /\ extnameScan (c :: rest) i
         {| startDot := sd; startPart := sp; endPos := e; matchedSlash := false;
            preDotState := 0 |}
       = extnameScan rest (i - 1)
           {| startDot := sd; startPart := sp; endPos := e; matchedSlash := false;
              preDotState := pd |}.
Proof.
  intros Hc Hs He. cbn [extnameScan]. rewrite Hc.
  cbn [endPos startDot startPart matchedSlash preDotState].
  replace (e =? -1) with false by (symmetry; apply Z.eqb_neq; exact He).
  cbn [endPos startDot startPart matchedSlash preDotState].
  replace (sd =? -1) with false by (symmetry; apply Z.eqb_neq; exact Hs).
  cbn [negb]. destruct (isDot c); [exists 1|exists (-1)]; split; (lia || reflexivity).
Qed.

Lemma extname_suffix_state (pre ext : string) (c : ascii) :
  isSlash c = false -> ext <> "" -> plainName ext = true ->
  let p := pre +:+ String c ("." +:+ ext) in
  let st := extnameScan (rev (list_ascii_of_string p))
              (Z.of_nat (String.length p) - 1) scanStart in
  startDot st = Z.of_nat (String.length pre) + 1
  /\ endPos st = Z.of_nat (String.length p)
  /\ preDotState st <> 0.
Proof.
  intros Hc Hne Hpl p st.
  assert (Hlen : String.length p = (String.length pre + 2 + String.length ext)%nat).
  { unfold p. rewrite strlen_app. change ("." +:+ ext) with (String "." ext).
    cbn [String.length]. lia. }
  assert (Hn : (0 < String.length ext)%nat) by (destruct ext; [congruence|cbn; lia]).
  assert (Hrev : rev (list_ascii_of_string p)
                 = rev (list_ascii_of_string ext)
                   ++ "."%char :: c :: rev (list_ascii_of_string pre)).
  { unfold p. rewrite chars_app. change ("." +:+ ext) with (String "." ext).
    cbn [list_ascii_of_string].
    rewrite rev_app_distr. cbn [rev]. rewrite <- !app_assoc. reflexivity. }
  subst st. rewrite Hrev, Hlen. clear Hrev.
  rewrite scan_plain.
  - rewrite length_rev, chars_length.
    rewrite scan_step_first_dot by lia.
    destruct (scan_step_before_dot c (rev (list_ascii_of_string pre))
                (Z.of_nat (String.length pre + 2 + String.length ext) - 1
                 - Z.of_nat (String.length ext) - 1)
                (Z.of_nat (String.length pre + 2 + String.length ext) - 1
                 - Z.of_nat (String.length ext))
                (Z.of_nat (String.length pre + 2 + String.length ext) - 1 + 1) 0)
      as (pd & Hpd & ->); [exact Hc|lia|lia|].
    match goal with
    | |- context [extnameScan ?l ?i ?s] =>
      destruct (scan_tail l i s) as (H1 & H2 & H3); cbn; try lia
    end.
    rewrite H1, H2. cbn. split; [lia|]. split; [lia|exact H3].
  - lia.
  - intros H. apply (f_equal (@length ascii)) in H.
    rewrite length_rev, chars_length in H. cbn in H. lia.
  - apply plainName_chars, Hpl.
Qed.

Lemma extname_suffix (pre ext : string) (c : ascii) :
  isSlash c = false -> ext <> "" -> plainName ext = true ->
  extname (pre +:+ String c ("." +:+ ext)) = "." +:+ ext.
Proof.
  intros Hc Hne Hpl.
  destruct (extname_suffix_state pre ext c Hc Hne Hpl) as (H1 & H2 & H3).
  unfold extname. fold scanStart.
  cbv zeta in H1, H2, H3.
  set (st := extnameScan _ _ scanStart) in *.
  assert (Hlen : String.length (pre +:+ String c ("." +:+ ext))
                 = (String.length pre + 2 + String.length ext)%nat).
  { rewrite strlen_app. change ("." +:+ ext) with (String "." ext).
    cbn [String.length]. lia. }
  assert (Hn : (0 < String.length ext)%nat) by (destruct ext; [congruence|cbn; lia]).
  rewrite Hlen in H2.
  replace (startDot st =? -1) with false by (symmetry; apply Z.eqb_neq; lia).
  replace (endPos st =? -1) with false by (symmetry; apply Z.eqb_neq; lia).
  replace (preDotState st =? 0) with false by (symmetry; apply Z.eqb_neq; lia).
  replace (startDot st =? endPos st - 1) with false by (symmetry; apply Z.eqb_neq; lia).
  rewrite andb_false_r. cbn [orb andb].
  rewrite H1, H2.
  replace (Z.to_nat (Z.of_nat (String.length pre) + 1))
    with (String.length (pre +:+ String c ""))
    by (rewrite strlen_app; cbn [String.length]; lia).
  replace (Z.to_nat (Z.of_nat (String.length pre + 2 + String.length ext)
                     - (Z.of_nat (String.length pre) + 1)))
    with (String.length ("." +:+ ext))
    by (change ("." +:+ ext) with (String "." ext); cbn [String.length]; lia).
  replace (pre +:+ String c ("." +:+ ext))
    with ((pre +:+ String c "") +:+ ("." +:+ ext))
    by (rewrite append_assoc; reflexivity).
  apply substring_skip.
Qed.

Lemma lowerChar_plain (c : ascii) : plainChar (lowerChar c) = plainChar c.
Proof. destruct c as [[] [] [] [] [] [] [] []]; reflexivity. Qed.

Lemma lowerChar_idem (c : ascii) : lowerChar (lowerChar c) = lowerChar c.
Proof. destruct c as [[] [] [] [] [] [] [] []]; reflexivity. Qed.

Lemma toLowerCase_plain (s : string) : plainName (toLowerCase s) = plainName s.
Proof.
  induction s as [|c s IH]; [reflexivity|]. cbn. rewrite lowerChar_plain, IH.
  reflexivity.
Qed.

Lemma toLowerCase_idem (s : string) : toLowerCase (toLowerCase s) = toLowerCase s.
Proof.
  induction s as [|c s IH]; [reflexivity|]. cbn. rewrite lowerChar_idem, IH.
  reflexivity.
Qed.

Lemma getFileType_by_extension (f g : string) :
  toLowerCase (extname f) = toLowerCase (extname g) -> getFileType f = getFileType g.
Proof. intros H. unfold getFileType. rewrite H. reflexivity. Qed.

(** X11. The extension of a path is everything from the last dot of its
    last component, whenever a character of the component precedes that dot
    and at least one follows it; so the class of a file depends on no
    directory and no base name, and not on the case of the extension. *)
Theorem getFileType_depends_on_extension_only (pre ext : string) (c : ascii) :
  isSlash c = false -> ext <> "" -> plainName ext = true ->
  extname (pre +:+ String c ("." +:+ ext)) = "." +:+ ext
  /\ getFileType (pre +:+ String c ("." +:+ ext))
     = getFileType ("x." +:+ toLowerCase ext).
Proof.
  intros Hc Hne Hpl. split; [apply extname_suffix; assumption|].
  apply getFileType_by_extension.
  rewrite (extname_suffix pre ext c Hc Hne Hpl).
  assert (Hne' : toLowerCase ext <> "") by (destruct ext; [congruence|discriminate]).
  assert (Hpl' : plainName (toLowerCase ext) = true)
    by (rewrite toLowerCase_plain; exact Hpl).
  change ("x." +:+ toLowerCase ext) with ("" +:+ String "x" ("." +:+ toLowerCase ext)).
  rewrite (extname_suffix "" (toLowerCase ext) "x" eq_refl Hne' Hpl').
  change ("." +:+ ext) with (String "." ext).
  change ("." +:+ toLowerCase ext) with (String "." (toLowerCase ext)).
  cbn [toLowerCase]. rewrite toLowerCase_idem. reflexivity.
Qed.

Lemma getFileType_depends_on_extension_only_witness :
  extname ("assets/img/Logo.v2" +:+ String "x" ("." +:+ "PNG")) = "." +:+ "PNG"
  /\ getFileType ("assets/img/Logo.v2" +:+ String "x" ("." +:+ "PNG"))
     = getFileType ("x." +:+ toLowerCase "PNG").
Proof.
  apply (getFileType_depends_on_extension_only "assets/img/Logo.v2" "PNG" "x");
    [reflexivity|discriminate|reflexivity].
Defined.

Lemma extname_final_no_dot (p : string) (st : ExtState) :
  startDot st = -1 \/ preDotState st = 0 ->
  (if (startDot st =? -1) || (endPos st =? -1) || (preDotState st =? 0)
      || ((preDotState st =? 1) && (startDot st =? endPos st - 1)
          && (startDot st =? startPart st + 1))
   then ""
   else substring (Z.to_nat (startDot st)) (Z.to_nat (endPos st - startDot st)) p)
  = "".
Proof.
  intros [H|H]; rewrite H; cbn [Z.eqb Pos.eqb orb]; [reflexivity|].
  rewrite orb_true_r. reflexivity.
Qed.

Lemma scan_first_dot (rest : list ascii) (i : Z) :
  extnameScan ("."%char :: rest) i scanStart
  = extnameScan rest (i - 1)
      {| startDot := i; startPart := 0; endPos := i + 1; matchedSlash := false;
         preDotState := 0 |}.
Proof. reflexivity. Qed.

Lemma scan_stops_at_slash (rest : list ascii) (i : Z) (st : ExtState) :
  matchedSlash st = false ->
  preDotState (extnameScan ("/"%char :: rest) i st) = preDotState st.
Proof. intros H. cbn [extnameScan]. change (isSlash "/") with true. rewrite H. reflexivity. Qed.

(** X12. A path without any dot has no extension, and neither has a path
    whose last component starts with its only dot, as .gitignore and
    src/.env do; such files are of the class Unknown, which the Enqueuer does
    not leave out. *)
Theorem files_without_extension_are_unknown (p dir name : string) :
  noDot p = true ->
  plainName name = true ->
  dir = "" \/ (exists d, dir = d +:+ "/") ->
  (extname p = "" /\ getFileType p = "Unknown")
  /\ (extname (dir +:+ "." +:+ name) = ""
      /\ getFileType (dir +:+ "." +:+ name) = "Unknown").
Proof.
  intros Hp Hpl Hdir.
  assert (Hun : forall q, extname q = "" -> getFileType q = "Unknown").
  { intros q Hq. unfold getFileType. rewrite Hq. reflexivity. }
  split.
  - assert (extname p = "") as He; [|split; [exact He|apply Hun, He]].
    unfold extname. apply extname_final_no_dot. left.
    apply scan_keeps_no_dot; [apply noDot_chars, Hp|reflexivity].
  - assert (extname (dir +:+ "." +:+ name) = "") as He;
      [|split; [exact He|apply Hun, He]].
    unfold extname. apply extname_final_no_dot. right. fold scanStart.
    set (q := dir +:+ "." +:+ name).
    assert (Hrev : rev (list_ascii_of_string q)
                   = rev (list_ascii_of_string name)
                     ++ "."%char :: rev (list_ascii_of_string dir)).
    { unfold q. rewrite chars_app. change ("." +:+ name) with (String "." name).
      cbn [list_ascii_of_string]. rewrite rev_app_distr. cbn [rev].
      rewrite <- app_assoc. reflexivity. }
    rewrite Hrev.
    assert (Hi : 0 <= Z.of_nat (String.length q) - 1).
    { unfold q. rewrite strlen_app. change ("." +:+ name) with (String "." name).
      cbn [String.length]. lia. }
    revert Hi. generalize (Z.of_nat (String.length q) - 1). intros i Hi.
    assert (Hrest : forall j st, matchedSlash st = false -> preDotState st = 0 ->
              preDotState (extnameScan (rev (list_ascii_of_string dir)) j st) = 0).
    { intros j st Hm Hz. destruct Hdir as [->|[d ->]]; [exact Hz|].
      rewrite chars_app. cbn [list_ascii_of_string]. rewrite rev_app_distr.
      cbn [rev app]. rewrite scan_stops_at_slash; assumption. }
    destruct (rev (list_ascii_of_string name)) as [|c0 chars] eqn:Hname.
    + cbn [app]. rewrite scan_first_dot. apply Hrest; reflexivity.
    + rewrite <- Hname.
      rewrite scan_plain; [|exact Hi|congruence|apply plainName_chars, Hpl].
      rewrite scan_step_first_dot by lia. apply Hrest; reflexivity.
Qed.

Lemma files_without_extension_are_unknown_witness :
  (extname "src/Makefile" = "" /\ getFileType "src/Makefile" = "Unknown")
  /\ (extname ("src/" +:+ "." +:+ "gitignore") = ""
      /\ getFileType ("src/" +:+ "." +:+ "gitignore") = "Unknown").
Proof.
  apply (files_without_extension_are_unknown "src/Makefile" "src/" "gitignore").
  - reflexivity.
  - reflexivity.
  - right. exists "src". reflexivity.
Defined.


(** * Further properties of the waits *)


Lemma fetchFileLoop_time E url : forall remaining attempt w,
  1 <= attempt -> (0 < remaining)%nat -> attempt + Z.of_nat remaining = 6 ->
  match fetchFileLoop E remaining attempt url w with
  | Ret _ w' | Raise _ w' =>
      now w <= now w' <= now w + (32000 - 1000 * 2 ^ attempt)
  | OutOfFuel => False
  end.
Proof.
  induction remaining as [|r IH]; intros attempt w H0 H1 Ha; [lia|].
  cbn [fetchFileLoop]. replace (attempt <=? 5) with true by lia.
  assert (Hpow : 2 ^ attempt <= 32).
  { change 32 with (2 ^ 5). apply Z.pow_le_mono_r; lia. }
  assert (Hpos : 0 < 2 ^ attempt) by (apply Z.pow_pos_nonneg; lia).
  unfold tryCatch. rewrite fetchFileAttempt_eq. cbn zeta.
  destruct (attemptText E url (requests w)) as [t|]; [cbn; lia|].
  destruct (attempt =? 5) eqn:H5.
  - apply Z.eqb_eq in H5. subst attempt. cbn. lia.
  - apply Z.eqb_neq in H5. unfold bind at 1. unfold sleep at 1.
    match goal with
    | |- context [fetchFileLoop E r (attempt + 1) url ?w1] =>
      specialize (IH (attempt + 1) w1 ltac:(lia) ltac:(lia) ltac:(lia))
    end.
    assert (Hs : 2 ^ (attempt + 1) = 2 * 2 ^ attempt)
      by (rewrite Z.pow_add_r by lia; lia).
    destruct (fetchFileLoop E r (attempt + 1) url _); cbn in IH |- *;
      [lia|lia|exact IH].
Qed.

Lemma downloadFileLoop_time E url filePath : forall remaining attempt w,
  1 <= attempt -> (0 < remaining)%nat -> attempt + Z.of_nat remaining = 6 ->
  match downloadFileLoop E remaining attempt url filePath w with
  | Ret _ w' | Raise _ w' =>
      now w <= now w' <= now w + (32000 - 1000 * 2 ^ attempt)
  | OutOfFuel => False
  end.
Proof.
  induction remaining as [|r IH]; intros attempt w H0 H1 Ha; [lia|].
  cbn [downloadFileLoop]. replace (attempt <=? 5) with true by lia.
  assert (Hpow : 2 ^ attempt <= 32).
  { change 32 with (2 ^ 5). apply Z.pow_le_mono_r; lia. }
  assert (Hpos : 0 < 2 ^ attempt) by (apply Z.pow_pos_nonneg; lia).
  unfold tryCatch. rewrite downloadFileAttempt_eq. cbn zeta.
  destruct (attemptBytes E url filePath (requests w)) as [t|]; [cbn; lia|].
  destruct (attempt =? 5) eqn:H5.
  - apply Z.eqb_eq in H5. subst attempt. cbn. lia.
  - apply Z.eqb_neq in H5. unfold bind at 1. unfold sleep at 1.
    match goal with
    | |- context [downloadFileLoop E r (attempt + 1) url filePath ?w1] =>
      specialize (IH (attempt + 1) w1 ltac:(lia) ltac:(lia) ltac:(lia))
    end.
    assert (Hs : 2 ^ (attempt + 1) = 2 * 2 ^ attempt)
      by (rewrite Z.pow_add_r by lia; lia).
    destruct (downloadFileLoop E r (attempt + 1) url filePath _); cbn in IH |- *;
      [lia|lia|exact IH].
Qed.

(** X14. Both retry-fetch primitives end, in every state of the network,
    and the time they spend waiting is bounded: at most 30750 ms for
    [fetchFile], its initial wait included, and at most 30000 ms for
    [downloadFile]. *)
Theorem retry_fetch_waits_are_bounded (E : Env) (url filePath : string) (w : World) :
  match fetchFile E url w with
  | Ret _ w' | Raise _ w' => now w + 750 <= now w' <= now w + 30750
  | OutOfFuel => False
  end
  /\ match downloadFile E url filePath w with
     | Ret _ w' | Raise _ w' => now w <= now w' <= now w + 30000
     | OutOfFuel => False
     end.
Proof.
  split.
  - unfold fetchFile, bind, sleep.
    pose proof (fetchFileLoop_time E url 5 1
                  (addEvent (EvSleep 750) (setNow (now w + Z.max 0 750) w))
                  ltac:(lia) ltac:(lia) ltac:(lia)) as H.
    destruct (fetchFileLoop E 5 1 url _); cbn in H |- *; [lia|lia|exact H].
  - unfold downloadFile.
    pose proof (downloadFileLoop_time E url filePath 5 1 w ltac:(lia) ltac:(lia)
                  ltac:(lia)) as H.
    destruct (downloadFileLoop E 5 1 url filePath w); cbn in H |- *; [lia|lia|exact H].
Qed.

(** * Further properties of the Enqueuer *)

Lemma append_inv_tail (s : string) : forall a b : string,
  a +:+ s = b +:+ s -> a = b.
Proof.
  induction a as [|c a IH]; intros b H.
  - destruct b as [|d b]; [reflexivity|]. exfalso.
    apply (f_equal String.length) in H.
    change ("" +:+ s) with s in H. rewrite strlen_app in H. cbn in H. lia.
  - destruct b as [|d b].
    + exfalso. apply (f_equal String.length) in H.
      change ("" +:+ s) with s in H. rewrite strlen_app in H. cbn in H. lia.
    + change (String c (a +:+ s) = String d (b +:+ s)) in H.
      injection H as -> H. f_equal. apply IH, H.
Qed.

Lemma metadataKey_inj repoKey p q :
  metadataKey repoKey p = metadataKey repoKey q -> p = q.
Proof.
  unfold metadataKey. intros H.
  apply (inj (String.app repoKey)) in H. apply (inj (String.app ":")) in H.
  apply append_inv_tail in H. exact H.
Qed.

Lemma prefix_cons (a b : ascii) (s t : string) :
  String.prefix (String a s) (String b t)
  = if ascii_dec a b then String.prefix s t else false.
Proof. reflexivity. Qed.

(** A key that starts with a word and a colon is not the fingerprint key of
    an owner whose name has no colon. *)
Lemma prefix_word_colon (word : string) : forall (o x : string),
  noSlash word = true -> hasColon o = false ->
  String.prefix (word +:+ ":") (o +:+ "/" +:+ x) = false.
Proof.
  induction word as [|b word IH]; intros o x Hw Ho.
  - change ("" +:+ ":") with (String ":" "").
    destruct o as [|c o]; [reflexivity|].
    change (String c o +:+ "/" +:+ x) with (String c (o +:+ "/" +:+ x)).
    cbn [hasColon] in Ho. apply orb_false_iff in Ho as [Hc _].
    rewrite prefix_cons. destruct (ascii_dec ":" c) as [<-|]; [discriminate Hc|reflexivity].
  - change (String b word +:+ ":") with (String b (word +:+ ":")).
    unfold noSlash in Hw. cbn [list_ascii_of_string forallb] in Hw.
    apply andb_true_iff in Hw as [Hb Hw].
    destruct o as [|c o].
    + change ("" +:+ "/" +:+ x) with (String "/" x). rewrite prefix_cons.
      destruct (ascii_dec b "/") as [->|]; [discriminate Hb|reflexivity].
    + change (String c o +:+ "/" +:+ x) with (String c (o +:+ "/" +:+ x)).
      cbn [hasColon] in Ho. apply orb_false_iff in Ho as [_ Ho].
      rewrite prefix_cons. destruct (ascii_dec b c); [|reflexivity].
      apply IH; assumption.
Qed.

Lemma metadataKey_not_jobKey owner repo p jobId :
  hasColon owner = false ->
  jobKey jobId <> metadataKey (owner +:+ "/" +:+ repo) p.
Proof.
  intros Ho H.
  assert (String.prefix ("job" +:+ ":") (jobKey jobId) = true) as Hp
    by apply (prefix_app "job:").
  rewrite H in Hp. unfold metadataKey in Hp. rewrite !append_assoc in Hp.
  rewrite (prefix_word_colon "job" owner _ eq_refl Ho) in Hp. discriminate.
Qed.

Lemma metadataKey_not_markerKey owner repo p gid jobId :
  hasColon owner = false ->
  markerKey gid jobId <> metadataKey (owner +:+ "/" +:+ repo) p.
Proof.
  intros Ho H.
  pose proof (markerKey_group gid jobId) as Hp.
  change "group:" with ("group" +:+ ":") in Hp.
  rewrite H in Hp. unfold metadataKey in Hp. rewrite !append_assoc in Hp.
  rewrite (prefix_word_colon "group" owner _ eq_refl Ho) in Hp. discriminate.
Qed.

Lemma storedSha_storeAfterQueue owner repo job c m p :
  hasColon owner = false ->
  storedSha (storeAfterQueue (owner +:+ "/" +:+ repo) job c m) (owner +:+ "/" +:+ repo) p
  = if decide (p = path (file job)) then Some (sha c)
    else storedSha m (owner +:+ "/" +:+ repo) p.
Proof.
  intros Ho. unfold storedSha, storeAfterQueue. case_decide as Hp.
  - subst p. rewrite lookup_insert_eq. reflexivity.
  - rewrite lookup_insert_ne by (intros H; apply metadataKey_inj in H; congruence).
    rewrite lookup_insert_ne by (apply metadataKey_not_markerKey, Ho).
    rewrite lookup_insert_ne by (apply metadataKey_not_jobKey, Ho).
    reflexivity.
Qed.

Lemma filter_ext_elem {A} (P Q : A -> Prop) `{forall x, Decision (P x)}
  `{forall x, Decision (Q x)} (l : list A) :
  (forall x, x ∈ l -> P x <-> Q x) -> filter P l = filter Q l.
Proof.
  induction l as [|x l IH]; intros Hpq; [reflexivity|].
  assert (filter P l = filter Q l) as Hl
    by (apply IH; intros y Hy; apply Hpq; right; exact Hy).
  destruct (decide (P x)) as [Hp|Hp].
  - rewrite filter_cons_True by exact Hp.
    rewrite (filter_cons_True Q) by (apply Hpq; [left|exact Hp]). rewrite Hl.
    reflexivity.
  - rewrite filter_cons_False by exact Hp.
    rewrite (filter_cons_False Q) by (intros Hq; apply Hp, Hpq; [left|exact Hq]).
    exact Hl.
Qed.

Lemma steady_latestCommit E repoKey p n :
  steady E -> latestCommit E repoKey p n = latestCommit E repoKey p 0.
Proof. intros Hs. unfold latestCommit. rewrite (Hs _ n 0%nat). reflexivity. Qed.

(** One file of the Enqueuer's loop, for an owner without a colon: the file
    is queued exactly when its stored fingerprint is not the latest; either
    way the stored fingerprint is the latest afterwards, and no other
    fingerprint has changed. *)
Lemma queueFile_step E (o r gid : string) (f : FileInfo) (jobs : list Job)
  (w : World) (c : Commit) :
  hasColon o = false ->
  latestCommit E (o +:+ "/" +:+ r) (path f) (requests w) = Some c ->
  exists jobs1 w1,
    queueFile E o r (o +:+ "/" +:+ r) gid f jobs w = Ret (jobs ++ jobs1) w1
    /\ jobs1 = (if decide (storedSha (kv w) (o +:+ "/" +:+ r) (path f) = Some (sha c))
                then [] else [newJob E o r gid f w])
    /\ (forall p, storedSha (kv w1) (o +:+ "/" +:+ r) p
                  = if decide (p = path f) then Some (sha c)
                    else storedSha (kv w) (o +:+ "/" +:+ r) p).
Proof.
  intros Ho Hl. case_decide as Hs.
  - destruct (queueFile_same E o r _ gid f jobs w c Hl Hs) as (w1 & Hrun & Hkv & _).
    exists [], w1. rewrite app_nil_r. split; [exact Hrun|]. split; [reflexivity|].
    intros p. rewrite Hkv. case_decide as Hp; [subst p; exact Hs|reflexivity].
  - destruct (queueFile_new E o r _ gid f jobs w c Hl Hs) as (w1 & Hrun & Hkv & _).
    exists [newJob E o r gid f w], w1. split; [exact Hrun|]. split; [reflexivity|].
    intros p. rewrite Hkv.
    apply (storedSha_storeAfterQueue o r (newJob E o r gid f w) c (kv w) p Ho).
Qed.

Lemma queueFiles_spec E (o r gid : string) :
  hasColon o = false -> steady E ->
  forall (files : list FileInfo) (jobs : list Job) (w : World),
  (forall f, f ∈ files -> is_Some (latestCommit E (o +:+ "/" +:+ r) (path f) 0)) ->
  exists jobs' w',
    queueFiles E o r (o +:+ "/" +:+ r) gid files jobs w = Ret (jobs ++ jobs') w'
    /\ (forall p, storedSha (kv w') (o +:+ "/" +:+ r) p
                  = if decide (p ∈ map path files)
                    then latestSha E (o +:+ "/" +:+ r) p
                    else storedSha (kv w) (o +:+ "/" +:+ r) p)
    /\ (NoDup (map path files) ->
        map file jobs'
        = filter (fun f => storedSha (kv w) (o +:+ "/" +:+ r) (path f)
                           <> latestSha E (o +:+ "/" +:+ r) (path f)) files)
    /\ Forall (fun j => status j = Queued /\ groupId j = gid /\ owner j = o
                        /\ repo j = r /\ result j = None) jobs'.
Proof.
  intros Ho Hst. induction files as [|f files IH]; intros jobs w Hc.
  - exists [], w. rewrite app_nil_r. cbn. split; [reflexivity|].
    split; [intros p; case_decide as H; [inversion H|reflexivity]|].
    split; [reflexivity|constructor].
  - destruct (Hc f (list_elem_of_here _ _)) as [c Hc0].
    assert (Hcn : latestCommit E (o +:+ "/" +:+ r) (path f) (requests w) = Some c)
      by (rewrite steady_latestCommit; assumption).
    destruct (queueFile_step E o r gid f jobs w c Ho Hcn) as (jobs1 & w1 & Hrun1 & Hj1 & Hsha1).
    destruct (IH (jobs ++ jobs1) w1) as (jobs2 & w2 & Hrun2 & Hsha2 & Hfiles2 & Hall2).
    { intros f' Hf'. apply Hc. right. exact Hf'. }
    exists (jobs1 ++ jobs2), w2. cbn [queueFiles].
    rewrite (bind_Ret _ _ _ _ _ Hrun1), Hrun2, app_assoc.
    split; [reflexivity|].
    assert (Hlat : latestSha E (o +:+ "/" +:+ r) (path f) = Some (sha c))
      by (unfold latestSha; rewrite Hc0; reflexivity).
    split; [|split].
    + intros p. rewrite Hsha2, Hsha1. cbn [map].
      destruct (decide (p ∈ map path files)) as [Hin|Hnin].
      * rewrite decide_True by (right; exact Hin). reflexivity.
      * destruct (decide (p = path f)) as [->|Hne].
        -- rewrite decide_True by left. symmetry. exact Hlat.
        -- rewrite decide_False; [reflexivity|].
           intros H. apply elem_of_cons in H as [H|H]; contradiction.
    + intros Hnd. cbn [map] in Hnd. apply NoDup_cons in Hnd as [Hf Hnd].
      rewrite map_app, (Hfiles2 Hnd).
      assert (Hext : filter (fun f0 => storedSha (kv w1) (o +:+ "/" +:+ r) (path f0)
                                       <> latestSha E (o +:+ "/" +:+ r) (path f0)) files
                     = filter (fun f0 => storedSha (kv w) (o +:+ "/" +:+ r) (path f0)
                                         <> latestSha E (o +:+ "/" +:+ r) (path f0)) files).
      { apply filter_ext_elem. intros f' Hf'. rewrite Hsha1.
        rewrite decide_False; [reflexivity|].
        intros Hp. apply Hf. rewrite <- Hp.
        apply (list_elem_of_fmap_2 path). exact Hf'. }
      rewrite Hext, Hj1.
      destruct (decide (storedSha (kv w) (o +:+ "/" +:+ r) (path f) = Some (sha c)))
        as [Hs|Hs].
      * rewrite filter_cons_False by (rewrite Hlat; intros H; exact (H Hs)).
        reflexivity.
      * rewrite filter_cons_True by (rewrite Hlat; exact Hs). reflexivity.
    + apply Forall_app. split; [|exact Hall2]. rewrite Hj1.
      case_decide; [constructor|]. constructor; [|constructor]. cbn. auto.
Qed.

Lemma sameAnswer_ret {A} (a : A) : sameAnswer (ret a).
Proof. intros w w2. reflexivity. Qed.

Lemma sameAnswer_throw {A} (e : Exn) : sameAnswer (@throw A e).
Proof. intros w w2. reflexivity. Qed.

Lemma sameAnswer_lift {A} (o : Outcome A) : sameAnswer (lift o).
Proof. destruct o; intros w w2; reflexivity. Qed.

Lemma sameAnswer_bind {A B} (m : M A) (k : A -> M B) :
  sameAnswer m -> (forall a, sameAnswer (k a)) -> sameAnswer (bind m k).
Proof.
  intros Hm Hk w w2. unfold bind. specialize (Hm w w2).
  destruct (m w) as [a w1|e w1|], (m w2) as [a' w1'|e' w1'|]; cbn in Hm;
    try discriminate; try reflexivity.
  - injection Hm as ->. apply Hk.
  - injection Hm as ->. reflexivity.
Qed.

Lemma sameAnswer_tryCatch {A} (m : M A) (h : Exn -> M A) :
  sameAnswer m -> (forall e, sameAnswer (h e)) -> sameAnswer (tryCatch m h).
Proof.
  intros Hm Hh w w2. unfold tryCatch. specialize (Hm w w2).
  destruct (m w) as [a w1|e w1|], (m w2) as [a' w1'|e' w1'|]; cbn in Hm;
    try discriminate; try reflexivity.
  - injection Hm as ->. reflexivity.
  - injection Hm as ->. apply Hh.
Qed.

Lemma sameAnswer_js_fetch E url : steady E -> sameAnswer (js_fetch E url).
Proof.
  intros Hs w w2. unfold js_fetch. rewrite (Hs url (requests w) (requests w2)).
  destruct (fetch E url (requests w2)); reflexivity.
Qed.

Lemma sameAnswer_iterate data : sameAnswer (iterate data).
Proof. destruct data; intros w w2; reflexivity. Qed.

Lemma sameAnswer_fetchFiles E (o r : string) :
  steady E -> forall (fuel : nat) (p : string), sameAnswer (fetchFiles E fuel o r p).
Proof.
  intros Hs. induction fuel as [|fuel IH]; intros p; [intros w w2; reflexivity|].
  cbn [fetchFiles]. apply sameAnswer_tryCatch; [|intros e; apply sameAnswer_throw].
  apply sameAnswer_bind; [apply sameAnswer_js_fetch, Hs|]. intros response.
  destruct (negb (ok response)); [apply sameAnswer_throw|].
  apply sameAnswer_bind; [apply sameAnswer_lift|]. intros data.
  apply sameAnswer_bind; [apply sameAnswer_iterate|]. intros items.
  match goal with
  | |- sameAnswer (?each items []) =>
    assert (forall its fs, sameAnswer (each its fs)) as Heach; [|apply Heach]
  end.
  induction its as [|[ip iurl|ip|] its IHi]; intros files.
  - apply sameAnswer_ret.
  - apply IHi.
  - apply sameAnswer_bind; [apply IH|]. intros more. apply IHi.
  - apply IHi.
Qed.

Lemma fetchFiles_again E (o r : string) fuel p w w1 listed w2 :
  steady E -> fetchFiles E fuel o r p w = Ret listed w1 ->
  exists w3, fetchFiles E fuel o r p w2 = Ret listed w3 /\ kv w3 = kv w2.
Proof.
  intros Hs Hrun. pose proof (sameAnswer_fetchFiles E o r Hs fuel p w w2) as Ha.
  pose proof (keepsKv_fetchFiles E o r fuel p w2) as Hk.
  rewrite Hrun in Ha. destruct (fetchFiles E fuel o r p w2) as [l w3|e w3|];
    cbn in Ha; try discriminate.
  injection Ha as <-. exists w3. auto.
Qed.

(** The Enqueuer on the files that its lister has returned. *)
Lemma queueGroupedJobs_spec E fuel (o r : string) (w w1 : World) (listed : list FileInfo) :
  hasColon o = false -> steady E ->
  fetchFiles E fuel o r "" w = Ret listed w1 ->
  (forall f, f ∈ filter processable listed ->
             is_Some (latestCommit E (o +:+ "/" +:+ r) (path f) 0)) ->
  exists jobs w',
    queueGroupedJobs E fuel o r w = Ret (uuidv4 E (uuids w1), jobs) w'
    /\ (forall p, storedSha (kv w') (o +:+ "/" +:+ r) p
                  = if decide (p ∈ map path (filter processable listed))
                    then latestSha E (o +:+ "/" +:+ r) p
                    else storedSha (kv w) (o +:+ "/" +:+ r) p)
    /\ (NoDup (map path (filter processable listed)) ->
        map file jobs
        = filter (fun f => storedSha (kv w) (o +:+ "/" +:+ r) (path f)
                           <> latestSha E (o +:+ "/" +:+ r) (path f))
                 (filter processable listed))
    /\ Forall (fun j => status j = Queued /\ groupId j = uuidv4 E (uuids w1)
                        /\ owner j = o /\ repo j = r /\ result j = None) jobs.
Proof.
  intros Ho Hs Hlist Hc.
  pose proof (fetchFiles_kv _ _ _ _ _ _ _ _ Hlist) as Hkv1.
  destruct (queueFiles_spec E o r (uuidv4 E (uuids w1)) Ho Hs
              (filter processable listed) [] (setUuids (S (uuids w1)) w1) Hc)
    as (jobs & w' & Hrun & Hsha & Hfiles & Hall).
  exists jobs, w'. unfold queueGroupedJobs.
  rewrite (bind_Ret _ _ _ _ _ Hlist). unfold bind at 1. unfold uuid at 1.
  unfold processable in Hrun. rewrite (bind_Ret _ _ _ _ _ Hrun).
  cbn [kv setUuids] in Hsha, Hfiles. rewrite Hkv1 in Hsha, Hfiles.
  split; [reflexivity|]. auto.
Qed.

(** X15. For an owner name without a colon and a provider that does not
    change during the run: when the lister returns, the processable files
    have distinct paths and each has a latest commit, the Enqueuer queues
    one job for every processable file whose stored fingerprint is not the
    fingerprint of its latest commit, in the order of the listing, and no
    other job; the jobs are queued, without a result, and of the group that
    is answered; afterwards every processable file has its latest
    fingerprint stored. With no fingerprint stored beforehand there is one
    job per processable file. *)
Theorem enqueue_queues_exactly_changed_files
  (E : Env) (fuel : nat) (o r : string) (w w1 : World) (listed : list FileInfo) :
  hasColon o = false -> steady E ->
  fetchFiles E fuel o r "" w = Ret listed w1 ->
  NoDup (map path (filter processable listed)) ->
  (forall f, f ∈ filter processable listed ->
             is_Some (latestCommit E (o +:+ "/" +:+ r) (path f) 0)) ->
  exists gid jobs w',
    queueGroupedJobs E fuel o r w = Ret (gid, jobs) w'
    /\ map file jobs
       = filter (fun f => storedSha (kv w) (o +:+ "/" +:+ r) (path f)
                          <> latestSha E (o +:+ "/" +:+ r) (path f))
                (filter processable listed)
    /\ Forall (fun j => status j = Queued /\ groupId j = gid
                        /\ owner j = o /\ repo j = r /\ result j = None) jobs
    /\ (forall f, f ∈ filter processable listed ->
          storedSha (kv w') (o +:+ "/" +:+ r) (path f)
          = latestSha E (o +:+ "/" +:+ r) (path f))
    /\ ((forall f, f ∈ filter processable listed ->
           storedSha (kv w) (o +:+ "/" +:+ r) (path f) = None) ->
        map file jobs = filter processable listed).
Proof.
  intros Ho Hs Hlist Hnd Hc.
  destruct (queueGroupedJobs_spec E fuel o r w w1 listed Ho Hs Hlist Hc)
    as (jobs & w' & Hrun & Hsha & Hfiles & Hall).
  exists (uuidv4 E (uuids w1)), jobs, w'.
  split; [exact Hrun|]. split; [exact (Hfiles Hnd)|]. split; [exact Hall|]. split.
  - intros f Hf. rewrite Hsha. rewrite decide_True; [reflexivity|].
    apply (list_elem_of_fmap_2 path). exact Hf.
  - intros Hnone. rewrite (Hfiles Hnd).
    clear Hfiles Hnd Hsha.
    induction (filter processable listed) as [|f files IH]; [reflexivity|].
    rewrite filter_cons_True.
    + f_equal. apply IH.
      * intros f' Hf'. apply Hc. right. exact Hf'.
      * intros f' Hf'. apply Hnone. right. exact Hf'.
    + rewrite (Hnone f (list_elem_of_here _ _)).
      destruct (Hc f (list_elem_of_here _ _)) as [c Hcf].
      unfold latestSha. rewrite Hcf. discriminate.
Qed.

Lemma enqueue_queues_exactly_changed_files_witness :
  exists gid jobs w',
    queueGroupedJobs demoEnv 3 "o" "r"
      (worldOf (<[metadataKey "o/r" "a.js" := VMeta {| sha := "5f2c1e" |}]> ∅))
    = Ret (gid, jobs) w'
    /\ map file jobs
       = filter (fun f => storedSha
                            (kv (worldOf (<[metadataKey "o/r" "a.js" := VMeta {| sha := "5f2c1e" |}]> ∅)))
                            ("o" +:+ "/" +:+ "r") (path f)
                          <> latestSha demoEnv ("o" +:+ "/" +:+ "r") (path f))
                (filter processable (filesUnder demoTree))
    /\ Forall (fun j => status j = Queued /\ groupId j = gid
                        /\ owner j = "o" /\ repo j = "r" /\ result j = None) jobs
    /\ (forall f, f ∈ filter processable (filesUnder demoTree) ->
          storedSha (kv w') ("o" +:+ "/" +:+ "r") (path f)
          = latestSha demoEnv ("o" +:+ "/" +:+ "r") (path f))
    /\ ((forall f, f ∈ filter processable (filesUnder demoTree) ->
           storedSha (kv (worldOf (<[metadataKey "o/r" "a.js" := VMeta {| sha := "5f2c1e" |}]> ∅)))
             ("o" +:+ "/" +:+ "r") (path f) = None) ->
        map file jobs = filter processable (filesUnder demoTree)).
Proof.
  eapply (enqueue_queues_exactly_changed_files demoEnv 3 "o" "r"
            (worldOf (<[metadataKey "o/r" "a.js" := VMeta {| sha := "5f2c1e" |}]> ∅))
            _ (filesUnder demoTree)).
  - reflexivity.
  - intros url n m. reflexivity.
  - vm_compute. reflexivity.
  - apply (bool_decide_unpack _). vm_compute. exact I.
  - intros f Hf. apply (bool_decide_unpack _).
    revert f Hf. apply Forall_forall.
    apply (bool_decide_unpack _). vm_compute. exact I.
Defined.

(** X16. For an owner name without a colon and a provider that does not
    change: when the lister returns and every processable file has a latest
    commit, a second run of the Enqueuer right after the first one draws a
    group id of its own, queues no job and leaves the store as the first
    run left it. *)
Theorem enqueue_twice_second_run_queues_nothing
  (E : Env) (fuel : nat) (o r : string) (w w1 : World) (listed : list FileInfo) :
  hasColon o = false -> steady E ->
  fetchFiles E fuel o r "" w = Ret listed w1 ->
  (forall f, f ∈ filter processable listed ->
             is_Some (latestCommit E (o +:+ "/" +:+ r) (path f) 0)) ->
  exists gid jobs w',
    queueGroupedJobs E fuel o r w = Ret (gid, jobs) w'
    /\ exists gid2 w'',
         queueGroupedJobs E fuel o r w' = Ret (gid2, []) w''
         /\ kv w'' = kv w' /\ uuids w'' = S (uuids w').
Proof.
  intros Ho Hs Hlist Hc.
  destruct (queueGroupedJobs_spec E fuel o r w w1 listed Ho Hs Hlist Hc)
    as (jobs & w' & Hrun & Hsha & _).
  exists (uuidv4 E (uuids w1)), jobs, w'. split; [exact Hrun|].
  pose proof (sameAnswer_fetchFiles E o r Hs fuel "" w w') as Ha.
  pose proof (readsOnly_fetchFiles E o r fuel "" w') as Hk.
  rewrite Hlist in Ha.
  destruct (fetchFiles E fuel o r "" w') as [l w3|e w3|] eqn:Hlist2;
    cbn in Ha; try discriminate.
  injection Ha as <-. destruct Hk as (Hkv3 & _ & _ & Hu3 & _).
  destruct (queueFiles_unchanged E o r (o +:+ "/" +:+ r) (uuidv4 E (uuids w3))
              (filter processable listed) [] (setUuids (S (uuids w3)) w3))
    as (w'' & Hrun2 & Hkv & Hu & _).
  { intros f Hf n. destruct (Hc f Hf) as [c Hcf]. exists c.
    rewrite (steady_latestCommit E _ _ n Hs). split; [exact Hcf|].
    cbn [kv setUuids]. rewrite Hkv3, Hsha.
    rewrite decide_True by (apply (list_elem_of_fmap_2 path); exact Hf).
    unfold latestSha. rewrite Hcf. reflexivity. }
  exists (uuidv4 E (uuids w3)), w''. unfold queueGroupedJobs.
  rewrite (bind_Ret _ _ _ _ _ Hlist2). unfold bind at 1. unfold uuid at 1.
  unfold processable in Hrun2. rewrite (bind_Ret _ _ _ _ _ Hrun2).
  split; [reflexivity|]. cbn [kv uuids setUuids] in Hkv, Hu.
  split; congruence.
Qed.

Lemma enqueue_twice_second_run_queues_nothing_witness :
  exists gid jobs w',
    queueGroupedJobs demoEnv 3 "o" "r" (worldOf ∅) = Ret (gid, jobs) w'
    /\ exists gid2 w'',
         queueGroupedJobs demoEnv 3 "o" "r" w' = Ret (gid2, []) w''
         /\ kv w'' = kv w' /\ uuids w'' = S (uuids w').
Proof.
  eapply (enqueue_twice_second_run_queues_nothing demoEnv 3 "o" "r" (worldOf ∅)
            _ (filesUnder demoTree)).
  - reflexivity.
  - intros url n m. reflexivity.
  - vm_compute. reflexivity.
  - intros f Hf. apply (bool_decide_unpack _).
    revert f Hf. apply Forall_forall.
    apply (bool_decide_unpack _). vm_compute. exact I.
Defined.

(** X17. The queue route, once it has read the body of the request, never
    throws. When the lister fails, the route answers status 500 without a
    group id, and the store, the disk and the uuid source are as before the
    request: no job, marker or fingerprint is written. *)
Theorem POST_lister_failure_answers_500
  (E : Env) (fuel : nat) (o r : string) (w w1 : World) (e : Exn) :
  fetchFiles E fuel o r "" w = Raise e w1 ->
  POST E fuel o r w = Ret (500, None) w1
  /\ kv w1 = kv w /\ disk w1 = disk w /\ uuids w1 = uuids w
  /\ (forall (w0 : World) (e0 : Exn) (w0' : World),
        POST E fuel o r w0 <> Raise e0 w0').
Proof.
  intros Hlist. pose proof (readsOnly_fetchFiles E o r fuel "" w) as Hk.
  rewrite Hlist in Hk. destruct Hk as (Hkv & Hd & _ & Hu & _).
  split.
  { unfold POST, tryCatch, queueGroupedJobs.
    rewrite (bind_Raise _ _ _ _ _ (bind_Raise _ _ _ _ _ Hlist)). reflexivity. }
  split; [exact Hkv|]. split; [exact Hd|]. split; [exact Hu|].
  intros w0 e0 w0'. unfold POST, tryCatch, bind at 1.
  destruct (queueGroupedJobs E fuel o r w0) as [[gid jobs] w2|e2 w2|];
    unfold ret; discriminate.
Qed.

Lemma POST_lister_failure_answers_500_witness :
  POST brokenEnv 2 "o" "r" (worldOf ∅)
  = Ret (500, None)
      (addEvent (EvFetch (contentsUrl "o" "r" "dir"))
         (setRequests 2
            (addEvent (EvFetch (contentsUrl "o" "r" "")) (setRequests 1 (worldOf ∅))))).
Proof.
  apply (POST_lister_failure_answers_500 brokenEnv 2 "o" "r" (worldOf ∅) _
           (Error "Failed to fetch files: Not Found")).
  reflexivity.
Defined.

(** X18. The Enqueuer does not roll back. For an owner name without a
    colon: when the first processable file has changed and the request for
    the commits of the second one is rejected, the route answers 500
    without a group id, and yet the store holds the queued job of the first
    file, its group marker and its new fingerprint, beside what it held
    before. *)
Theorem enqueue_failure_keeps_jobs_already_queued
  (E : Env) (fuel : nat) (o r : string) (w w1 : World) (listed rest : list FileInfo)
  (f1 f2 : FileInfo) (c1 : Commit) (e : Exn) :
  hasColon o = false ->
  fetchFiles E fuel o r "" w = Ret listed w1 ->
  filter processable listed = f1 :: f2 :: rest ->
  latestCommit E (o +:+ "/" +:+ r) (path f1) (requests w1) = Some c1 ->
  storedSha (kv w) (o +:+ "/" +:+ r) (path f1) <> Some (sha c1) ->
  fetch E (commitsUrl (o +:+ "/" +:+ r) (path f2)) (S (requests w1)) = Throw e ->
  exists (j1 : Job) (w' : World),
    POST E fuel o r w = Ret (500, None) w'
    /\ file j1 = f1 /\ status j1 = Queued
    /\ kv w' = storeAfterQueue (o +:+ "/" +:+ r) j1 c1 (kv w)
    /\ kv w' !! jobKey (id j1) = Some (VJob j1)
    /\ kv w' !! markerKey (groupId j1) (id j1) = Some (VStr "queued")
    /\ storedSha (kv w') (o +:+ "/" +:+ r) (path f1) = Some (sha c1).
Proof.
  intros Ho Hlist Hfiles Hl Hs He.
  pose proof (fetchFiles_kv _ _ _ _ _ _ _ _ Hlist) as Hkv1.
  set (gid := uuidv4 E (uuids w1)).
  set (w2 := setUuids (S (uuids w1)) w1).
  destruct (queueFile_new E o r (o +:+ "/" +:+ r) gid f1 [] w2 c1) as
    (w3 & Hrun1 & Hkv3 & Hreq3 & _).
  { exact Hl. }
  { cbn [kv w2 setUuids]. rewrite Hkv1. exact Hs. }
  cbn [kv w2 setUuids requests] in Hkv3, Hreq3. rewrite Hkv1 in Hkv3.
  set (j1 := newJob E o r gid f1 w2) in *.
  set (w4 := addEvent (EvFetch (commitsUrl (o +:+ "/" +:+ r) (path f2)))
               (setRequests (S (requests w3)) w3)).
  assert (queueFile E o r (o +:+ "/" +:+ r) gid f2 ([] ++ [j1]) w3 = Raise e w4) as Hrun2.
  { unfold queueFile. apply bind_Raise. unfold fetchGitHubCommits. apply bind_Raise.
    unfold js_fetch. fold (commitsUrl (o +:+ "/" +:+ r) (path f2)).
    rewrite Hreq3, He. unfold w4. rewrite Hreq3. reflexivity. }
  exists j1, w4. split.
  { unfold POST, tryCatch. rewrite (bind_Raise _ (fun r0 => ret (200, Some (fst r0))) w w4 e);
      [reflexivity|].
    unfold queueGroupedJobs. rewrite (bind_Ret _ _ _ _ _ Hlist).
    unfold bind at 1. unfold uuid at 1. fold gid. fold w2. apply bind_Raise.
    change (filter _ listed) with (filter processable listed). rewrite Hfiles.
    cbn [queueFiles]. rewrite (bind_Ret _ _ _ _ _ Hrun1).
    apply bind_Raise. exact Hrun2. }
  split; [reflexivity|]. split; [reflexivity|].
  assert (kv w4 = storeAfterQueue (o +:+ "/" +:+ r) j1 c1 (kv w)) as Hkv4
    by (exact Hkv3).
  split; [exact Hkv4|]. rewrite Hkv4. split; [|split].
  - unfold storeAfterQueue.
    rewrite lookup_insert_ne by (apply not_eq_sym, metadataKey_not_jobKey; exact Ho).
    destruct (decide (markerKey (groupId j1) (id j1) = jobKey (id j1))) as [Heq|Hne].
    + vm_compute in Heq. discriminate Heq.
    + rewrite lookup_insert_ne by exact Hne. apply lookup_insert_eq.
  - unfold storeAfterQueue.
    rewrite lookup_insert_ne by (apply not_eq_sym, metadataKey_not_markerKey; exact Ho).
    apply lookup_insert_eq.
  - rewrite (storedSha_storeAfterQueue o r j1 c1 (kv w) (path f1) Ho).
    rewrite decide_True; reflexivity.
Qed.

Lemma enqueue_failure_keeps_jobs_already_queued_witness :
  exists (j1 : Job) (w' : World),
    POST halfEnv 2 "o" "r" (worldOf ∅) = Ret (500, None) w'
    /\ file j1 = {| path := "a.js"; download_url := "https://raw.example/o/r/a.js" |}
    /\ status j1 = Queued
    /\ kv w' = storeAfterQueue ("o" +:+ "/" +:+ "r") j1 {| sha := "5f2c1e" |}
                 (kv (worldOf ∅))
    /\ kv w' !! jobKey (id j1) = Some (VJob j1)
    /\ kv w' !! markerKey (groupId j1) (id j1) = Some (VStr "queued")
    /\ storedSha (kv w') ("o" +:+ "/" +:+ "r") "a.js" = Some "5f2c1e".
Proof.
  eapply (enqueue_failure_keeps_jobs_already_queued halfEnv 2 "o" "r" (worldOf ∅) _
            [{| path := "a.js"; download_url := "https://raw.example/o/r/a.js" |};
             {| path := "z.ts"; download_url := "https://raw.example/o/r/z.ts" |}]
            []
            {| path := "a.js"; download_url := "https://raw.example/o/r/a.js" |}
            {| path := "z.ts"; download_url := "https://raw.example/o/r/z.ts" |}
            {| sha := "5f2c1e" |} (Error "fetch failed")).
  - reflexivity.
  - vm_compute. reflexivity.
  - vm_compute. reflexivity.
  - vm_compute. reflexivity.
  - intros H. vm_compute in H. discriminate H.
  - vm_compute. reflexivity.
Defined.

(** ** The artifact file name and its reading *)

Lemma string_app_assoc (a b c : string) : (a +:+ b) +:+ c = a +:+ (b +:+ c).
Proof.
  induction a as [|x a IH]; [reflexivity|].
  change (String x ((a +:+ b) +:+ c) = String x (a +:+ (b +:+ c))).
  rewrite IH. reflexivity.
Qed.

Lemma string_app_cons (c : ascii) (a b : string) :
  String c a +:+ b = String c (a +:+ b).
Proof. reflexivity. Qed.

Lemma replaceUnderscores_app r (a b : string) :
  replaceUnderscores r (a +:+ b) = replaceUnderscores r a +:+ replaceUnderscores r b.
Proof.
  induction a as [|c a IH]; [reflexivity|].
  rewrite string_app_cons. cbn [replaceUnderscores].
  destruct (Ascii.eqb c "_"); rewrite IH.
  - symmetry. apply string_app_assoc.
  - reflexivity.
Qed.

(** The escaped name has no underscore left. *)
Lemma replaceUnderscores_escaped (s : string) :
  replaceUnderscores "/" (replaceUnderscores "ZzDasHzZ" s)
  = replaceUnderscores "ZzDasHzZ" s.
Proof.
  induction s as [|c s IH]; [reflexivity|].
  cbn [replaceUnderscores]. destruct (Ascii.eqb c "_") eqn:Hc.
  - rewrite replaceUnderscores_app, IH. reflexivity.
  - cbn [replaceUnderscores]. rewrite Hc, IH. reflexivity.
Qed.

Lemma strlen_append (a b : string) :
  String.length (a +:+ b) = (String.length a + String.length b)%nat.
Proof.
  induction a as [|c a IH]; [reflexivity|].
  change (S (String.length (a +:+ b)) = S (String.length a + String.length b)).
  rewrite IH. reflexivity.
Qed.

Lemma removeAtEnd_app (suffix : string) : forall s : string,
  suffix <> "" -> removeAtEnd suffix (s +:+ suffix) = s.
Proof.
  intros s Hne. induction s as [|c s IH].
  - destruct suffix as [|d suffix]; [congruence|].
    change ("" +:+ String d suffix) with (String d suffix).
    cbn [removeAtEnd]. rewrite String.eqb_refl. reflexivity.
  - rewrite string_app_cons. cbn [removeAtEnd].
    destruct (String.eqb (String c (s +:+ suffix)) suffix) eqn:He.
    + apply String.eqb_eq in He. apply (f_equal String.length) in He.
      cbn [String.length] in He. rewrite strlen_append in He. lia.
    + f_equal. exact IH.
Qed.

Lemma prefix_empty (x : string) : String.prefix "" x = true.
Proof. destruct x; reflexivity. Qed.

Lemma prefix_token (x : string) :
  String.prefix "ZzDasHzZ" ("ZzDasHzZ" +:+ x) = true.
Proof.
  change ("ZzDasHzZ" +:+ x)
    with (String "Z" (String "z" (String "D" (String "a" (String "s"
           (String "H" (String "z" (String "Z" x)))))))).
  repeat (rewrite prefix_cons;
          destruct (ascii_dec _ _) as [_|Hn]; [|exfalso; apply Hn; reflexivity]).
  apply prefix_empty.
Qed.

Lemma replaceAll_token (x : string) :
  replaceAllFrom "ZzDasHzZ" "_" 0 ("ZzDasHzZ" +:+ x)
  = "_" +:+ replaceAllFrom "ZzDasHzZ" "_" 0 x.
Proof.
  change (replaceAllFrom "ZzDasHzZ" "_" 0 ("ZzDasHzZ" +:+ x))
    with (if String.prefix "ZzDasHzZ" ("ZzDasHzZ" +:+ x)
          then "_" +:+ replaceAllFrom "ZzDasHzZ" "_" 0 x
          else String "Z" (replaceAllFrom "ZzDasHzZ" "_" 0 ("zDasHzZ" +:+ x))).
  rewrite prefix_token. reflexivity.
Qed.

(** Reading back an escaped name that has no capital Z of its own. *)
Lemma replaceAll_escaped : forall s t : string,
  noCapitalZ s = true ->
  replaceAllFrom "ZzDasHzZ" "_" 0 (replaceUnderscores "ZzDasHzZ" s +:+ t)
  = s +:+ replaceAllFrom "ZzDasHzZ" "_" 0 t.
Proof.
  induction s as [|c s IH]; intros t Hz; [reflexivity|].
  unfold noCapitalZ in Hz. cbn [list_ascii_of_string forallb] in Hz.
  apply andb_true_iff in Hz as [Hc Hz]. apply negb_true_iff in Hc.
  cbn [replaceUnderscores]. destruct (Ascii.eqb c "_") eqn:Hu.
  - apply Ascii.eqb_eq in Hu. subst c. rewrite string_app_assoc.
    rewrite replaceAll_token. rewrite (IH t Hz). reflexivity.
  - rewrite string_app_cons. cbn [replaceAllFrom]. rewrite prefix_cons.
    destruct (ascii_dec "Z" c) as [Hzc|Hzc].
    + subst c. discriminate Hc.
    + rewrite (IH t Hz). reflexivity.
Qed.

Lemma parseReplyProjectURL_round_trip (o r : string) :
  noCapitalZ o = true -> noCapitalZ r = true ->
  parseReplyProjectURL
    (Some (replaceUnderscores "ZzDasHzZ" o +:+ "_"
           +:+ replaceUnderscores "ZzDasHzZ" r +:+ "-asts.json"))
  = "https://github.com/" +:+ o +:+ "/" +:+ r.
Proof.
  intros Ho Hr. unfold parseReplyProjectURL. f_equal.
  rewrite !replaceUnderscores_app, !replaceUnderscores_escaped.
  change (replaceUnderscores "/" "_") with "/".
  change (replaceUnderscores "/" "-asts.json") with "-asts.json".
  rewrite <- !string_app_assoc.
  rewrite removeAtEnd_app by discriminate.
  rewrite !string_app_assoc. unfold replaceAll.
  rewrite (replaceAll_escaped o _ Ho).
  f_equal. change ("/" +:+ ?x) with (String "/" x). cbn [replaceAllFrom].
  rewrite prefix_cons. cbn [ascii_dec ascii_rec ascii_rect Bool.bool_dec bool_rec
    bool_rect sumbool_rec sumbool_rect eq_rec_r eq_rec eq_rect eq_sym f_equal].
  f_equal.
  pose proof (replaceAll_escaped r "" Hr) as H.
  assert (forall x : string, x +:+ "" = x) as Hnil
    by (induction x as [|a x IHx]; [reflexivity|];
        change (String a (x +:+ "") = String a x); rewrite IHx; reflexivity).
  rewrite Hnil in H. rewrite H. cbn [replaceAllFrom]. apply Hnil.
Qed.

(** X19. The name of the artifact file and its reading by the chat route
    are a round trip for an owner and a repository without a capital Z:
    the route reads the address of the repository back, underscores
    included. Without that condition the name does not tell repositories
    apart: a name that starts with an underscore and the name that starts
    with the escape sequence instead have the same artifact file. *)
Theorem artifact_filename_round_trip (E : Env) (o r : string) (w : World) :
  noCapitalZ o = true -> noCapitalZ r = true ->
  (exists name, getASTFilename (Some o) (Some r) w = Ret name w
                /\ parseReplyProjectURL (Some name)
                   = "https://github.com/" +:+ o +:+ "/" +:+ r)
  /\ (forall o2 r2 : string,
        "_" +:+ o2 <> "ZzDasHzZ" +:+ o2
        /\ getASTFilename (Some ("_" +:+ o2)) (Some r2) w
           = getASTFilename (Some ("ZzDasHzZ" +:+ o2)) (Some r2) w).
Proof.
  intros Ho Hr. split.
  - eexists. split; [reflexivity|]. apply parseReplyProjectURL_round_trip; assumption.
  - intros o2 r2. split; [intros H; discriminate H|]. reflexivity.
Qed.

Lemma artifact_filename_round_trip_witness :
  (exists name, getASTFilename (Some "my_org") (Some "a_b_c") (worldOf ∅)
                = Ret name (worldOf ∅)
                /\ parseReplyProjectURL (Some name)
                   = "https://github.com/" +:+ "my_org" +:+ "/" +:+ "a_b_c")
  /\ (forall o2 r2 : string,
        "_" +:+ o2 <> "ZzDasHzZ" +:+ o2
        /\ getASTFilename (Some ("_" +:+ o2)) (Some r2) (worldOf ∅)
           = getASTFilename (Some ("ZzDasHzZ" +:+ o2)) (Some r2) (worldOf ∅)).
Proof.
  apply (artifact_filename_round_trip demoEnv "my_org" "a_b_c" (worldOf ∅));
    reflexivity.
Defined.

(** X20. No pass writes or hands over an artifact: over a store whose job
    records carry group ids without a glob character, and whoever asks, the
    route answers (401 to an unauthorized request, which changes nothing,
    and 200 otherwise), the disk is as before, and every event of the pass
    is the start of a job execution, never an upload. *)
Theorem pass_never_writes_an_artifact (E : Env) (authorized : bool) (w : World) :
  plainGroups (kv w) ->
  exists w',
    GET E authorized w = Ret (if authorized then 200 else 401) w'
    /\ disk w' = disk w
    /\ (authorized = false -> w' = w)
    /\ (exists batch, trace w' = trace w ++ map EvProcessJob batch)
    /\ (forall f, EvUpload f ∈ trace w' -> EvUpload f ∈ trace w).
Proof.
  intros _.
  assert (forall jobs w0, exists w',
            processJobs E jobs 50 w0 = Ret tt w' /\ disk w' = disk w0
            /\ exists batch, trace w' = trace w0 ++ map EvProcessJob batch) as Hjobs.
  { intros jobs w0. unfold processJobs.
    destruct (processJobs_run E (take (Nat.min (length jobs) 50) jobs) w0)
      as (w' & Hrun & _ & Htr & _ & Hd & _).
    exists w'. unfold bind. rewrite Hrun. split; [reflexivity|].
    split; [exact Hd|]. eexists. exact Htr. }
  assert (exists w', GET E authorized w = Ret (if authorized then 200 else 401) w'
            /\ disk w' = disk w /\ (authorized = false -> w' = w)
            /\ exists batch, trace w' = trace w ++ map EvProcessJob batch) as Hget.
  { destruct authorized.
    - unfold GET. cbn [negb]. unfold tryCatch, bind at 1. rewrite getJobs_eq.
      unfold bind at 1. rewrite filterForStaleJobs_eq.
      set (stale0 := filter _ (jobsWithStatus InProgress _)).
      destruct stale0 as [|s stale].
      + cbn [length Nat.ltb Nat.leb].
        set (queued0 := jobsWithStatus Queued _).
        destruct queued0 as [|q queued].
        * exists w. cbn [length Nat.ltb Nat.leb]. unfold ret.
          split; [reflexivity|]. split; [reflexivity|]. split; [discriminate|].
          exists []. cbn. rewrite app_nil_r. reflexivity.
        * cbn [length Nat.ltb Nat.leb].
          destruct (Hjobs (q :: queued) w) as (w' & Hrun & Hd & Htr).
          exists w'. unfold bind. rewrite Hrun. unfold ret.
          split; [reflexivity|]. split; [exact Hd|]. split; [discriminate|exact Htr].
      + cbn [length Nat.ltb Nat.leb].
        destruct (Hjobs (s :: stale) w) as (w' & Hrun & Hd & Htr).
        exists w'. unfold bind. rewrite Hrun. unfold ret.
        split; [reflexivity|]. split; [exact Hd|]. split; [discriminate|exact Htr].
    - exists w. split; [reflexivity|]. split; [reflexivity|]. split; [reflexivity|].
      exists []. cbn. rewrite app_nil_r. reflexivity. }
  destruct Hget as (w' & Hrun & Hd & Hu & batch & Htr).
  exists w'. split; [exact Hrun|]. split; [exact Hd|]. split; [exact Hu|].
  split; [exists batch; exact Htr|].
  intros f Hf. rewrite Htr in Hf. apply elem_of_app in Hf as [Hf|Hf]; [exact Hf|].
  apply list_elem_of_fmap in Hf as (j & Hj & _). discriminate Hj.
Qed.

Lemma pass_never_writes_an_artifact_witness :
  plainGroups recoveryStore
  /\ exists w',
    GET demoEnv true (worldOf recoveryStore) = Ret (if true then 200 else 401) w'
    /\ disk w' = disk (worldOf recoveryStore)
    /\ (true = false -> w' = worldOf recoveryStore)
    /\ (exists batch, trace w' = trace (worldOf recoveryStore) ++ map EvProcessJob batch)
    /\ (forall f, EvUpload f ∈ trace w' -> EvUpload f ∈ trace (worldOf recoveryStore)).
Proof.
  assert (H : plainGroups recoveryStore).
  { apply (bool_decide_unpack (plainGroups recoveryStore)). vm_compute. exact I. }
  split; [exact H|].
  exact (pass_never_writes_an_artifact demoEnv true (worldOf recoveryStore) H).
Defined.


(** ** From the Enqueuer to the scheduler *)

(** What a run of the Enqueuer's loop body that returns has done. *)
Lemma queueFile_inv E (o r rk gid : string) (f : FileInfo) (jobs jobs2 : list Job)
  (w w2 : World) :
  queueFile E o r rk gid f jobs w = Ret jobs2 w2 ->
  (jobs2 = jobs /\ kv w2 = kv w)
  \/ (exists j v, jobs2 = jobs ++ [j] /\ status j = Queued /\ groupId j = gid
        /\ file j = f
        /\ kv w2 = <[metadataKey rk (path f) := v]>
                     (<[markerKey gid (id j) := VStr "queued"]>
                        (<[jobKey (id j) := VJob j]> (kv w)))).
Proof.
  unfold queueFile, fetchGitHubCommits, js_fetch, getFileMetadata, kv_get, changed,
    uuid, Date_now, queueJob, storeFileMetadata, kv_set, bind, lift, ret, throw.
  destruct (fetch E _ (requests w)) as [resp|e]; [|discriminate].
  destruct (json resp) as [latest|e]; [|discriminate].
  cbn [kv addEvent setRequests setUuids setKv now uuids].
  destruct (negb (truthy _)).
  - intros H. injection H as <- <-. right. eexists _, _.
    split; [reflexivity|]. split; [reflexivity|]. split; [reflexivity|].
    split; reflexivity.
  - destruct (firstCommit latest) as [c|]; [|discriminate].
    destruct (negb (bool_decide _)).
    + intros H. injection H as <- <-. right. eexists _, _.
      split; [reflexivity|]. split; [reflexivity|]. split; [reflexivity|].
      split; reflexivity.
    + intros H. injection H as <- <-. left. split; reflexivity.
Qed.

Lemma queueFiles_appends E (o r rk gid : string) :
  forall (files : list FileInfo) (jobs jobs' : list Job) (w w' : World),
  queueFiles E o r rk gid files jobs w = Ret jobs' w' ->
  exists more, jobs' = jobs ++ more.
Proof.
  induction files as [|f files IH]; intros jobs jobs' w w' Hrun.
  - injection Hrun as <- _. exists []. rewrite app_nil_r. reflexivity.
  - cbn [queueFiles] in Hrun. unfold bind at 1 in Hrun.
    destruct (queueFile E o r rk gid f jobs w) as [jobs2 w2|e w2|] eqn:Hf;
      try discriminate.
    destruct (IH _ _ _ _ Hrun) as [more ->].
    apply queueFile_inv in Hf as [[-> _]|(j & v & -> & _)].
    + exists more. reflexivity.
    + exists (j :: more). rewrite <- app_assoc. reflexivity.
Qed.

Lemma markerKey_inj (gid a b : string) : markerKey gid a = markerKey gid b -> a = b.
Proof.
  unfold markerKey. intros H.
  apply (inj (String.app "group:")) in H. apply (inj (String.app gid)) in H.
  apply (inj (String.app ":")) in H. exact H.
Qed.


(** The jobs that the loop has pushed stay in the store as it goes on. *)
Lemma queueFiles_visible E (o r gid : string) :
  hasColon o = false ->
  forall (files : list FileInfo) (jobs jobs' : list Job) (w w' : World),
  queueFiles E o r (o +:+ "/" +:+ r) gid files jobs w = Ret jobs' w' ->
  NoDup (map id jobs') ->
  (forall j, j ∈ jobs ->
     kv w !! jobKey (id j) = Some (VJob j)
     /\ kv w !! markerKey gid (id j) = Some (VStr "queued")
     /\ status j = Queued) ->
  forall j, j ∈ jobs' ->
    kv w' !! jobKey (id j) = Some (VJob j)
    /\ kv w' !! markerKey gid (id j) = Some (VStr "queued")
    /\ status j = Queued.
Proof.
  intros Ho. induction files as [|f files IH]; intros jobs jobs' w w' Hrun Hnd Hinv.
  - injection Hrun as <- <-. exact Hinv.
  - cbn [queueFiles] in Hrun. unfold bind at 1 in Hrun.
    destruct (queueFile E o r (o +:+ "/" +:+ r) gid f jobs w) as [jobs2 w2|e w2|] eqn:Hf;
      try discriminate.
    apply (IH jobs2 jobs' w2 w' Hrun Hnd).
    destruct (queueFiles_appends _ _ _ _ _ _ _ _ _ _ Hrun) as [more Hmore].
    apply queueFile_inv in Hf as [[-> Hkv]|(jn & v & -> & Hs & Hg & Hfile & Hkv)].
    + rewrite Hkv. exact Hinv.
    + subst jobs'. rewrite !map_app in Hnd. apply NoDup_app in Hnd as [Hnd _].
      apply NoDup_app in Hnd as (_ & Hfresh & _).
      intros j Hj. rewrite Hkv. apply elem_of_app in Hj as [Hj|Hj].
      * assert (id j <> id jn) as Hne.
        { intros Heq. apply (Hfresh (id j)).
          - apply (list_elem_of_fmap_2 id). exact Hj.
          - rewrite Heq. cbn. left. }
        destruct (Hinv j Hj) as (H1 & H2 & H3).
        split; [|split; [|exact H3]].
        -- rewrite lookup_insert_ne
             by (apply not_eq_sym, metadataKey_not_jobKey; exact Ho).
           rewrite lookup_insert_ne by apply markerKey_not_jobKey.
           rewrite lookup_insert_ne
             by (intros H; apply jobKey_inj in H; congruence).
           exact H1.
        -- rewrite lookup_insert_ne
             by (apply not_eq_sym, metadataKey_not_markerKey; exact Ho).
           rewrite lookup_insert_ne
             by (intros H; apply markerKey_inj in H; congruence).
           rewrite lookup_insert_ne
             by (apply not_eq_sym, markerKey_not_jobKey).
           exact H2.
      * apply list_elem_of_singleton in Hj. subst j.
        split; [|split; [|exact Hs]].
        -- rewrite lookup_insert_ne
             by (apply not_eq_sym, metadataKey_not_jobKey; exact Ho).
           rewrite lookup_insert_ne by apply markerKey_not_jobKey.
           apply lookup_insert_eq.
        -- rewrite lookup_insert_ne
             by (apply not_eq_sym, metadataKey_not_markerKey; exact Ho).
           apply lookup_insert_eq.
Qed.

(** X21. From the Enqueuer to the scheduler, for an owner name without a
    colon: of a run that returns jobs with pairwise distinct ids, every job
    is in the store under its key, next to its marker that reads queued,
    whatever was written for the files after it; the scheduler lists it
    among the queued jobs, and a pass at any time at which no job is stale
    finds it eligible. *)
Theorem queued_jobs_reach_the_scheduler
  (E : Env) (fuel : nat) (o r gid : string) (jobs : list Job) (w w' : World) :
  hasColon o = false ->
  queueGroupedJobs E fuel o r w = Ret (gid, jobs) w' ->
  NoDup (map id jobs) ->
  forall j, j ∈ jobs ->
    kv w' !! jobKey (id j) = Some (VJob j)
    /\ kv w' !! markerKey gid (id j) = Some (VStr "queued")
    /\ j ∈ queuedJobs E (kv w')
    /\ (forall t, staleJobs E t (kv w') = [] -> j ∈ eligibleJobs E t (kv w')).
Proof.
  intros Ho Hrun Hnd j Hj. unfold queueGroupedJobs in Hrun.
  unfold bind at 1 in Hrun.
  destruct (fetchFiles E fuel o r "" w) as [listed w1|e w1|]; try discriminate.
  unfold bind at 1 in Hrun. unfold uuid at 1 in Hrun. unfold bind at 1 in Hrun.
  destruct (queueFiles E o r (o +:+ "/" +:+ r) (uuidv4 E (uuids w1)) _ []
              (setUuids (S (uuids w1)) w1)) as [jobs0 w2|e w2|] eqn:Hq;
    try discriminate.
  injection Hrun as <- <- <-.
  destruct (queueFiles_visible E o r _ Ho _ _ _ _ _ Hq Hnd) with (j := j)
    as (H1 & H2 & H3); [intros j0 Hj0; inversion Hj0|exact Hj|].
  assert (j ∈ queuedJobs E (kv w2)) as Hqd.
  { unfold queuedJobs. apply listed_job_stored. split; [exact H3|].
    exists (jobKey (id j)). split; [apply (prefix_app "job:" (id j))|exact H1]. }
  split; [exact H1|]. split; [exact H2|]. split; [exact Hqd|].
  intros t Hst. unfold eligibleJobs. rewrite Hst. exact Hqd.
Qed.

Lemma queued_jobs_reach_the_scheduler_witness :
  exists gid jobs w',
    queueGroupedJobs demoEnv 3 "o" "r" (worldOf ∅) = Ret (gid, jobs) w'
    /\ length jobs = 2%nat
    /\ forall j, j ∈ jobs ->
         kv w' !! jobKey (id j) = Some (VJob j)
         /\ kv w' !! markerKey gid (id j) = Some (VStr "queued")
         /\ j ∈ queuedJobs demoEnv (kv w')
         /\ (forall t, staleJobs demoEnv t (kv w') = [] ->
                       j ∈ eligibleJobs demoEnv t (kv w')).
Proof.
  let v := eval vm_compute in (queueGroupedJobs demoEnv 3 "o" "r" (worldOf ∅)) in
  lazymatch v with
  | Ret (?g, ?js) ?w1 =>
    assert (queueGroupedJobs demoEnv 3 "o" "r" (worldOf ∅) = Ret (g, js) w1) as Hrun
      by (vm_compute; reflexivity);
    exists g, js, w1
  end.
  split; [exact Hrun|]. split; [reflexivity|].
  refine (queued_jobs_reach_the_scheduler demoEnv 3 "o" "r" _ _ (worldOf ∅) _ _ Hrun _).
  - reflexivity.
  - apply (bool_decide_unpack _). vm_compute. exact I.
Defined.

(** ** The content of one file *)

Lemma fetchFileLoop_last E url : forall remaining attempt w,
  match fetchFileLoop E remaining attempt url w with
  | Ret _ w' | Raise _ w' => lastApiCallTime w' = lastApiCallTime w
  | OutOfFuel => True
  end.
Proof.
  induction remaining as [|r IH]; intros attempt w; cbn [fetchFileLoop];
    destruct (attempt <=? 5); try reflexivity; try exact I.
  unfold tryCatch. rewrite fetchFileAttempt_eq. cbn zeta.
  destruct (attemptText E url (requests w)) as [t|]; [reflexivity|].
  destruct (attempt =? 5); [reflexivity|].
  unfold bind at 1. unfold sleep at 1.
  match goal with
  | |- context [fetchFileLoop E r (attempt + 1) url ?w1] =>
    specialize (IH (attempt + 1) w1)
  end.
  destruct (fetchFileLoop E r (attempt + 1) url _); cbn in IH |- *;
    [exact IH|exact IH|exact I].
Qed.

(** X22. A file whose download fails five times in a row is never shown to
    the model: the step throws the error of the download, which names the
    address of the file, after five requests; the time of the last call to
    the model and the store are as before. *)
Theorem fileInfoToAstData_download_failure (E : Env) (f : FileInfo) (w : World) :
  failsFirst (attemptText E (download_url f)) (requests w) 5 ->
  exists w',
    fileInfoToAstData E f w
    = Raise (Error ("Failed to fetch file after 5 attempts: " +:+ download_url f)) w'
    /\ requests w' = (requests w + 5)%nat
    /\ lastApiCallTime w' = lastApiCallTime w
    /\ kv w' = kv w.
Proof.
  intros Hf.
  set (w0 := addEvent (EvSleep 750) (setNow (now w + Z.max 0 750) w)).
  destruct (fetchFileLoop_exhausted E (download_url f) 5 1 w0)
    as (w' & Hrun & Hkv & _ & Hreq & _); [lia|reflexivity|exact Hf|].
  pose proof (fetchFileLoop_last E (download_url f) 5 1 w0) as Hlast.
  rewrite Hrun in Hlast.
  exists w'. split; [|auto].
  unfold fileInfoToAstData. apply bind_Raise.
  unfold fetchFile, bind, sleep. fold w0. rewrite Hrun. reflexivity.
Qed.

Lemma fileInfoToAstData_download_failure_witness :
  exists w',
    fileInfoToAstData brokenEnv
      {| path := "a.js"; download_url := "https://raw.example/o/r/a.js" |} (worldOf ∅)
    = Raise (Error ("Failed to fetch file after 5 attempts: "
                    +:+ "https://raw.example/o/r/a.js")) w'
    /\ requests w' = (requests (worldOf ∅) + 5)%nat
    /\ lastApiCallTime w' = lastApiCallTime (worldOf ∅)
    /\ kv w' = kv (worldOf ∅).
Proof.
  apply (fileInfoToAstData_download_failure brokenEnv
           {| path := "a.js"; download_url := "https://raw.example/o/r/a.js" |}
           (worldOf ∅)).
  intros i _. reflexivity.
Defined.

(** X23. When one of the first five attempts is the first to deliver the
    text of the file and the model answers, the step returns the record of
    the file: its path, its class, its tree, the text as a JSON string, and
    the summary of the model, which is the empty string when the model had
    none; the store is as before, and the call to the model is stamped with
    the time at which it was made. *)
Theorem fileInfoToAstData_assembles
  (E : Env) (f : FileInfo) (w : World) (k : nat) (t : string) (s : option string) :
  (k < 5)%nat ->
  failsFirst (attemptText E (download_url f)) (requests w) k ->
  attemptText E (download_url f) (requests w + k)%nat = Some t ->
  openaiSummary E (path f) t = Ok s ->
  exists w',
    fileInfoToAstData E f w
    = Ret {| astFile := path f; astType := getFileType (path f);
             ast := generateAST E (path f) t; summary := default "" s;
             sourceCode := JSON_stringify E t |} w'
    /\ requests w' = (requests w + k + 1)%nat
    /\ lastApiCallTime w' = now w'
    /\ kv w' = kv w.
Proof.
  intros Hk Hf Ht Hs.
  set (w0 := addEvent (EvSleep 750) (setNow (now w + Z.max 0 750) w)).
  destruct (fetchFileLoop_success E (download_url f) k 5 1 w0 t)
    as (w1 & Hrun & Hkv & _ & Hreq & _); [lia|reflexivity|exact Hf|exact Ht|].
  assert (fetchFile E (download_url f) w = Ret t w1) as Hfetch.
  { unfold fetchFile, bind, sleep. fold w0. rewrite Hrun. reflexivity. }
  unfold fileInfoToAstData. rewrite (bind_Ret _ _ _ _ _ Hfetch).
  unfold summarizeFileOpenAI, bind, Date_now, getLastApiCallTime, sleep,
    setLastApiCallTime, lift. rewrite Hs.
  destruct (now w1 - lastApiCallTime w1 <? 1000); unfold ret;
    (eexists; split; [reflexivity|]);
    cbn [requests lastApiCallTime now kv setLast setNow addEvent];
    (split; [exact Hreq|]); (split; [reflexivity|exact Hkv]).
Qed.

Lemma fileInfoToAstData_assembles_witness :
  exists w',
    fileInfoToAstData silentEnv
      {| path := "a.js"; download_url := "https://raw.example/o/r/a.js" |} (worldOf ∅)
    = Ret {| astFile := "a.js"; astType := getFileType "a.js";
             ast := generateAST silentEnv "a.js" "export default 1";
             summary := default "" None;
             sourceCode := JSON_stringify silentEnv "export default 1" |} w'
    /\ requests w' = (requests (worldOf ∅) + 2 + 1)%nat
    /\ lastApiCallTime w' = now w'
    /\ kv w' = kv (worldOf ∅).
Proof.
  apply (fileInfoToAstData_assembles silentEnv
           {| path := "a.js"; download_url := "https://raw.example/o/r/a.js" |}
           (worldOf ∅) 2 "export default 1" None).
  - lia.
  - intros i Hi. destruct i as [|[|i]]; [reflexivity|reflexivity|lia].
  - reflexivity.
  - reflexivity.
Defined.

(** ** The tree of a file *)

(** X24. The tree of a JSON file does not depend on what the file holds:
    [generateAST] hands the content to [parseJSON] as the name of the file,
    so [parseJSON] parses its default text of the empty object; whenever
    that text parses as the empty object, the tree of every JSON file is the
    schema without any property, and two contents give the same tree. *)
Theorem json_tree_ignores_the_content
  (P : Tree.Parsers) (file content content2 : string) :
  getFileType file = "JSON" ->
  Tree.JSON_parse P "{}" = Ok (Tree.JObject []) ->
  Tree.generateAST P file content = Tree.AstSchema (Tree.SchemaOf [])
  /\ Tree.generateAST P file content2 = Tree.generateAST P file content.
Proof.
  intros Hty Hparse.
  assert (forall c, Tree.generateAST P file c = Tree.AstSchema (Tree.SchemaOf [])) as H.
  { intros c. unfold Tree.generateAST. rewrite Hty.
    change (String.eqb "JSON" "JavaScript/TypeScript") with false.
    change (String.eqb "JSON" "JSON") with true. cbn iota.
    unfold Tree.parseJSON. cbn [default from_option id]. rewrite Hparse. reflexivity. }
  rewrite !H. split; reflexivity.
Qed.

Lemma json_tree_ignores_the_content_witness :
  Tree.generateAST Tree.demoParsers "package.json" "[1, 2, 3]"
  = Tree.AstSchema (Tree.SchemaOf [])
  /\ Tree.generateAST Tree.demoParsers "package.json" "{ broken"
     = Tree.generateAST Tree.demoParsers "package.json" "[1, 2, 3]".
Proof.
  apply (json_tree_ignores_the_content Tree.demoParsers "package.json"
           "[1, 2, 3]" "{ broken"); reflexivity.
Defined.
